(** * Movie booking service: seat codec, catalog store and reservation engine

    A shallow embedding of [BookingService] (include/BookingService.hpp,
    src/BookingService.cpp) and the properties of its specification.

    The embedding is sequential: every public operation of the service runs
    under the catalog lock and/or the lock of one show, so one call is one
    atomic transition of the state below.  Integers of the C++ code are [Z];
    the counters, which are [std::atomic] and therefore wrap, have their
    wrap-around written out. *)

From Stdlib Require Import ZArith Ascii String List Bool Lia.
From stdpp Require Import base option list sorting gmap strings.

Local Open Scope Z_scope.

(** ** Constants of the class *)

Definition SEAT_ROW : ascii := "A"%char.
Definition TOTAL_SEATS : Z := 20.

(** ** Characters and strings *)

(** The numeric value of a character, as [unsigned char]. *)
Definition code (c : ascii) : Z := Z.of_N (N_of_ascii c).

(** [c < '0' || c > '9'] fails.  Where [char] is signed the bytes above 127
    are negative and fall under [c < '0']; where it is unsigned they fall
    under [c > '9']: the test is the same on both. *)
Definition is_digit (c : ascii) : bool :=
  (code "0" <=? code c) && (code c <=? code "9").

Definition ascii_of_code (z : Z) : ascii := ascii_of_N (Z.to_N z).

(** [std::tolower] on one [unsigned char], in the "C" locale. *)
Definition tolower (c : ascii) : ascii :=
  if (code "A" <=? code c) && (code c <=? code "Z")
  then ascii_of_code (code c + 32)
  else c.

(** [toLower]: [std::transform] of [tolower] over a copy of the string. *)
Fixpoint toLower (s : string) : string :=
  match s with
  | EmptyString => EmptyString
  | String c r => String (tolower c) (toLower r)
  end.

(** ** Seat codec *)

Module Codec.

(** How the [for] loop of [seatIndexFromLabel] is left. *)
Inductive LoopExit :=
  | Rejected                (* [return -1] on a character that is no digit *)
  | Broke (num : Z)         (* [break], the number went beyond TOTAL_SEATS *)
  | Exhausted (num : Z).    (* [i] reached [label.size()] *)

(** The loop from position [i] on, [rest] being the characters
    [label[i..]] and [num] the accumulator. *)
Fixpoint digit_loop (rest : string) (num : Z) : LoopExit :=
  match rest with
  | EmptyString => Exhausted num
  | String c r =>
      if negb (is_digit c) then Rejected
      else
        let num' := num * 10 + (code c - code "0") in
        if num' >? TOTAL_SEATS then Broke num' else digit_loop r num'
  end.

(** The same loop, recording the value of the accumulator after each
    assignment to it. *)
Fixpoint digit_loop_trace (rest : string) (num : Z) : LoopExit * list Z :=
  match rest with
  | EmptyString => (Exhausted num, [])
  | String c r =>
      if negb (is_digit c) then (Rejected, [])
      else
        let num' := num * 10 + (code c - code "0") in
        if num' >? TOTAL_SEATS then (Broke num', [num'])
        else let '(e, t) := digit_loop_trace r num' in (e, num' :: t)
  end.

Definition exit_num (e : LoopExit) : option Z :=
  match e with
  | Rejected => None
  | Broke n | Exhausted n => Some n
  end.

(** [label.size() < 2 || label[0] != SEAT_ROW] *)
Definition bad_prefix (label : string) : bool :=
  match label with
  | String c (String _ _) => negb (Ascii.eqb c SEAT_ROW)
  | _ => true
  end.

(** [label[1..]] *)
Definition suffix (label : string) : string :=
  match label with
  | EmptyString => EmptyString
  | String _ r => r
  end.

Definition seatIndexFromLabel (label : string) : Z :=
  if bad_prefix label then -1
  else
    match exit_num (digit_loop (suffix label) 0) with
    | None => -1
    | Some num =>
        if (num <? 1) || (num >? TOTAL_SEATS) then -1 else num - 1
    end.

(** [os << n] for an [int]: the decimal digits, most significant first, after
    a minus sign when [n] is negative.  An [int] has at most ten digits. *)
Definition digit_char (d : Z) : ascii := ascii_of_code (code "0" + d).

Fixpoint decimal (fuel : nat) (n : Z) (acc : string) : string :=
  match fuel with
  | O => acc
  | S f =>
      let acc' := String (digit_char (n mod 10)) acc in
      if n / 10 =? 0 then acc' else decimal f (n / 10) acc'
  end.

Definition print_int (n : Z) : string :=
  if n <? 0 then String "-" (decimal 10 (- n) EmptyString)
  else decimal 10 n EmptyString.

(** [os << SEAT_ROW << (idx + 1)] *)
Definition seatLabelFromIndex (idx : Z) : string :=
  String SEAT_ROW (print_int (idx + 1)).

End Codec.

Export Codec.

(** ** Data model *)

Record Movie := { movie_id : Z; title : string }.
Record Theater := { theater_id : Z; name : string }.

(** A show: [seats] is the [std::vector<bool>] ([true] = booked) and
    [availableCount] the cached number of free seats.  The mutex of the show
    has no counterpart: one call is one transition. *)
Record Show := {
  movieId : Z;
  theaterId : Z;
  seats : list bool;
  availableCount : Z
}.

(** The private members of [BookingService].  [shows_] holds the shows by
    value: every [shared_ptr<Show>] is made by one [make_shared] in
    [createShow] and stored under one key, so no two entries alias. *)
Record BookingService := {
  movies_ : gmap Z Movie;
  theaters_ : gmap Z Theater;
  shows_ : gmap Z Show;
  movieNameToId_ : gmap string Z;
  theaterNameToId_ : gmap string Z;
  showLookup_ : gmap (Z * Z) Z;
  activeMovies_ : gset Z;
  movieToTheaters_ : gmap Z (gset Z);
  movieCounter_ : Z;
  theaterCounter_ : Z;
  showCounter_ : Z
}.

(** [BookingService() = default] *)
Definition empty_service : BookingService := {|
  movies_ := ∅; theaters_ := ∅; shows_ := ∅;
  movieNameToId_ := ∅; theaterNameToId_ := ∅; showLookup_ := ∅;
  activeMovies_ := ∅; movieToTheaters_ := ∅;
  movieCounter_ := 0; theaterCounter_ := 0; showCounter_ := 0
|}.

(** ** Results *)

(** What the service writes to [std::cerr]. *)
Inductive Diag :=
  | MovieExists (title : string) (existing : Z)
  | TheaterExists (name : string) (existing : Z)
  | InvalidMovieId (movieId : Z)
  | InvalidTheaterId (theaterId : Z)
  | DuplicateShow (movieId theaterId : Z)
  | InvalidSeat (lbl : string)
  | DuplicateSeat (lbl : string)
  | SeatAlreadyBooked (lbl : string).

(** The outcome of a call that returns: the value, the lines written to
    [std::cerr] and the service afterwards. *)
Record Out (A : Type) := mkOut { ret : A; cerr : list Diag; post : BookingService }.
Arguments mkOut {A} ret cerr post.
Arguments ret {A} o.
Arguments cerr {A} o.
Arguments post {A} o.

Inductive Exn :=
  | invalid_argument (what : string)
  | length_error.

(** A call returns, throws, or has no defined behaviour (an access outside
    a vector or an array). *)
Inductive Res (A : Type) :=
  | Ret (a : A)
  | Throw (e : Exn)
  | Undef.
Arguments Ret {A} a.
Arguments Throw {A} e.
Arguments Undef {A}.

(** ** Machine integers *)

(** A [bits]-wide two's complement integer. *)
Definition wrap (bits : Z) (z : Z) : Z :=
  (z + 2 ^ (bits - 1)) mod 2 ^ bits - 2 ^ (bits - 1).

(** [++c] on a [std::atomic<int>] and on a [std::atomic<long long>]. *)
Definition incr_int (c : Z) : Z := wrap 32 (c + 1).
Definition incr_llong (c : Z) : Z := wrap 64 (c + 1).

Definition INT_MAX : Z := 2 ^ 31 - 1.
Definition LLONG_MAX : Z := 2 ^ 63 - 1.

(** ** Catalog store *)

(** [m.try_emplace(k, v)] and [m.emplace(k, v)]: no effect on a key that is
    present. *)
Definition emplace {V : Type} (k : Z) (v : V) (m : gmap Z V) : gmap Z V :=
  match m !! k with
  | Some _ => m
  | None => <[k := v]> m
  end.

Definition addMovie (title : string) (st : BookingService) : Out Z :=
  let lowerTitle := toLower title in
  match movieNameToId_ st !! lowerTitle with
  | Some existing => mkOut (-1) [MovieExists title existing] st
  | None =>
      let id := incr_int (movieCounter_ st) in
      mkOut id [] {|
        movies_ := emplace id {| movie_id := id; title := title |} (movies_ st);
        theaters_ := theaters_ st;
        shows_ := shows_ st;
        movieNameToId_ := <[lowerTitle := id]> (movieNameToId_ st);
        theaterNameToId_ := theaterNameToId_ st;
        showLookup_ := showLookup_ st;
        activeMovies_ := activeMovies_ st;
        movieToTheaters_ := movieToTheaters_ st;
        movieCounter_ := id;
        theaterCounter_ := theaterCounter_ st;
        showCounter_ := showCounter_ st
      |}
  end.

Definition addTheater (name : string) (st : BookingService) : Out Z :=
  let lowerName := toLower name in
  match theaterNameToId_ st !! lowerName with
  | Some existing => mkOut (-1) [TheaterExists name existing] st
  | None =>
      let id := incr_int (theaterCounter_ st) in
      mkOut id [] {|
        movies_ := movies_ st;
        theaters_ := emplace id {| theater_id := id; name := name |} (theaters_ st);
        shows_ := shows_ st;
        movieNameToId_ := movieNameToId_ st;
        theaterNameToId_ := <[lowerName := id]> (theaterNameToId_ st);
        showLookup_ := showLookup_ st;
        activeMovies_ := activeMovies_ st;
        movieToTheaters_ := movieToTheaters_ st;
        movieCounter_ := movieCounter_ st;
        theaterCounter_ := id;
        showCounter_ := showCounter_ st
      |}
  end.

(** The show that [createShow] builds: [seats.assign(TOTAL_SEATS, false)]
    and [availableCount = TOTAL_SEATS]. *)
Definition new_show (movieId theaterId : Z) : Show := {|
  movieId := movieId;
  theaterId := theaterId;
  seats := replicate (Z.to_nat TOTAL_SEATS) false;
  availableCount := TOTAL_SEATS
|}.

(** [movieToTheaters_[movieId].insert(theaterId)]: [operator[]] makes the
    empty set where the key is absent. *)
Definition add_theater_of (movieId theaterId : Z) (m : gmap Z (gset Z))
  : gmap Z (gset Z) :=
  <[movieId := {[theaterId]} ∪ default ∅ (m !! movieId)]> m.

Definition createShow (movieId theaterId : Z) (st : BookingService) : Out Z :=
  match movies_ st !! movieId with
  | None => mkOut (-1) [InvalidMovieId movieId] st
  | Some _ =>
      match theaters_ st !! theaterId with
      | None => mkOut (-1) [InvalidTheaterId theaterId] st
      | Some _ =>
          let key := (movieId, theaterId) in
          match showLookup_ st !! key with
          | Some _ => mkOut (-1) [DuplicateShow movieId theaterId] st
          | None =>
              let id := incr_llong (showCounter_ st) in
              mkOut id [] {|
                movies_ := movies_ st;
                theaters_ := theaters_ st;
                shows_ := emplace id (new_show movieId theaterId) (shows_ st);
                movieNameToId_ := movieNameToId_ st;
                theaterNameToId_ := theaterNameToId_ st;
                showLookup_ := <[key := id]> (showLookup_ st);
                activeMovies_ := {[movieId]} ∪ activeMovies_ st;
                movieToTheaters_ :=
                  add_theater_of movieId theaterId (movieToTheaters_ st);
                movieCounter_ := movieCounter_ st;
                theaterCounter_ := theaterCounter_ st;
                showCounter_ := id
              |}
          end
      end
  end.

(** ** Show inventory and reservation engine *)

(** The loop of [getAvailableSeats] over the indices [idxs], appending to
    [available]; [None] when [seats[i]] is outside the vector. *)
Fixpoint scan_seats (seats : list bool) (idxs : list Z) (available : list string)
  : option (list string) :=
  match idxs with
  | [] => Some available
  | i :: rest =>
      match seats !! Z.to_nat i with
      | None => None
      | Some occupied =>
          scan_seats seats rest
            (if occupied : bool then available
             else available ++ [seatLabelFromIndex i])
      end
  end.

(** [available.reserve(n)] converts [n] to [size_t]; a negative count is
    beyond [max_size()] and makes it throw. *)
Definition getAvailableSeats (showId : Z) (st : BookingService)
  : Res (list string) :=
  match shows_ st !! showId with
  | None => Throw (invalid_argument "Invalid show ID")
  | Some show =>
      if availableCount show <? 0 then Throw length_error
      else
        match scan_seats (seats show) (seqZ 0 TOTAL_SEATS) [] with
        | None => Undef
        | Some available => Ret available
        end
  end.

(** The first loop of [bookSeats] ends with a diagnostic, with the indices
    to commit, or outside the seat vector or the array [tmpIndices]. *)
Inductive Validation :=
  | Refused (d : Diag)
  | Accepted (tmpIndices : list Z)
  | OutOfBounds.

(** [seen] is the [std::bitset<TOTAL_SEATS>], bit [idx] of the integer;
    [tmpIndices] holds the [n] entries written so far. *)
Fixpoint validate (seats : list bool) (seen : Z) (tmpIndices : list Z)
    (seatLabels : list string) : Validation :=
  match seatLabels with
  | [] => Accepted tmpIndices
  | lbl :: rest =>
      let idx := seatIndexFromLabel lbl in
      if idx <? 0 then Refused (InvalidSeat lbl)
      else if Z.testbit seen idx then Refused (DuplicateSeat lbl)
      else
        match seats !! Z.to_nat idx with
        | None => OutOfBounds
        | Some true => Refused (SeatAlreadyBooked lbl)
        | Some false =>
            if TOTAL_SEATS <=? Z.of_nat (length tmpIndices) then OutOfBounds
            else validate seats (Z.setbit seen idx) (tmpIndices ++ [idx]) rest
        end
  end.

(** The second loop: every index was read in the first, so the writes are
    inside the vector. *)
Fixpoint commit (tmpIndices : list Z) (seats : list bool) (availableCount : Z)
  : list bool * Z :=
  match tmpIndices with
  | [] => (seats, availableCount)
  | idx :: rest =>
      commit rest (<[Z.to_nat idx := true]> seats) (availableCount - 1)
  end.

Definition set_show (showId : Z) (show : Show) (st : BookingService)
  : BookingService := {|
  movies_ := movies_ st;
  theaters_ := theaters_ st;
  shows_ := <[showId := show]> (shows_ st);
  movieNameToId_ := movieNameToId_ st;
  theaterNameToId_ := theaterNameToId_ st;
  showLookup_ := showLookup_ st;
  activeMovies_ := activeMovies_ st;
  movieToTheaters_ := movieToTheaters_ st;
  movieCounter_ := movieCounter_ st;
  theaterCounter_ := theaterCounter_ st;
  showCounter_ := showCounter_ st
|}.

Definition bookSeats (showId : Z) (seatLabels : list string)
    (st : BookingService) : Res (Out bool) :=
  match shows_ st !! showId with
  | None => Ret (mkOut false [] st)
  | Some show =>
      match validate (seats show) 0 [] seatLabels with
      | OutOfBounds => Undef
      | Refused d => Ret (mkOut false [d] st)
      | Accepted tmpIndices =>
          let '(seats', count') :=
            commit tmpIndices (seats show) (availableCount show) in
          Ret (mkOut true []
                 (set_show showId
                    {| movieId := movieId show; theaterId := theaterId show;
                       seats := seats'; availableCount := count' |} st))
      end
  end.

(** ** Sequences of calls *)

Inductive Call :=
  | CallAddMovie (title : string)
  | CallAddTheater (name : string)
  | CallCreateShow (movieId theaterId : Z)
  | CallGetAvailableSeats (showId : Z)
  | CallBookSeats (showId : Z) (seatLabels : list string).

(** The service after one call; [None] when the call has no defined
    behaviour.  [getAvailableSeats] is [const]: whether it returns or
    throws, the service is as before. *)
Definition step (c : Call) (st : BookingService) : option BookingService :=
  match c with
  | CallAddMovie title => Some (post (addMovie title st))
  | CallAddTheater name => Some (post (addTheater name st))
  | CallCreateShow m t => Some (post (createShow m t st))
  | CallGetAvailableSeats showId =>
      match getAvailableSeats showId st with
      | Undef => None
      | _ => Some st
      end
  | CallBookSeats showId seatLabels =>
      match bookSeats showId seatLabels st with
      | Ret o => Some (post o)
      | _ => None
      end
  end.

Fixpoint run (calls : list Call) (st : BookingService) : option BookingService :=
  match calls with
  | [] => Some st
  | c :: rest =>
      match step c st with
      | None => None
      | Some st' => run rest st'
      end
  end.

(** The services that a program can hold: those that some sequence of calls
    builds from a default-constructed one. *)
Definition reachable (st : BookingService) : Prop :=
  ∃ calls, run calls empty_service = Some st.

(** ** Invariants *)

(** The number of free seats of a vector. *)
Definition count_free (seats : list bool) : Z :=
  Z.of_nat (length (filter (λ b, b = false) seats)).

Definition show_ok (s : Show) : Prop :=
  Z.of_nat (length (seats s)) = TOTAL_SEATS ∧
  availableCount s = count_free (seats s).

Definition shows_ok (st : BookingService) : Prop :=
  ∀ showId s, shows_ st !! showId = Some s → show_ok s.

(** ** The label grammar, as the specification words it *)

Fixpoint all_digits (s : string) : bool :=
  match s with
  | EmptyString => true
  | String c r => is_digit c && all_digits r
  end.

(** The integer that a string of decimal digits encodes, continuing from
    the value [acc] of the digits before it. *)
Fixpoint number_from (acc : Z) (digits : string) : Z :=
  match digits with
  | EmptyString => acc
  | String c r => number_from (acc * 10 + (code c - code "0")) r
  end.

Definition number_of (digits : string) : Z := number_from 0 digits.

(** "[<ROW><1-based number>]": the row letter followed by one or more
    decimal digits encoding an integer in [[1, TOTAL_SEATS]]. *)
Definition in_grammar (label : string) : Prop :=
  ∃ digits, label = String SEAT_ROW digits ∧ digits ≠ EmptyString ∧
    all_digits digits = true ∧ 1 ≤ number_of digits ≤ TOTAL_SEATS.

(** The four ways out of the grammar that the specification lists. *)
Definition wrong_row (label : string) : Prop :=
  ∀ rest, label ≠ String SEAT_ROW rest.
Definition empty_suffix (label : string) : Prop :=
  label = String SEAT_ROW EmptyString.
Definition non_digit_suffix (label : string) : Prop :=
  ∃ rest, label = String SEAT_ROW rest ∧ all_digits rest = false.
Definition number_out_of_range (label : string) : Prop :=
  ∃ digits, label = String SEAT_ROW digits ∧ all_digits digits = true ∧
    ¬ (1 ≤ number_of digits ≤ TOTAL_SEATS).

Definition outside_grammar (label : string) : Prop :=
  wrong_row label ∨ empty_suffix label ∨ non_digit_suffix label ∨
  number_out_of_range label.

(** The largest value the accumulator of [seatIndexFromLabel] can take: one
    more digit after a value that passed the test against TOTAL_SEATS. *)
Definition ACC_MAX : Z := TOTAL_SEATS * 10 + 9.

(** What "bounded work" is on the recorded run of the loop: no more
    iterations than characters after the row letter, an accumulator that
    stays in [[0, ACC_MAX]], well inside an [int], and no iteration after
    one that took the accumulator beyond TOTAL_SEATS. *)
Definition bounded_parse (label : string) : Prop :=
  let run := digit_loop_trace (suffix label) 0 in
  fst run = digit_loop (suffix label) 0 ∧
  (length (snd run) ≤ String.length (suffix label))%nat ∧
  Forall (λ v, 0 ≤ v ≤ ACC_MAX) (snd run) ∧
  ACC_MAX ≤ INT_MAX ∧
  ∀ k v, snd run !! k = Some v → TOTAL_SEATS < v → S k = length (snd run).

(** ** Requests, as the specification classifies them *)

(** A label that fails to decode. *)
Definition malformed (lbl : string) : Prop := seatIndexFromLabel lbl < 0.

(** A label that names a seat of [s] that is taken, and one that names a
    seat that is free. *)
Definition occupied (s : Show) (lbl : string) : Prop :=
  0 ≤ seatIndexFromLabel lbl ∧
  seats s !! Z.to_nat (seatIndexFromLabel lbl) = Some true.

Definition free_seat (s : Show) (lbl : string) : Prop :=
  0 ≤ seatIndexFromLabel lbl ∧
  seats s !! Z.to_nat (seatIndexFromLabel lbl) = Some false.

(** A request in which two positions decode to the same index. *)
Definition repeated (seatLabels : list string) : Prop :=
  ∃ i j l1 l2, i ≠ j ∧ seatLabels !! i = Some l1 ∧ seatLabels !! j = Some l2 ∧
    seatIndexFromLabel l1 = seatIndexFromLabel l2.

(** The indices of the free seats of a vector, in ascending order. *)
Definition free_indices (seats : list bool) : list Z :=
  filter (λ i, seats !! Z.to_nat i = Some false) (seqZ 0 TOTAL_SEATS).

(** The shows of a service that are for one (movie, theater) pair. *)
Definition show_for (movieId' theaterId' : Z) (s : Show) : Prop :=
  movieId s = movieId' ∧ theaterId s = theaterId'.

(** The bitset [seen] holds exactly the indices stored in [tmpIndices]. *)
Definition seen_agrees (seen : Z) (tmpIndices : list Z) : Prop :=
  ∀ i, 0 ≤ i → Z.testbit seen i = true ↔ i ∈ tmpIndices.

(** The show after the second loop of [bookSeats] ran over [idxs]. *)
Definition booked (s : Show) (idxs : list Z) : Show := {|
  movieId := movieId s;
  theaterId := theaterId s;
  seats := (commit idxs (seats s) (availableCount s)).1;
  availableCount := (commit idxs (seats s) (availableCount s)).2
|}.

(** Every show is filed in [showLookup_] under its own pair. *)
Definition lookup_covers (st : BookingService) : Prop :=
  ∀ showId s, shows_ st !! showId = Some s →
    showLookup_ st !! (movieId s, theaterId s) = Some showId.

(** The catalog while [showCounter_] has not wrapped: the show ids are the
    values the counter has taken, and [showLookup_] files only shows that
    exist, under their own pair. *)
Definition catalog_ok (st : BookingService) : Prop :=
  0 ≤ showCounter_ st ∧
  (∀ showId, is_Some (shows_ st !! showId) → 1 ≤ showId ≤ showCounter_ st) ∧
  (∀ m t showId, showLookup_ st !! (m, t) = Some showId →
     ∃ s, shows_ st !! showId = Some s ∧ show_for m t s).

(** ** The example of the specification *)

(** One movie, one theater and one show of them, each with id 1. *)
Definition example_calls : list Call :=
  [CallAddMovie "Inception"; CallAddTheater "Cineplex"; CallCreateShow 1 1].

Definition example_service : BookingService :=
  post (createShow 1 1
          (post (addTheater "Cineplex"
                   (post (addMovie "Inception" empty_service))))).

(** ** Two readings that the code does not follow *)

(** Labels that differ as strings, each naming a free seat, are booked. *)
Definition distinct_strings_are_booked : Prop :=
  ∀ st showId s seatLabels,
    reachable st → shows_ st !! showId = Some s →
    NoDup seatLabels → Forall (free_seat s) seatLabels →
    ∃ o, bookSeats showId seatLabels st = Ret o ∧ ret o = true.

(** A title that differs only by case from one added before gets the id of
    the first as the return value. *)
Definition duplicate_returns_first_id : Prop :=
  ∀ st title1 title2,
    toLower title1 = toLower title2 →
    ret (addMovie title2 (post (addMovie title1 st))) =
    ret (addMovie title1 st).

(** ** Catalog queries *)

Definition getMovieTitle (movieId : Z) (st : BookingService) : string :=
  match movies_ st !! movieId with
  | Some m => title m
  | None => "Unknown Movie"
  end.

Definition getTheaterName (theaterId : Z) (st : BookingService) : string :=
  match theaters_ st !! theaterId with
  | Some t => name t
  | None => "Unknown Theater"
  end.

(** [ShowInfo]; its member [id] is [show_id] here. *)
Record ShowInfo := {
  show_id : Z;
  movieTitle : string;
  theaterName : string;
  availableSeats : Z
}.

(** The three listings walk an [unordered_map], in the order of the hash
    table; [map_to_list] stands for that order, and no statement below
    depends on it.  The test [if (!showPtr) continue] of [getAllShows] has
    no counterpart: [createShow] stores the result of [make_shared]. *)
Definition getAllShows (st : BookingService) : list ShowInfo :=
  (λ p, {| show_id := p.1;
           movieTitle := getMovieTitle (movieId p.2) st;
           theaterName := getTheaterName (theaterId p.2) st;
           availableSeats := availableCount p.2 |}) <$> map_to_list (shows_ st).

Definition getAllMovies (st : BookingService) : list (Z * string) :=
  (λ p, (p.1, title p.2)) <$> map_to_list (movies_ st).

Definition getAllTheaters (st : BookingService) : list (Z * string) :=
  (λ p, (p.1, name p.2)) <$> map_to_list (theaters_ st).

(** What the two listing calls write to [std::cout], line by line. *)
Inductive Line :=
  | NoMoviesPlaying
  | MoviesPlaying
  | MovieLine (movieId : Z) (title : string)
  | NoTheatersFound
  | TheatersShowing (title : string)
  | TheaterLine (theaterId : Z) (name : string).

(** The loop of [listMovies]: an active id that [movies_] does not hold is
    passed over. *)
Definition movie_lines (st : BookingService) (ids : list Z) : list Line :=
  omap (λ i, (λ m, MovieLine i (title m)) <$> movies_ st !! i) ids.

(** [elements] stands for the order in which the [unordered_set] is
    walked. *)
Definition listMovies (st : BookingService) : bool * list Line :=
  if decide (activeMovies_ st = ∅) then (false, [NoMoviesPlaying])
  else (true, MoviesPlaying :: movie_lines st (elements (activeMovies_ st))).

Definition listTheatersForMovie (movieId : Z) (st : BookingService) : list Line :=
  match movieToTheaters_ st !! movieId with
  | None => [NoTheatersFound]
  | Some theaters =>
      if decide (theaters = ∅) then [NoTheatersFound]
      else TheatersShowing (getMovieTitle movieId st) ::
           ((λ tid, TheaterLine tid (getTheaterName tid st)) <$> elements theaters)
  end.

(** ** Invariants of the whole catalog *)

(** A name registry ([movies_] or [theaters_] with its name index and its
    counter) while the counter has not wrapped: the ids are 1 to the
    counter, every entry is filed under its lower-cased name, and the index
    files nothing else. *)
Definition registry_ok (names : gmap Z string) (index : gmap string Z)
    (counter : Z) : Prop :=
  0 ≤ counter ∧
  (∀ i, is_Some (names !! i) ↔ 1 ≤ i ≤ counter) ∧
  (∀ i n, names !! i = Some n → index !! toLower n = Some i) ∧
  (∀ k i, index !! k = Some i → ∃ n, names !! i = Some n ∧ toLower n = k).

Definition movies_ok (st : BookingService) : Prop :=
  registry_ok (title <$> movies_ st) (movieNameToId_ st) (movieCounter_ st) ∧
  ∀ i m, movies_ st !! i = Some m → movie_id m = i.

Definition theaters_ok (st : BookingService) : Prop :=
  registry_ok (name <$> theaters_ st) (theaterNameToId_ st) (theaterCounter_ st) ∧
  ∀ i t, theaters_ st !! i = Some t → theater_id t = i.

(** The shows and the indexes derived from them: the ids are 1 to the
    counter, a show is of a movie and a theater that exist, the active
    movies are those with a show, and [movieToTheaters_] holds for a movie
    the theaters with a show of it. *)
Definition shows_indexed (st : BookingService) : Prop :=
  (∀ i, is_Some (shows_ st !! i) ↔ 1 ≤ i ≤ showCounter_ st) ∧
  (∀ i s, shows_ st !! i = Some s →
     is_Some (movies_ st !! movieId s) ∧ is_Some (theaters_ st !! theaterId s)) ∧
  (∀ m, m ∈ activeMovies_ st ↔ ∃ i s, shows_ st !! i = Some s ∧ movieId s = m) ∧
  (∀ m t, t ∈ default ∅ (movieToTheaters_ st !! m) ↔
          ∃ i s, shows_ st !! i = Some s ∧ show_for m t s).

(** A service that fewer calls have built than the smallest counter, an
    [int], can count. *)
Definition built (st : BookingService) : Prop :=
  ∃ calls, run calls empty_service = Some st ∧ Z.of_nat (length calls) < INT_MAX.

(** A show of [st] as a later service holds it: the same movie and theater,
    every taken seat still taken, and no more free seats than before. *)
Definition show_kept (s s' : Show) : Prop :=
  movieId s' = movieId s ∧ theaterId s' = theaterId s ∧
  length (seats s') = length (seats s) ∧
  (∀ i, seats s !! i = Some true → seats s' !! i = Some true) ∧
  availableCount s' ≤ availableCount s.

(** What a call can do to the service: nothing, file a movie, file a
    theater, file a show, or book seats of one show. *)
Inductive Effect (st : BookingService) : BookingService → Prop :=
  | NoEffect : Effect st st
  | MovieAdded title :
      movieNameToId_ st !! toLower title = None →
      Effect st {|
        movies_ := emplace (incr_int (movieCounter_ st))
                     {| movie_id := incr_int (movieCounter_ st); title := title |}
                     (movies_ st);
        theaters_ := theaters_ st;
        shows_ := shows_ st;
        movieNameToId_ :=
          <[toLower title := incr_int (movieCounter_ st)]> (movieNameToId_ st);
        theaterNameToId_ := theaterNameToId_ st;
        showLookup_ := showLookup_ st;
        activeMovies_ := activeMovies_ st;
        movieToTheaters_ := movieToTheaters_ st;
        movieCounter_ := incr_int (movieCounter_ st);
        theaterCounter_ := theaterCounter_ st;
        showCounter_ := showCounter_ st
      |}
  | TheaterAdded name :
      theaterNameToId_ st !! toLower name = None →
      Effect st {|
        movies_ := movies_ st;
        theaters_ := emplace (incr_int (theaterCounter_ st))
                       {| theater_id := incr_int (theaterCounter_ st); name := name |}
                       (theaters_ st);
        shows_ := shows_ st;
        movieNameToId_ := movieNameToId_ st;
        theaterNameToId_ :=
          <[toLower name := incr_int (theaterCounter_ st)]> (theaterNameToId_ st);
        showLookup_ := showLookup_ st;
        activeMovies_ := activeMovies_ st;
        movieToTheaters_ := movieToTheaters_ st;
        movieCounter_ := movieCounter_ st;
        theaterCounter_ := incr_int (theaterCounter_ st);
        showCounter_ := showCounter_ st
      |}
  | ShowCreated m t mv th :
      movies_ st !! m = Some mv → theaters_ st !! t = Some th →
      showLookup_ st !! (m, t) = None →
      Effect st (post (createShow m t st))
  | SeatsBooked showId s labels idxs :
      shows_ st !! showId = Some s →
      validate (seats s) 0 [] labels = Accepted idxs →
      Effect st (set_show showId (booked s idxs) st).

(** Everything the catalog keeps, together, and a common bound on the
    three counters. *)
Definition service_ok (st : BookingService) : Prop :=
  movies_ok st ∧ theaters_ok st ∧ catalog_ok st ∧ shows_indexed st.

Definition counters_le (st : BookingService) (n : Z) : Prop :=
  movieCounter_ st ≤ n ∧ theaterCounter_ st ≤ n ∧ showCounter_ st ≤ n.

(** A letter that [std::tolower] changes. *)
Definition is_upper (c : ascii) : bool :=
  (code "A" <=? code c) && (code c <=? code "Z").

Fixpoint no_upper (s : string) : bool :=
  match s with
  | EmptyString => true
  | String c r => negb (is_upper c) && no_upper r
  end.

Definition INT_MIN : Z := - 2 ^ 31.

(** ** The command line (main.cpp) *)

(** In this part a [std::string] is the list of its characters. *)

(** [std::string::npos] and the arithmetic of [size_t]. *)
Definition npos : Z := 2 ^ 64 - 1.
Definition wrap_size (z : Z) : Z := z mod 2 ^ 64.

(** The characters of the literal " \t\r\n". *)
Definition is_blank (c : ascii) : bool :=
  bool_decide (code c ∈ [32; 9; 13; 10]).

(** [s.find_first_not_of(" \t\r\n")], on the characters from position
    [pos] on. *)
Fixpoint find_first_not_of (s : list ascii) (pos : Z) : Z :=
  match s with
  | [] => npos
  | c :: r => if is_blank c then find_first_not_of r (pos + 1) else pos
  end.

(** [s.find_last_not_of(" \t\r\n")]: the position of the last character
    that is not in the set, [last] being the last one met so far. *)
Fixpoint find_last_not_of (s : list ascii) (pos last : Z) : Z :=
  match s with
  | [] => last
  | c :: r => find_last_not_of r (pos + 1) (if is_blank c then last else pos)
  end.

(** [s.substr(pos, count)], for a [pos] that is not beyond the end (where
    it throws): at most [count] characters from [pos] on. *)
Definition substr (s : list ascii) (pos count : Z) : list ascii :=
  take (Z.to_nat count) (drop (Z.to_nat pos) s).

Definition trim (s : list ascii) : list ascii :=
  let start := find_first_not_of s 0 in
  let end_ := find_last_not_of s 0 npos in
  if start =? npos then [] else substr s start (wrap_size (end_ - start + 1)).

(** [::isspace] in the "C" locale, on the character as [unsigned char]. *)
Definition isspace (c : ascii) : bool :=
  bool_decide (code c ∈ [32; 9; 10; 11; 12; 13]).

(** The tokens that [while (std::getline(ss, token, ','))] sees: the
    characters up to each comma, and those after the last one when there
    are any; at the end of the input with nothing read, [getline] fails.
    [token] holds what the running [getline] has read. *)
Fixpoint getline_tokens (input token : list ascii) : list (list ascii) :=
  match input with
  | [] => if decide (token = []) then [] else [token]
  | c :: rest =>
      if Ascii.eqb c "," then token :: getline_tokens rest []
      else getline_tokens rest (token ++ [c])
  end.

(** [token.erase(std::remove_if(..., ::isspace), token.end())] *)
Definition strip_spaces (token : list ascii) : list ascii :=
  filter (λ c, isspace c = false) token.

(** The body of the loop: [if (!token.empty()) seatsToBook.push_back(token)]
    after the spaces are gone. *)
Fixpoint push_tokens (tokens : list (list ascii)) : list (list ascii) :=
  match tokens with
  | [] => []
  | token :: rest =>
      match strip_spaces token with
      | [] => push_tokens rest
      | token' => token' :: push_tokens rest
      end
  end.

(** [seatsToBook] for a line of input, as [bookSeats] takes it. *)
Definition seatsToBook (input : list ascii) : list string :=
  string_of_list_ascii <$> push_tokens (getline_tokens input []).

(** The labels after "Already Booked seats: ", when that line is written:
    those of A1 to A20, in this order, that [std::find] does not find in
    [available]. *)
Definition already_booked (available : list string) : option (list string) :=
  if Z.of_nat (length available) <? TOTAL_SEATS then
    Some (filter (λ l, l ∉ available)
            ((λ i, seatLabelFromIndex (i - 1)) <$> seqZ 1 TOTAL_SEATS))
  else None.

(** [std::stoi] and [std::stoll] are [strtol] and [strtoll] in base 10 and
    a test of the range: white space is passed over, then an optional sign,
    then the digits as far as they go.  No digit is
    [std::invalid_argument], a value outside [[lo, hi]] is
    [std::out_of_range]. *)
Inductive Stoi :=
  | StoiValue (v : Z)
  | StoiInvalid
  | StoiOutOfRange.

Fixpoint skip_spaces (s : list ascii) : list ascii :=
  match s with
  | [] => []
  | c :: r => if isspace c then skip_spaces r else s
  end.

Fixpoint leading_digits (s : list ascii) : list ascii :=
  match s with
  | [] => []
  | c :: r => if is_digit c then c :: leading_digits r else []
  end.

(** The number that a list of digits encodes, continuing from [acc]. *)
Fixpoint digits_value (acc : Z) (digits : list ascii) : Z :=
  match digits with
  | [] => acc
  | c :: r => digits_value (acc * 10 + (code c - code "0")) r
  end.

Definition stoi_in (lo hi : Z) (s : list ascii) : Stoi :=
  let s1 := skip_spaces s in
  let '(negative, s2) :=
    match s1 with
    | c :: r =>
        if Ascii.eqb c "-" then (true, r)
        else if Ascii.eqb c "+" then (false, r)
        else (false, s1)
    | [] => (false, s1)
    end in
  match leading_digits s2 with
  | [] => StoiInvalid
  | digits =>
      let v := if negative : bool then - digits_value 0 digits
               else digits_value 0 digits in
      if (lo <=? v) && (v <=? hi) then StoiValue v else StoiOutOfRange
  end.

Definition LLONG_MIN : Z := - 2 ^ 63.

(** What [safeReadInt] and [safeReadLong] write to [std::cerr]. *)
Inductive ReadDiag := InvalidNumber.

(** [safeReadInt] on what [std::getline] gives: [None] when it fails (end
    of input), else the line.  The result is the return value, the value
    stored through the reference when there is one, and the diagnostics;
    the prompt written to [std::cout] is left out. *)
Definition safeRead (lo hi : Z) (line : option (list ascii))
  : bool * option Z * list ReadDiag :=
  match line with
  | None => (false, None, [])
  | Some line =>
      match trim line with
      | [] => (false, None, [])
      | line' =>
          match stoi_in lo hi line' with
          | StoiValue v => (true, Some v, [])
          | _ => (false, None, [InvalidNumber])
          end
      end
  end.

Definition safeReadInt : option (list ascii) → bool * option Z * list ReadDiag :=
  safeRead INT_MIN INT_MAX.

Definition safeReadLong : option (list ascii) → bool * option Z * list ReadDiag :=
  safeRead LLONG_MIN LLONG_MAX.

(** A token of a seat request as [seatsToBook] holds it: not empty, and
    without a space or a comma. *)
Definition clean_token (t : list ascii) : Prop :=
  t ≠ [] ∧ Forall (λ c, isspace c = false ∧ c ≠ ","%char) t.

(** The tokens [ts] typed on one line with [sep] between them. *)
Fixpoint join (sep : list ascii) (ts : list (list ascii)) : list ascii :=
  match ts with
  | [] => []
  | [t] => t
  | t :: rest => t ++ sep ++ join sep rest
  end.

(** A separator: one comma, with spaces before and after it or none. *)
Definition separator (sep : list ascii) : Prop :=
  ∃ ws1 ws2, sep = ws1 ++ ","%char :: ws2 ∧
    Forall (λ c, isspace c = true) ws1 ∧ Forall (λ c, isspace c = true) ws2.

(** The indices of the taken seats of a vector, in ascending order. *)
Definition taken_indices (seats : list bool) : list Z :=
  filter (λ i, seats !! Z.to_nat i = Some true) (seqZ 0 TOTAL_SEATS).

(** ** Examples *)

Example label_0 : seatLabelFromIndex 0 = "A1"%string.
Proof. reflexivity. Qed.
Example label_19 : seatLabelFromIndex 19 = "A20"%string.
Proof. reflexivity. Qed.
Example index_A7 : seatIndexFromLabel "A7" = 6.
Proof. reflexivity. Qed.
Example index_A07 : seatIndexFromLabel "A07" = 6.
Proof. reflexivity. Qed.
Example index_Z9 : seatIndexFromLabel "Z9" = -1.
Proof. reflexivity. Qed.
Example index_A21 : seatIndexFromLabel "A21" = -1.
Proof. reflexivity. Qed.
Example index_A0 : seatIndexFromLabel "A0" = -1.
Proof. reflexivity. Qed.
Example index_A : seatIndexFromLabel "A" = -1.
Proof. reflexivity. Qed.
Example index_A1x : seatIndexFromLabel "A1x" = -1.
Proof. reflexivity. Qed.
Example index_A21x : seatIndexFromLabel "A21x" = -1.
Proof. reflexivity. Qed.

(** ** Seat codec: the parser *)

Section Parser.

Lemma code_0 : code "0" = 48.
Proof. reflexivity. Qed.

Lemma code_9 : code "9" = 57.
Proof. reflexivity. Qed.

Lemma is_digit_range c : is_digit c = true → 0 ≤ code c - code "0" ≤ 9.
Proof.
  unfold is_digit. rewrite code_0, code_9.
  intros [H1 H2]%andb_true_iff. lia.
Qed.

Lemma digit_loop_trace_fst s : ∀ n, fst (digit_loop_trace s n) = digit_loop s n.
Proof.
  induction s as [|c r IH]; intros n; simpl; [done|].
  destruct (is_digit c); simpl; [|done].
  destruct (_ >? _); [done|].
  specialize (IH (n * 10 + (code c - code "0"))).
  destruct (digit_loop_trace r _); simpl in *. exact IH.
Qed.

Lemma digit_loop_trace_length s :
  ∀ n, (length (snd (digit_loop_trace s n)) ≤ String.length s)%nat.
Proof.
  induction s as [|c r IH]; intros n; simpl; [done|].
  destruct (is_digit c); simpl; [|lia].
  destruct (_ >? _); simpl; [lia|].
  specialize (IH (n * 10 + (code c - code "0"))).
  destruct (digit_loop_trace r _); simpl in *. lia.
Qed.

Lemma digit_loop_trace_bound s :
  ∀ n, 0 ≤ n ≤ TOTAL_SEATS →
    Forall (λ v, 0 ≤ v ≤ ACC_MAX) (snd (digit_loop_trace s n)).
Proof.
  induction s as [|c r IH]; intros n Hn; simpl; [constructor|].
  destruct (is_digit c) eqn:Hc; simpl; [|constructor].
  apply is_digit_range in Hc.
  assert (0 ≤ n * 10 + (code c - code "0") ≤ ACC_MAX)
    by (unfold ACC_MAX, TOTAL_SEATS in *; lia).
  destruct (_ >? _) eqn:Hgt; simpl.
  - constructor; [done|constructor].
  - specialize (IH (n * 10 + (code c - code "0"))).
    destruct (digit_loop_trace r _); simpl in *.
    constructor; [done|]. apply IH. lia.
Qed.

Lemma digit_loop_trace_stops s :
  ∀ n k v, snd (digit_loop_trace s n) !! k = Some v → TOTAL_SEATS < v →
    S k = length (snd (digit_loop_trace s n)).
Proof.
  induction s as [|c r IH]; intros n k v; simpl; [done|].
  destruct (is_digit c); simpl; [|done].
  destruct (_ >? _) eqn:Hgt; simpl.
  - destruct k; simpl; [done|]. by rewrite lookup_nil.
  - specialize (IH (n * 10 + (code c - code "0"))).
    destruct (digit_loop_trace r _) as [e t]; simpl in *.
    destruct k as [|k]; simpl.
    + intros [= <-] Hv. lia.
    + intros Hk Hv. f_equal. by eapply IH.
Qed.

Lemma bounded_parse_all label : bounded_parse label.
Proof.
  unfold bounded_parse; cbv zeta. split; [apply digit_loop_trace_fst|].
  split; [apply digit_loop_trace_length|].
  split; [apply digit_loop_trace_bound; unfold TOTAL_SEATS; lia|].
  split; [by vm_compute|]. apply digit_loop_trace_stops.
Qed.

Lemma number_from_ge digits :
  ∀ acc, all_digits digits = true → 0 ≤ acc → acc ≤ number_from acc digits.
Proof.
  induction digits as [|c r IH]; intros acc; simpl; [lia|].
  intros [Hc Hr]%andb_true_iff Hacc. apply is_digit_range in Hc.
  etrans; [|apply IH]; [lia|done|lia].
Qed.

(** On a string of digits the loop ends with the number the digits encode,
    or breaks at a prefix of it that is already too large. *)
Lemma digit_loop_digits digits :
  ∀ n, all_digits digits = true → 0 ≤ n →
    digit_loop digits n = Exhausted (number_from n digits) ∨
    ∃ v, digit_loop digits n = Broke v ∧ TOTAL_SEATS < v ≤ number_from n digits.
Proof.
  induction digits as [|c r IH]; intros n; simpl; [by left|].
  intros [Hc Hr]%andb_true_iff Hn. rewrite Hc; simpl.
  apply is_digit_range in Hc.
  destruct (_ >? _) eqn:Hgt.
  - right. eexists; split; [done|]. split; [lia|].
    apply number_from_ge; [done|lia].
  - apply IH; [done|lia].
Qed.

(** With a character that is no digit, the loop never reaches the end. *)
Lemma digit_loop_non_digit s :
  ∀ n, all_digits s = false →
    digit_loop s n = Rejected ∨ ∃ v, digit_loop s n = Broke v ∧ TOTAL_SEATS < v.
Proof.
  induction s as [|c r IH]; intros n; simpl; [done|].
  destruct (is_digit c); simpl; [|by left].
  intros Hr. destruct (_ >? _) eqn:Hgt.
  - right. eexists; split; [done|lia].
  - by apply IH.
Qed.

Lemma seatIndexFromLabel_range label :
  -1 ≤ seatIndexFromLabel label < TOTAL_SEATS.
Proof.
  unfold seatIndexFromLabel, TOTAL_SEATS.
  destruct (bad_prefix label); [lia|].
  destruct (exit_num _) as [num|]; [|lia].
  destruct (_ || _) eqn:E; [lia|].
  apply orb_false_iff in E as [? ?]. lia.
Qed.

Lemma seatIndexFromLabel_outside label :
  outside_grammar label → seatIndexFromLabel label = -1.
Proof.
  unfold seatIndexFromLabel.
  intros [Hrow | [-> | [(rest & -> & Hnd) | (digits & -> & Hd & Hout)]]].
  - destruct label as [|c [|c' r]]; simpl; try done.
    destruct (Ascii.eqb_spec c SEAT_ROW) as [->|]; simpl; [|done].
    by destruct (Hrow (String c' r)).
  - done.
  - destruct rest as [|c r]; [done|]. cbn [bad_prefix suffix].
    rewrite Ascii.eqb_refl. cbn [negb].
    destruct (digit_loop_non_digit (String c r) 0 Hnd) as [-> | (v & -> & Hv)];
      simpl; [done|].
    replace (v >? TOTAL_SEATS) with true by lia. by rewrite orb_true_r.
  - destruct digits as [|c r]; [done|]. cbn [bad_prefix suffix].
    rewrite Ascii.eqb_refl. cbn [negb].
    destruct (digit_loop_digits (String c r) 0 Hd) as [-> | (v & -> & Hv)];
      [lia| |]; cbn [exit_num].
    + fold (number_of (String c r)).
      destruct (_ || _) eqn:E; [done|].
      apply orb_false_iff in E as [? ?]. lia.
    + replace (v >? TOTAL_SEATS) with true by lia. by rewrite orb_true_r.
Qed.

(** Inside the grammar the parser returns the number, less one. *)
Lemma seatIndexFromLabel_inside digits :
  digits ≠ EmptyString → all_digits digits = true →
  1 ≤ number_of digits ≤ TOTAL_SEATS →
  seatIndexFromLabel (String SEAT_ROW digits) = number_of digits - 1.
Proof.
  intros Hne Hd Hin. unfold seatIndexFromLabel.
  destruct digits as [|c r]; [done|]. cbn [bad_prefix suffix].
  rewrite Ascii.eqb_refl. cbn [negb].
  destruct (digit_loop_digits (String c r) 0 Hd) as [-> | (v & -> & Hv)];
    [lia| |]; cbn [exit_num]; fold (number_of (String c r)) in *.
  - replace (_ || _) with false; [done|].
    symmetry. apply orb_false_iff. lia.
  - lia.
Qed.

Lemma outside_grammar_iff label : outside_grammar label ↔ ¬ in_grammar label.
Proof.
  split.
  - intros Hout (digits & -> & Hne & Hd & Hin).
    destruct Hout as [Hrow | [[= ->] | [(rest & [= <-] & Hnd) | (d & [= <-] & _ & Hn)]]].
    + by apply (Hrow digits).
    + done.
    + congruence.
    + done.
  - intros Hnot. unfold outside_grammar.
    destruct label as [|c rest].
    { left. by intros rest. }
    destruct (Ascii.eqb_spec c SEAT_ROW) as [->|Hc].
    2: { left. intros r [= ? ?]. done. }
    right. destruct rest as [|c' r]; [by left|]. right.
    destruct (all_digits (String c' r)) eqn:Hd.
    + right. eexists; split_and!; [done..|].
      intros [? ?]. apply Hnot. exists (String c' r). by split_and!.
    + left. by eexists.
Qed.

End Parser.

(** ** Seat codec: labels *)

Section Labels.

Lemma round_trip_checked :
  forallb (λ i, seatIndexFromLabel (seatLabelFromIndex i) =? i)
    (seqZ 0 TOTAL_SEATS) = true.
Proof. by vm_compute. Qed.

Lemma seatIndexFromLabel_seatLabelFromIndex i :
  0 ≤ i < TOTAL_SEATS → seatIndexFromLabel (seatLabelFromIndex i) = i.
Proof.
  intros Hi. pose proof round_trip_checked as H.
  rewrite forallb_forall in H. apply Z.eqb_eq, H, list_elem_of_In, elem_of_seqZ.
  lia.
Qed.

Lemma seatLabelFromIndex_inj i j :
  0 ≤ i < TOTAL_SEATS → 0 ≤ j < TOTAL_SEATS →
  seatLabelFromIndex i = seatLabelFromIndex j → i = j.
Proof.
  intros Hi Hj Heq.
  apply seatIndexFromLabel_seatLabelFromIndex in Hi, Hj. congruence.
Qed.

Lemma seatLabelFromIndex_NoDup (idxs : list Z) :
  NoDup idxs → Forall (λ i, 0 ≤ i < TOTAL_SEATS) idxs →
  NoDup (seatLabelFromIndex <$> idxs).
Proof.
  intros Hnd Hall. apply NoDup_alt. intros a b x.
  rewrite !list_lookup_fmap.
  destruct (idxs !! a) as [i|] eqn:Ha; [|done].
  destruct (idxs !! b) as [j|] eqn:Hb; [|done].
  change (Some (seatLabelFromIndex i) = Some x →
          Some (seatLabelFromIndex j) = Some x → a = b).
  intros Hi Hj.
  assert (i = j) as ->.
  { rewrite Forall_forall in Hall.
    apply seatLabelFromIndex_inj; [| |congruence]; apply Hall;
      by eapply list_elem_of_lookup_2. }
  by eapply NoDup_lookup.
Qed.

End Labels.

(** ** Seat vectors *)

Section SeatVector.

Implicit Types (seats : list bool) (tmp : list Z) (labels : list string).

Lemma count_free_nil : count_free [] = 0.
Proof. done. Qed.

Lemma count_free_cons b seats :
  count_free (b :: seats) = (if b then 0 else 1) + count_free seats.
Proof.
  unfold count_free. rewrite filter_cons.
  destruct b; case_decide; try done; simpl; lia.
Qed.

Lemma count_free_replicate n : count_free (replicate n false) = Z.of_nat n.
Proof.
  induction n as [|n IH]; [done|].
  change (replicate (S n) false) with (false :: replicate n false).
  rewrite count_free_cons, IH. lia.
Qed.

(** Taking a free seat leaves one free seat fewer. *)
Lemma count_free_take_seat seats i :
  seats !! i = Some false →
  count_free (<[i := true]> seats) = count_free seats - 1.
Proof.
  revert i. induction seats as [|b seats IH]; intros [|i]; simpl; try done.
  - intros [= ->]. rewrite !count_free_cons. lia.
  - intros Hi. rewrite !count_free_cons, IH by done. lia.
Qed.

(** ** The scan of [getAvailableSeats] *)

Lemma scan_seats_spec seats idxs :
  ∀ available,
    Forall (λ i, Z.to_nat i < length seats)%nat idxs →
    scan_seats seats idxs available =
      Some (available ++
            (seatLabelFromIndex <$>
               filter (λ i, seats !! Z.to_nat i = Some false) idxs)).
Proof.
  induction idxs as [|i idxs IH]; intros available Hall; simpl.
  { by rewrite app_nil_r. }
  apply Forall_cons in Hall as [Hi Hall].
  apply lookup_lt_is_Some in Hi as [b Hb]. rewrite Hb, filter_cons.
  destruct b; case_decide; try congruence; rewrite IH by done; [done|].
  by rewrite <-app_assoc.
Qed.

Lemma scan_all_seats seats :
  Z.of_nat (length seats) = TOTAL_SEATS →
  scan_seats seats (seqZ 0 TOTAL_SEATS) [] =
    Some (seatLabelFromIndex <$> free_indices seats).
Proof.
  intros Hlen. rewrite scan_seats_spec; [done|].
  apply Forall_forall. intros i Hi%elem_of_seqZ. lia.
Qed.

Lemma elem_of_free_indices seats i :
  i ∈ free_indices seats ↔
  0 ≤ i < TOTAL_SEATS ∧ seats !! Z.to_nat i = Some false.
Proof.
  unfold free_indices. rewrite list_elem_of_filter, elem_of_seqZ.
  unfold TOTAL_SEATS. intuition lia.
Qed.

Lemma free_indices_range seats :
  Forall (λ i, 0 ≤ i < TOTAL_SEATS) (free_indices seats).
Proof. apply Forall_forall. by intros i [? _]%elem_of_free_indices. Qed.

Lemma seqZ_sorted m n : StronglySorted Z.lt (seqZ m n).
Proof.
  destruct (decide (0 ≤ n)) as [Hn|Hn].
  2: { rewrite seqZ_nil by lia. constructor. }
  rewrite <-(Z2Nat.id n Hn). clear Hn.
  induction (Z.to_nat n) as [|k IH]; [constructor|].
  rewrite seqZ_S. apply StronglySorted_app. split_and!; [|done|].
  - intros x y Hx%elem_of_seqZ Hy%list_elem_of_singleton. lia.
  - repeat constructor.
Qed.

Lemma filter_sorted {A} (R : relation A) (P : A → Prop)
    `{∀ x, Decision (P x)} (l : list A) :
  StronglySorted R l → StronglySorted R (filter P l).
Proof.
  induction 1 as [|a l Hl IH Ha]; [constructor|].
  rewrite filter_cons. case_decide; [|done].
  constructor; [done|]. rewrite Forall_forall in Ha |- *.
  intros x [_ Hx]%list_elem_of_filter. by apply Ha.
Qed.

Lemma free_indices_sorted seats : StronglySorted Z.lt (free_indices seats).
Proof. apply filter_sorted, seqZ_sorted. Qed.

Lemma free_indices_NoDup seats : NoDup (free_indices seats).
Proof. apply NoDup_filter, NoDup_seqZ. Qed.

End SeatVector.

(** ** The two loops of [bookSeats] *)

Section Booking.

Implicit Types (seats : list bool) (tmp : list Z) (labels : list string).

Lemma seen_agrees_empty : seen_agrees 0 [].
Proof.
  intros i _. rewrite Z.testbit_0_l, elem_of_nil. intuition congruence.
Qed.

Lemma seen_agrees_snoc seen tmp idx :
  seen_agrees seen tmp → 0 ≤ idx →
  seen_agrees (Z.setbit seen idx) (tmp ++ [idx]).
Proof.
  intros Hs Hidx i Hi.
  rewrite Z.setbit_eqb, orb_true_iff, Z.eqb_eq, (Hs i Hi) by done.
  rewrite elem_of_app, list_elem_of_singleton. intuition congruence.
Qed.

(** No more distinct seat indices than seats: the array [tmpIndices] is
    large enough. *)
Lemma distinct_indices_fit tmp :
  NoDup tmp → Forall (λ i, 0 ≤ i < TOTAL_SEATS) tmp →
  Z.of_nat (length tmp) ≤ TOTAL_SEATS.
Proof.
  intros Hnd Hall.
  assert (tmp ⊆+ seqZ 0 TOTAL_SEATS) as Hsub.
  { apply NoDup_submseteq; [done|]. rewrite Forall_forall in Hall.
    intros i Hi%Hall. apply elem_of_seqZ. lia. }
  apply submseteq_length in Hsub. rewrite length_seqZ in Hsub.
  unfold TOTAL_SEATS in *. lia.
Qed.

(** An accepted request: the indices are the decoded labels, in order, and
    every label named a free seat. *)
Lemma validate_accepted seats labels :
  ∀ seen tmp out,
    seen_agrees seen tmp →
    validate seats seen tmp labels = Accepted out →
    out = tmp ++ (seatIndexFromLabel <$> labels) ∧
    Forall (λ l, 0 ≤ seatIndexFromLabel l ∧
                 seats !! Z.to_nat (seatIndexFromLabel l) = Some false) labels ∧
    (NoDup tmp → NoDup out).
Proof.
  induction labels as [|l labels IH]; intros seen tmp out Hs; simpl.
  { intros [= <-]. by rewrite app_nil_r. }
  destruct (_ <? 0) eqn:Hneg; [done|].
  destruct (Z.testbit _ _) eqn:Hbit; [done|].
  destruct (seats !! _) as [[|]|] eqn:Hseat; try done.
  destruct (_ <=? _); [done|].
  assert (0 ≤ seatIndexFromLabel l) as Hidx by lia.
  intros (-> & Hall & Hnd)%IH; [|by apply seen_agrees_snoc].
  split_and!.
  - by rewrite <-app_assoc.
  - by constructor.
  - intros Htmp. apply Hnd, NoDup_app. split_and!; [done| |apply NoDup_singleton].
    intros i Hi ->%list_elem_of_singleton.
    apply (Hs _ Hidx) in Hi. congruence.
Qed.

(** A refused request: the diagnostic names the first label that is
    malformed, decodes to an index met before, or names a taken seat. *)
Lemma validate_refused seats labels :
  ∀ seen tmp d,
    seen_agrees seen tmp →
    validate seats seen tmp labels = Refused d →
    ∃ pre l post, labels = pre ++ l :: post ∧
      (d = InvalidSeat l ∧ seatIndexFromLabel l < 0
       ∨ d = DuplicateSeat l ∧ 0 ≤ seatIndexFromLabel l ∧
         seatIndexFromLabel l ∈ tmp ++ (seatIndexFromLabel <$> pre)
       ∨ d = SeatAlreadyBooked l ∧ 0 ≤ seatIndexFromLabel l ∧
         seats !! Z.to_nat (seatIndexFromLabel l) = Some true).
Proof.
  induction labels as [|l labels IH]; intros seen tmp d Hs; simpl; [done|].
  destruct (_ <? 0) eqn:Hneg.
  { intros [= <-]. exists [], l, labels. split; [done|]. left. split; [done|lia]. }
  assert (0 ≤ seatIndexFromLabel l) as Hidx by lia.
  destruct (Z.testbit _ _) eqn:Hbit.
  { intros [= <-]. exists [], l, labels. split; [done|]. right; left.
    split_and!; [done..|]. rewrite app_nil_r. by apply Hs. }
  destruct (seats !! _) as [[|]|] eqn:Hseat; try done.
  { intros [= <-]. exists [], l, labels. split; [done|]. right; right. done. }
  destruct (_ <=? _); [done|].
  intros (pre & l' & post & -> & Hd)%IH; [|by apply seen_agrees_snoc].
  exists (l :: pre), l', post. split; [done|].
  rewrite <-app_assoc in Hd. exact Hd.
Qed.

(** The first loop stays inside the seat vector and inside [tmpIndices]. *)
Lemma validate_in_bounds seats labels :
  Z.of_nat (length seats) = TOTAL_SEATS →
  ∀ seen tmp,
    seen_agrees seen tmp → NoDup tmp →
    Forall (λ i, 0 ≤ i < TOTAL_SEATS) tmp →
    validate seats seen tmp labels ≠ OutOfBounds.
Proof.
  intros Hlen.
  induction labels as [|l labels IH]; intros seen tmp Hs Hnd Hall; simpl; [done|].
  pose proof (seatIndexFromLabel_range l) as Hrange.
  destruct (_ <? 0) eqn:Hneg; [done|].
  assert (0 ≤ seatIndexFromLabel l) as Hidx by lia.
  destruct (Z.testbit _ _) eqn:Hbit; [done|].
  assert (NoDup (tmp ++ [seatIndexFromLabel l])) as Hnd'.
  { apply NoDup_app. split_and!; [done| |apply NoDup_singleton].
    intros i Hi ->%list_elem_of_singleton.
    apply (Hs _ Hidx) in Hi. congruence. }
  assert (Forall (λ i, 0 ≤ i < TOTAL_SEATS) (tmp ++ [seatIndexFromLabel l]))
    as Hall'.
  { apply Forall_app. split; [done|]. constructor; [lia|constructor]. }
  destruct (seats !! _) as [[|]|] eqn:Hseat; [done| |].
  - pose proof (distinct_indices_fit _ Hnd' Hall') as Hfit.
    rewrite length_app in Hfit. simpl in Hfit.
    destruct (_ <=? _) eqn:Hfull; [lia|].
    apply IH; [by apply seen_agrees_snoc|done..].
  - apply lookup_ge_None in Hseat. lia.
Qed.

Lemma validate_request_in_bounds seats labels :
  Z.of_nat (length seats) = TOTAL_SEATS →
  validate seats 0 [] labels ≠ OutOfBounds.
Proof.
  intros Hlen.
  apply validate_in_bounds; [done|apply seen_agrees_empty|constructor..].
Qed.

(** A whole request, from the empty bitset: it is accepted exactly when
    every label names a free seat and no index comes twice. *)
Lemma validate_request seats labels :
  Z.of_nat (length seats) = TOTAL_SEATS →
  Forall (λ l, 0 ≤ seatIndexFromLabel l ∧
               seats !! Z.to_nat (seatIndexFromLabel l) = Some false) labels →
  NoDup (seatIndexFromLabel <$> labels) →
  validate seats 0 [] labels = Accepted (seatIndexFromLabel <$> labels).
Proof.
  intros Hlen Hfree Hnd.
  destruct (validate seats 0 [] labels) as [d|out|] eqn:Hv.
  - apply validate_refused in Hv as (pre & l & post & -> & Hd);
      [|apply seen_agrees_empty].
    apply Forall_app in Hfree as [_ [[Hl Hseat] _]%Forall_cons].
    destruct Hd as [[_ ?] | [(_ & _ & Hin) | (_ & _ & ?)]];
      [lia| |congruence].
    rewrite fmap_app, fmap_cons in Hnd.
    apply NoDup_app in Hnd as (_ & Hnd & _).
    destruct (Hnd _ Hin). left.
  - by apply validate_accepted in Hv as (-> & _); [|apply seen_agrees_empty].
  - by apply validate_request_in_bounds in Hv.
Qed.

Lemma validate_request_bad seats labels :
  Z.of_nat (length seats) = TOTAL_SEATS →
  ¬ (Forall (λ l, 0 ≤ seatIndexFromLabel l ∧
                  seats !! Z.to_nat (seatIndexFromLabel l) = Some false) labels
     ∧ NoDup (seatIndexFromLabel <$> labels)) →
  ∃ d, validate seats 0 [] labels = Refused d.
Proof.
  intros Hlen Hbad.
  destruct (validate seats 0 [] labels) as [d|out|] eqn:Hv.
  - by exists d.
  - apply validate_accepted in Hv as (-> & Hfree & Hnd);
      [|apply seen_agrees_empty].
    destruct Hbad. split; [done|]. apply Hnd. constructor.
  - by apply validate_request_in_bounds in Hv.
Qed.

End Booking.

Section Commit.

Implicit Types (seats : list bool) (tmp : list Z).

Lemma commit_count tmp :
  ∀ seats c, (commit tmp seats c).2 = c - Z.of_nat (length tmp).
Proof.
  induction tmp as [|idx tmp IH]; intros seats c; simpl; [lia|].
  rewrite IH. lia.
Qed.

Lemma commit_length tmp :
  ∀ seats c, length (commit tmp seats c).1 = length seats.
Proof.
  induction tmp as [|idx tmp IH]; intros seats c; simpl; [done|].
  by rewrite IH, length_insert.
Qed.

(** A seat that is taken stays taken. *)
Lemma commit_keeps_taken tmp :
  ∀ seats c i, seats !! i = Some true → (commit tmp seats c).1 !! i = Some true.
Proof.
  induction tmp as [|idx tmp IH]; intros seats c i Hi; simpl; [done|].
  apply IH. rewrite list_lookup_insert. by case_decide.
Qed.

(** The seats of the request are taken afterwards. *)
Lemma commit_takes tmp :
  ∀ seats c idx,
    idx ∈ tmp → (Z.to_nat idx < length seats)%nat →
    (commit tmp seats c).1 !! Z.to_nat idx = Some true.
Proof.
  induction tmp as [|idx' tmp IH]; intros seats c idx Hin Hlt; simpl.
  { by apply elem_of_nil in Hin. }
  apply elem_of_cons in Hin as [<- | Hin].
  - apply commit_keeps_taken. by apply list_lookup_insert_eq.
  - apply IH; [done|]. by rewrite length_insert.
Qed.

(** The other seats are as before. *)
Lemma commit_other tmp :
  ∀ seats c i,
    (∀ idx, idx ∈ tmp → Z.to_nat idx ≠ i) →
    (commit tmp seats c).1 !! i = seats !! i.
Proof.
  induction tmp as [|idx tmp IH]; intros seats c i Hout; simpl; [done|].
  rewrite IH.
  - apply list_lookup_insert_ne, Hout. left.
  - intros idx' Hin. apply Hout. by right.
Qed.

(** Taking [length tmp] distinct free seats leaves that many fewer. *)
Lemma commit_count_free tmp :
  ∀ seats c,
    NoDup tmp →
    Forall (λ idx, 0 ≤ idx ∧ seats !! Z.to_nat idx = Some false) tmp →
    count_free (commit tmp seats c).1 = count_free seats - Z.of_nat (length tmp).
Proof.
  induction tmp as [|idx tmp IH]; intros seats c Hnd Hfree; simpl; [lia|].
  apply NoDup_cons in Hnd as [Hnotin Hnd].
  apply Forall_cons in Hfree as [[Hidx Hseat] Hfree].
  rewrite IH; [rewrite count_free_take_seat by done; lia|done|].
  rewrite Forall_forall in Hfree |- *. intros idx' Hin.
  destruct (Hfree _ Hin) as [Hidx' Hseat']. split; [done|].
  rewrite list_lookup_insert_ne; [done|].
  intros Heq%Z2Nat.inj; [|done..]. congruence.
Qed.

End Commit.

(** ** The reservation engine on a service *)

Section Engine.

Implicit Types (st : BookingService) (s : Show) (labels : list string).

Lemma bookSeats_unknown st showId labels :
  shows_ st !! showId = None →
  bookSeats showId labels st = Ret (mkOut false [] st).
Proof. unfold bookSeats. by intros ->. Qed.

Lemma bookSeats_accepted st showId s labels idxs :
  shows_ st !! showId = Some s →
  validate (seats s) 0 [] labels = Accepted idxs →
  bookSeats showId labels st =
    Ret (mkOut true [] (set_show showId (booked s idxs) st)).
Proof.
  unfold bookSeats, booked. intros -> ->.
  by destruct (commit idxs (seats s) (availableCount s)).
Qed.

Lemma bookSeats_refused st showId s labels d :
  shows_ st !! showId = Some s →
  validate (seats s) 0 [] labels = Refused d →
  bookSeats showId labels st = Ret (mkOut false [d] st).
Proof. unfold bookSeats. by intros -> ->. Qed.

(** On a show that satisfies the invariant, [bookSeats] returns. *)
Lemma bookSeats_returns st showId s labels :
  shows_ st !! showId = Some s → show_ok s →
  (∃ d, bookSeats showId labels st = Ret (mkOut false [d] st)) ∨
  (∃ idxs, validate (seats s) 0 [] labels = Accepted idxs ∧
     bookSeats showId labels st =
       Ret (mkOut true [] (set_show showId (booked s idxs) st))).
Proof.
  intros Hs [Hlen _].
  destruct (validate (seats s) 0 [] labels) as [d|idxs|] eqn:Hv.
  - left. exists d. by eapply bookSeats_refused.
  - right. exists idxs. split; [done|]. by eapply bookSeats_accepted.
  - by apply validate_request_in_bounds in Hv.
Qed.

Lemma booked_ok s labels idxs :
  show_ok s → validate (seats s) 0 [] labels = Accepted idxs →
  show_ok (booked s idxs).
Proof.
  intros [Hlen Hcount] Hv.
  apply validate_accepted in Hv as (-> & Hfree & Hnd);
    [|apply seen_agrees_empty].
  specialize (Hnd (NoDup_nil_2 (A:=Z))). rewrite app_nil_l in *.
  split; simpl.
  - by rewrite commit_length.
  - rewrite commit_count, commit_count_free, Hcount; [done..|].
    by apply Forall_fmap.
Qed.

Lemma getAvailableSeats_unknown st showId :
  shows_ st !! showId = None →
  getAvailableSeats showId st = Throw (invalid_argument "Invalid show ID").
Proof. unfold getAvailableSeats. by intros ->. Qed.

Lemma count_free_nonneg (seats : list bool) : 0 ≤ count_free seats.
Proof. unfold count_free. lia. Qed.

Lemma getAvailableSeats_ok st showId s :
  shows_ st !! showId = Some s → show_ok s →
  getAvailableSeats showId st =
    Ret (seatLabelFromIndex <$> free_indices (seats s)).
Proof.
  unfold getAvailableSeats. intros -> [Hlen Hcount].
  pose proof (count_free_nonneg (seats s)).
  replace (_ <? 0) with false by lia.
  by rewrite scan_all_seats.
Qed.

Lemma new_show_ok m t : show_ok (new_show m t).
Proof.
  unfold show_ok, new_show. cbn [seats availableCount].
  by rewrite length_replicate, count_free_replicate.
Qed.

Lemma lookup_emplace {V} (k k' : Z) (v : V) (m : gmap Z V) :
  emplace k v m !! k' =
    match m !! k' with
    | Some v' => Some v'
    | None => if decide (k = k') then Some v else None
    end.
Proof.
  unfold emplace. destruct (m !! k) as [v0|] eqn:Hk.
  - destruct (m !! k') eqn:Hk'; [done|]. case_decide; congruence.
  - rewrite lookup_insert. case_decide as Heq.
    + subst. by rewrite Hk.
    + by destruct (m !! k').
Qed.

End Engine.

(** ** The invariant of the seat inventory *)

Section Inventory.

Implicit Types (st : BookingService) (s : Show) (c : Call).

Lemma shows_ok_empty : shows_ok empty_service.
Proof. intros showId s. cbn [empty_service shows_]. by rewrite lookup_empty. Qed.

Lemma addMovie_shows title st : shows_ (post (addMovie title st)) = shows_ st.
Proof. unfold addMovie. by destruct (_ !! _). Qed.

Lemma addTheater_shows name st : shows_ (post (addTheater name st)) = shows_ st.
Proof. unfold addTheater. by destruct (_ !! _). Qed.

(** [createShow] leaves the shows as they are or files one new show. *)
Lemma createShow_shows m t st showId s :
  shows_ (post (createShow m t st)) !! showId = Some s →
  shows_ st !! showId = Some s ∨
  shows_ st !! showId = None ∧ s = new_show m t.
Proof.
  unfold createShow.
  destruct (movies_ st !! m); [|by left].
  destruct (theaters_ st !! t); [|by left].
  destruct (showLookup_ st !! (m, t)); [by left|].
  cbn [post shows_]. rewrite lookup_emplace.
  destruct (shows_ st !! showId); [by left|].
  case_decide; [|done]. intros [= <-]. by right.
Qed.

Lemma step_shows_ok c st :
  shows_ok st → ∃ st', step c st = Some st' ∧ shows_ok st'.
Proof.
  intros Hok. destruct c as [title|name|m t|showId|showId labels]; simpl.
  - eexists; split; [done|]. intros i s. rewrite addMovie_shows. apply Hok.
  - eexists; split; [done|]. intros i s. rewrite addTheater_shows. apply Hok.
  - eexists; split; [done|]. intros i s [Hs | [_ ->]]%createShow_shows.
    + by eapply Hok.
    + apply new_show_ok.
  - exists st. split; [|done].
    destruct (shows_ st !! showId) as [s|] eqn:Hs.
    + by erewrite getAvailableSeats_ok; [|done|eapply Hok].
    + by rewrite getAvailableSeats_unknown.
  - destruct (shows_ st !! showId) as [s|] eqn:Hs.
    2: { rewrite bookSeats_unknown by done. by exists st. }
    destruct (bookSeats_returns st showId s labels Hs) as
      [[d ->] | (idxs & Hv & ->)]; [by eapply Hok|by exists st|].
    eexists; split; [done|]. intros i s'. cbn [post set_show shows_].
    rewrite lookup_insert. case_decide.
    + intros [= <-]. eapply booked_ok; [by eapply Hok|done].
    + apply Hok.
Qed.

Lemma run_shows_ok calls :
  ∀ st, shows_ok st → ∃ st', run calls st = Some st' ∧ shows_ok st'.
Proof.
  induction calls as [|c calls IH]; intros st Hok; simpl.
  { by exists st. }
  destruct (step_shows_ok c st Hok) as (st1 & -> & Hok1). by apply IH.
Qed.

Lemma reachable_shows_ok st : reachable st → shows_ok st.
Proof.
  intros [calls Hrun].
  destruct (run_shows_ok calls _ shows_ok_empty) as (st' & Hrun' & Hok).
  rewrite Hrun in Hrun'. by injection Hrun' as ->.
Qed.

End Inventory.

(** ** The catalog and its indexes *)

Section Catalog.

Implicit Types (st : BookingService) (s : Show) (c : Call).

Lemma incr_llong_small n : 0 ≤ n < LLONG_MAX → incr_llong n = n + 1.
Proof.
  unfold incr_llong, wrap, LLONG_MAX. intros Hn.
  rewrite Z.mod_small; lia.
Qed.

Lemma createShow_fresh_pair m t st mv th :
  movies_ st !! m = Some mv → theaters_ st !! t = Some th →
  showLookup_ st !! (m, t) = None →
  createShow m t st =
    mkOut (incr_llong (showCounter_ st)) [] {|
      movies_ := movies_ st;
      theaters_ := theaters_ st;
      shows_ := emplace (incr_llong (showCounter_ st)) (new_show m t) (shows_ st);
      movieNameToId_ := movieNameToId_ st;
      theaterNameToId_ := theaterNameToId_ st;
      showLookup_ := <[(m, t) := incr_llong (showCounter_ st)]> (showLookup_ st);
      activeMovies_ := {[m]} ∪ activeMovies_ st;
      movieToTheaters_ := add_theater_of m t (movieToTheaters_ st);
      movieCounter_ := movieCounter_ st;
      theaterCounter_ := theaterCounter_ st;
      showCounter_ := incr_llong (showCounter_ st)
    |}.
Proof. unfold createShow. by intros -> -> ->. Qed.

(** [createShow] either fails and changes nothing, or runs to its end. *)
Lemma createShow_cases m t st :
  (ret (createShow m t st) = -1 ∧ post (createShow m t st) = st ∧
   (movies_ st !! m = None ∨ theaters_ st !! t = None ∨
    is_Some (showLookup_ st !! (m, t)))) ∨
  (∃ mv th, movies_ st !! m = Some mv ∧ theaters_ st !! t = Some th ∧
     showLookup_ st !! (m, t) = None).
Proof.
  unfold createShow.
  destruct (movies_ st !! m) as [mv|]; [|left; eauto].
  destruct (theaters_ st !! t) as [th|]; [|left; eauto].
  destruct (showLookup_ st !! (m, t)) as [i|] eqn:Hl; [left; eauto 6|].
  right. eauto.
Qed.

(** What a booking leaves behind: the service itself or one show booked. *)
Lemma bookSeats_post showId labels st o :
  bookSeats showId labels st = Ret o →
  post o = st ∨
  ∃ s idxs, shows_ st !! showId = Some s ∧
    ret o = true ∧ post o = set_show showId (booked s idxs) st.
Proof.
  unfold bookSeats. destruct (shows_ st !! showId) as [s|] eqn:Hs.
  2: { intros [= <-]. by left. }
  destruct (validate _ _ _ _) as [d|idxs|]; [|  |done].
  - intros [= <-]. by left.
  - destruct (commit _ _ _) as [seats' count'] eqn:Hc. intros [= <-]. right.
    exists s, idxs. unfold booked. by rewrite Hc.
Qed.

(** On every path the service after a call is the one before, but for the
    fields the call is about. *)
Lemma step_frame c st st' :
  step c st = Some st' →
  (showLookup_ st' = showLookup_ st ∧ showCounter_ st' = showCounter_ st ∧
   ∀ showId, match shows_ st' !! showId with
             | Some s' => ∃ s, shows_ st !! showId = Some s ∧
                               movieId s' = movieId s ∧ theaterId s' = theaterId s
             | None => shows_ st !! showId = None
             end) ∨
  (∃ m t mv th, c = CallCreateShow m t ∧ movies_ st !! m = Some mv ∧
     theaters_ st !! t = Some th ∧ showLookup_ st !! (m, t) = None).
Proof.
  assert (∀ showId,
    match shows_ st !! showId with
    | Some s' => ∃ s, shows_ st !! showId = Some s ∧
                      movieId s' = movieId s ∧ theaterId s' = theaterId s
    | None => shows_ st !! showId = None
    end) as Hsame.
  { intros showId. destruct (shows_ st !! showId); eauto. }
  destruct c as [title|name|m t|showId|showId labels]; simpl.
  - intros [= <-]. left. unfold addMovie. by destruct (_ !! _).
  - intros [= <-]. left. unfold addTheater. by destruct (_ !! _).
  - intros [= <-].
    destruct (createShow_cases m t st) as [(_ & -> & _) | (mv & th & ?)].
    + by left.
    + right. by exists m, t, mv, th.
  - destruct (getAvailableSeats _ _); intros [= <-]; by left.
  - destruct (bookSeats _ _ _) as [o| |] eqn:Hb; [|done..].
    intros [= <-]. left.
    apply bookSeats_post in Hb as [-> | (s & idxs & Hs & _ & ->)]; [done|].
    split_and!; [done..|]. intros i. cbn [set_show shows_].
    rewrite lookup_insert. case_decide as Hi; [|apply Hsame].
    subst. by exists s.
Qed.

Lemma step_lookup_covers c st st' :
  lookup_covers st → step c st = Some st' → lookup_covers st'.
Proof.
  intros Hcov Hstep.
  destruct (step_frame _ _ _ Hstep) as
    [(Hl & _ & Hshows) | (m & t & mv & th & -> & Hm & Ht & Hnew)].
  - intros i s' Hs'. specialize (Hshows i). rewrite Hs' in Hshows.
    destruct Hshows as (s & Hs & -> & ->). rewrite Hl. by apply Hcov.
  - simpl in Hstep. injection Hstep as <-.
    rewrite (createShow_fresh_pair _ _ _ _ _ Hm Ht Hnew). cbn [post].
    intros i s'. cbn [shows_ showLookup_]. rewrite lookup_emplace.
    destruct (shows_ st !! i) as [s|] eqn:Hs.
    + intros [= <-]. rewrite lookup_insert_ne; [by apply Hcov|].
      intros Heq. apply Hcov in Hs. congruence.
    + case_decide; [|done]. intros [= <-]. subst i. apply lookup_insert_eq.
Qed.

Lemma run_lookup_covers calls :
  ∀ st st', lookup_covers st → run calls st = Some st' → lookup_covers st'.
Proof.
  induction calls as [|c calls IH]; intros st st' Hcov; simpl.
  { by intros [= <-]. }
  destruct (step c st) as [st1|] eqn:Hstep; [|done].
  apply IH. by eapply step_lookup_covers.
Qed.

Lemma reachable_lookup_covers st : reachable st → lookup_covers st.
Proof.
  intros [calls Hrun]. eapply run_lookup_covers; [|done].
  intros i s. cbn [empty_service shows_]. by rewrite lookup_empty.
Qed.

Lemma catalog_ok_empty : catalog_ok empty_service.
Proof.
  split_and!; cbn [empty_service showCounter_ shows_ showLookup_]; [done|..].
  - intros i. rewrite lookup_empty. by intros [? ?].
  - intros m t i. by rewrite lookup_empty.
Qed.

Lemma step_catalog_ok c st st' :
  catalog_ok st → showCounter_ st < LLONG_MAX → step c st = Some st' →
  catalog_ok st' ∧ showCounter_ st' ≤ showCounter_ st + 1.
Proof.
  intros (Hc & Hids & Hfiled) Hmax Hstep.
  destruct (step_frame _ _ _ Hstep) as
    [(Hl & Hcnt & Hshows) | (m & t & mv & th & -> & Hm & Ht & Hnew)].
  - split; [|lia]. unfold catalog_ok. rewrite Hl, Hcnt. split_and!; [done|..].
    + intros i [s' Hs']. specialize (Hshows i). rewrite Hs' in Hshows.
      destruct Hshows as (s & Hs & _). apply Hids. by exists s.
    + intros m t i (s & Hs & Hm & Ht)%Hfiled. specialize (Hshows i).
      destruct (shows_ st' !! i) as [s'|].
      * destruct Hshows as (s0 & Hs0 & Hm' & Ht'). exists s'.
        split; [done|]. unfold show_for in *. by simplify_eq.
      * congruence.
  - simpl in Hstep. injection Hstep as <-.
    rewrite (createShow_fresh_pair _ _ _ _ _ Hm Ht Hnew). cbn [post].
    rewrite incr_llong_small by lia.
    assert (shows_ st !! (showCounter_ st + 1) = None) as Hfresh.
    { destruct (shows_ st !! _) eqn:Hs; [|done].
      assert (1 ≤ showCounter_ st + 1 ≤ showCounter_ st) by (by apply Hids).
      lia. }
    unfold catalog_ok. cbn [showCounter_ shows_ showLookup_].
    split; [|lia]. split_and!; [lia|..].
    + intros i. rewrite lookup_emplace.
      destruct (shows_ st !! i) eqn:Hs.
      * intros _. assert (1 ≤ i ≤ showCounter_ st) by (by apply Hids). lia.
      * case_decide; [subst; lia|by intros [? ?]].
    + intros m' t' i. rewrite lookup_insert. case_decide as Hkey.
      * injection Hkey as <- <-. intros [= <-]. exists (new_show m t).
        split; [|done]. by rewrite lookup_emplace, Hfresh, decide_True.
      * intros (s & Hs & Hsf)%Hfiled. exists s. split; [|done].
        by rewrite lookup_emplace, Hs.
Qed.

Lemma run_catalog_ok calls :
  ∀ st st',
    catalog_ok st →
    showCounter_ st + Z.of_nat (length calls) ≤ LLONG_MAX →
    run calls st = Some st' →
    catalog_ok st' ∧ showCounter_ st' ≤ showCounter_ st + Z.of_nat (length calls).
Proof.
  induction calls as [|c calls IH]; intros st st' Hok Hmax; simpl.
  { intros [= <-]. split; [done|lia]. }
  destruct (step c st) as [st1|] eqn:Hstep; [|done].
  simpl length in Hmax. intros Hrun.
  destruct (step_catalog_ok _ _ _ Hok ltac:(lia) Hstep) as [Hok1 Hcnt1].
  destruct (IH st1 st' Hok1 ltac:(lia) Hrun) as [Hok' Hcnt']. split; [done|lia].
Qed.

(** A service built by fewer calls than a [long long] counts. *)
Lemma built_catalog_ok calls st :
  run calls empty_service = Some st →
  Z.of_nat (length calls) < LLONG_MAX →
  catalog_ok st ∧ showCounter_ st < LLONG_MAX.
Proof.
  intros Hrun Hlen.
  destruct (run_catalog_ok calls _ _ catalog_ok_empty ltac:(simpl; lia) Hrun)
    as [Hok Hcnt].
  split; [done|]. simpl in Hcnt. lia.
Qed.

End Catalog.

Section Counting.

Lemma free_indices_length_from (seats : list bool) :
  ∀ pre : list bool,
    length (filter (λ i, (pre ++ seats) !! Z.to_nat i = Some false)
              (seqZ (Z.of_nat (length pre)) (Z.of_nat (length seats)))) =
    length (filter (λ b, b = false) seats).
Proof.
  induction seats as [|b seats IH]; intros pre; [done|].
  rewrite seqZ_cons by (simpl; lia).
  replace (Z.pred (Z.of_nat (length (b :: seats))))
    with (Z.of_nat (length seats)) by (simpl; lia).
  replace (Z.succ (Z.of_nat (length pre)))
    with (Z.of_nat (length (pre ++ [b]))) by (rewrite length_app; simpl; lia).
  rewrite !filter_cons, Nat2Z.id, list_lookup_middle by done.
  specialize (IH (pre ++ [b])). rewrite <-app_assoc in IH. simpl in IH.
  destruct b; repeat case_decide; try congruence; simpl; by rewrite IH.
Qed.

(** As many free indices as free seats. *)
Lemma free_indices_length (seats : list bool) :
  Z.of_nat (length seats) = TOTAL_SEATS →
  Z.of_nat (length (free_indices seats)) = count_free seats.
Proof.
  intros Hlen. unfold free_indices, count_free. rewrite <-Hlen.
  by rewrite <-(free_indices_length_from seats []).
Qed.

Lemma example_reachable : reachable example_service.
Proof. exists example_calls. by vm_compute. Qed.

Lemma example_show :
  shows_ example_service !! 1 = Some (new_show 1 1).
Proof. by vm_compute. Qed.

End Counting.

(** ** The properties of the seat codec *)

(** C4: decoding the label made for a seat index in [[0, TOTAL_SEATS)]
    gives the index back. *)
Theorem seat_codec_round_trip i :
  0 ≤ i < TOTAL_SEATS → seatIndexFromLabel (seatLabelFromIndex i) = i.
Proof. apply seatIndexFromLabel_seatLabelFromIndex. Qed.

Lemma seat_codec_round_trip_witness :
  0 ≤ 12 < TOTAL_SEATS ∧ seatIndexFromLabel (seatLabelFromIndex 12) = 12.
Proof.
  assert (0 ≤ 12 < TOTAL_SEATS) as H by (unfold TOTAL_SEATS; lia).
  split; [exact H|]. exact (seat_codec_round_trip 12 H).
Defined.

(** C5: on every string outside the label grammar (wrong row letter, empty
    suffix, a character of the suffix that is no digit, a number outside
    [[1, TOTAL_SEATS]]) [seatIndexFromLabel] returns the sentinel -1, as a
    value; and on every string the loop runs at most once per character
    after the row letter, never again after the accumulator went beyond
    TOTAL_SEATS, with an accumulator that stays within [[0, ACC_MAX]], far
    from the end of an [int].  The four ways out are all there are: a
    string that is not in the grammar gets -1. *)
Theorem seatIndexFromLabel_sentinel_bounded label :
  (outside_grammar label → seatIndexFromLabel label = -1) ∧
  (¬ in_grammar label → seatIndexFromLabel label = -1) ∧
  bounded_parse label.
Proof.
  split_and!.
  - apply seatIndexFromLabel_outside.
  - intros H%outside_grammar_iff. by apply seatIndexFromLabel_outside.
  - apply bounded_parse_all.
Qed.

Lemma seatIndexFromLabel_sentinel_bounded_witness :
  outside_grammar "A21x" ∧ seatIndexFromLabel "A21x" = -1.
Proof.
  assert (outside_grammar "A21x") as H.
  { right; right; left. by exists "21x"%string. }
  split; [exact H|].
  exact (proj1 (seatIndexFromLabel_sentinel_bounded "A21x") H).
Defined.

(** ** The properties of the reservation engine *)

Section RequestFacts.

Implicit Types (s : Show) (labels : list string).

(** A request with a malformed label, a repeated index or a taken seat is
    not one that the first loop accepts. *)
Lemma bad_request_not_bookable s labels :
  (∃ l, l ∈ labels ∧ malformed l) ∨ repeated labels ∨
  (∃ l, l ∈ labels ∧ occupied s l) →
  ¬ (Forall (free_seat s) labels ∧ NoDup (seatIndexFromLabel <$> labels)).
Proof.
  intros Hbad [Hfree Hnd]. rewrite Forall_forall in Hfree.
  destruct Hbad as [(l & Hl & Hm) | [(i & j & l1 & l2 & Hij & Hi & Hj & Heq)
                                    | (l & Hl & _ & Hocc)]].
  - destruct (Hfree l Hl) as [? _]. unfold malformed in Hm. lia.
  - apply Hij. eapply NoDup_lookup; [done| |].
    + rewrite list_lookup_fmap, Hi. done.
    + rewrite list_lookup_fmap, Hj. simpl. by rewrite Heq.
  - destruct (Hfree l Hl) as [_ ?]. congruence.
Qed.


End RequestFacts.

(** C1: on a show of a service that calls have built, a request with a
    label that fails to decode, with two positions that decode to the same
    index, or with a label that names a taken seat makes [bookSeats] return
    [false] with the service, and so the seat vector and [availableCount]
    of the show, as before; and whatever the request, [bookSeats] returns
    and a [false] comes with the service as before. *)
Theorem bookSeats_all_or_nothing st showId seatLabels :
  reachable st →
  (∀ s, shows_ st !! showId = Some s →
     (∃ l, l ∈ seatLabels ∧ malformed l) ∨ repeated seatLabels ∨
     (∃ l, l ∈ seatLabels ∧ occupied s l) →
     ∃ d, bookSeats showId seatLabels st = Ret (mkOut false [d] st)) ∧
  (∃ o, bookSeats showId seatLabels st = Ret o ∧ (ret o = false → post o = st)).
Proof.
  intros Hok%reachable_shows_ok. split.
  - intros s Hs Hbad%(bad_request_not_bookable s).
    destruct (Hok _ _ Hs) as [Hlen _].
    destruct (validate_request_bad (seats s) seatLabels Hlen Hbad) as [d Hd].
    exists d. by eapply bookSeats_refused.
  - destruct (shows_ st !! showId) as [s|] eqn:Hs.
    + destruct (bookSeats_returns st showId s seatLabels Hs) as
        [[d ->] | (idxs & _ & ->)]; [by eapply Hok|by eexists|by eexists].
    + rewrite bookSeats_unknown by done. by eexists.
Qed.

Lemma bookSeats_all_or_nothing_witness :
  reachable example_service ∧
  (∃ d, bookSeats 1 ["A3"; "Z9"]%string example_service =
          Ret (mkOut false [d] example_service)).
Proof.
  split; [apply example_reachable|].
  apply (proj1 (bookSeats_all_or_nothing example_service 1
                  ["A3"; "Z9"]%string example_reachable) (new_show 1 1)).
  - by vm_compute.
  - left. exists "Z9"%string. split; [|by vm_compute].
    apply list_elem_of_In. simpl. tauto.
Defined.

(** C2, amended: on a show of a service that calls have built, a request of
    K labels that each name a free seat and that decode to K different
    indices makes [bookSeats] return [true]; it takes the K seats and no
    other, lowers [availableCount] and the number of free seats by K, and
    [getAvailableSeats] afterwards returns K labels fewer, none of them a
    label of the request. *)
Theorem bookSeats_books_exactly st showId s seatLabels :
  reachable st → shows_ st !! showId = Some s →
  Forall (free_seat s) seatLabels →
  NoDup (seatIndexFromLabel <$> seatLabels) →
  ∃ s' before after,
    bookSeats showId seatLabels st =
      Ret (mkOut true [] (set_show showId s' st)) ∧
    movieId s' = movieId s ∧ theaterId s' = theaterId s ∧
    length (seats s') = length (seats s) ∧
    (∀ l, l ∈ seatLabels →
       seats s' !! Z.to_nat (seatIndexFromLabel l) = Some true) ∧
    (∀ i, (∀ l, l ∈ seatLabels → Z.to_nat (seatIndexFromLabel l) ≠ i) →
       seats s' !! i = seats s !! i) ∧
    availableCount s' = availableCount s - Z.of_nat (length seatLabels) ∧
    count_free (seats s') = count_free (seats s) - Z.of_nat (length seatLabels) ∧
    getAvailableSeats showId st = Ret before ∧
    getAvailableSeats showId (set_show showId s' st) = Ret after ∧
    Z.of_nat (length after) =
      Z.of_nat (length before) - Z.of_nat (length seatLabels) ∧
    (∀ l, l ∈ seatLabels → l ∉ after).
Proof.
  intros Hreach%reachable_shows_ok Hs Hfree Hnd.
  pose proof (Hreach _ _ Hs) as Hok. pose proof Hok as [Hlen Hcount].
  pose proof (validate_request _ _ Hlen Hfree Hnd) as Hv.
  pose proof (booked_ok _ _ _ Hok Hv) as Hok'. pose proof Hok' as [Hlen' Hcount'].
  set (idxs := seatIndexFromLabel <$> seatLabels) in *.
  assert (Forall (λ idx, 0 ≤ idx ∧ seats s !! Z.to_nat idx = Some false) idxs)
    as Hidxs by (by apply Forall_fmap).
  assert (count_free (seats (booked s idxs)) =
          count_free (seats s) - Z.of_nat (length seatLabels)) as Hfree'.
  { cbn [booked seats]. rewrite commit_count_free by done.
    unfold idxs. by rewrite length_fmap. }
  exists (booked s idxs), (seatLabelFromIndex <$> free_indices (seats s)),
    (seatLabelFromIndex <$> free_indices (seats (booked s idxs))).
  split_and!; try done.
  - by eapply bookSeats_accepted.
  - cbn [booked seats]. apply commit_length.
  - intros l Hl. cbn [booked seats]. apply commit_takes.
    + unfold idxs. by apply list_elem_of_fmap_2.
    + rewrite Forall_forall in Hfree. destruct (Hfree l Hl) as [_ Hseat].
      by eapply lookup_lt_Some.
  - intros i Hi. cbn [booked seats]. apply commit_other.
    intros idx (l & -> & Hl)%list_elem_of_fmap. by apply Hi.
  - cbn [booked availableCount]. rewrite commit_count.
    unfold idxs. by rewrite length_fmap.
  - by apply getAvailableSeats_ok.
  - apply getAvailableSeats_ok; [|done].
    cbn [set_show shows_]. apply lookup_insert_eq.
  - rewrite !length_fmap, !free_indices_length by done. done.
  - intros l Hl (j & -> & [Hj Hseat]%elem_of_free_indices)%list_elem_of_fmap.
    rewrite Forall_forall in Hfree. destruct (Hfree _ Hl) as [_ Hold].
    rewrite seatIndexFromLabel_seatLabelFromIndex in Hold by done.
    assert (seats (booked s idxs) !! Z.to_nat j = Some true); [|congruence].
    cbn [booked seats]. apply commit_takes; [|by eapply lookup_lt_Some].
    unfold idxs. apply list_elem_of_fmap. eexists. split; [|exact Hl].
    by rewrite seatIndexFromLabel_seatLabelFromIndex.
Qed.

Lemma bookSeats_books_exactly_witness :
  ∃ s', bookSeats 1 ["A1"; "A2"]%string example_service =
          Ret (mkOut true [] (set_show 1 s' example_service)) ∧
        availableCount s' = TOTAL_SEATS - 2.
Proof.
  destruct (bookSeats_books_exactly example_service 1 (new_show 1 1)
              ["A1"; "A2"]%string) as (s' & before & after & H).
  - apply example_reachable.
  - by vm_compute.
  - repeat constructor; by vm_compute.
  - vm_compute. repeat constructor; rewrite ?list_elem_of_In; simpl; intuition lia.
  - exists s'. split; [apply H|]. apply H.
Defined.

(** With "distinct" read on the strings, C2 fails: "A1" and "A01" are two
    labels that each name the free seat 0 of a new show, and the request of
    both is refused. *)
Lemma leading_zero_labels_collide : ¬ distinct_strings_are_booked.
Proof.
  intros H.
  destruct (H example_service 1 (new_show 1 1) ["A1"; "A01"]%string)
    as (o & Ho & Hret).
  - apply example_reachable.
  - by vm_compute.
  - repeat constructor; rewrite ?list_elem_of_In; simpl; intuition congruence.
  - repeat constructor; by vm_compute.
  - vm_compute in Ho. injection Ho as <-. discriminate Hret.
Qed.

(** C9: for a show id that the catalog does not hold, [getAvailableSeats]
    throws [std::invalid_argument] and so returns no value, while
    [bookSeats] returns [false], writes nothing and leaves the service, with
    every seat of it, as it was, whatever the request. *)
Theorem unknown_show_throws_or_fails st showId :
  shows_ st !! showId = None →
  getAvailableSeats showId st = Throw (invalid_argument "Invalid show ID") ∧
  (∀ labels, getAvailableSeats showId st ≠ Ret labels) ∧
  (∀ seatLabels, bookSeats showId seatLabels st = Ret (mkOut false [] st)).
Proof.
  intros Hs. split_and!.
  - by apply getAvailableSeats_unknown.
  - intros labels. by rewrite getAvailableSeats_unknown.
  - intros seatLabels. by apply bookSeats_unknown.
Qed.

Lemma unknown_show_throws_or_fails_witness :
  shows_ example_service !! 7 = None ∧
  getAvailableSeats 7 example_service =
    Throw (invalid_argument "Invalid show ID") ∧
  bookSeats 7 ["A1"]%string example_service =
    Ret (mkOut false [] example_service).
Proof.
  assert (shows_ example_service !! 7 = None) as H by (by vm_compute).
  split; [exact H|].
  destruct (unknown_show_throws_or_fails example_service 7 H) as (Hg & _ & Hb).
  split; [exact Hg|exact (Hb _)].
Defined.



(** ** The invariant of the cached count *)

(** C3: every sequence of calls runs, and in the service it builds the
    cached [availableCount] of every show is the number of [false] entries
    of its seat vector, which has TOTAL_SEATS entries; a show new from
    [createShow] has every seat free and the count at TOTAL_SEATS; a
    booking, refused or not, returns and keeps the invariant. *)
Theorem available_count_invariant :
  (∀ calls, ∃ st, run calls empty_service = Some st) ∧
  (∀ st showId s, reachable st → shows_ st !! showId = Some s →
     availableCount s = count_free (seats s) ∧
     Z.of_nat (length (seats s)) = TOTAL_SEATS) ∧
  (∀ st m t showId s,
     shows_ st !! showId = None →
     shows_ (post (createShow m t st)) !! showId = Some s →
     seats s = replicate (Z.to_nat TOTAL_SEATS) false ∧
     availableCount s = TOTAL_SEATS ∧ count_free (seats s) = TOTAL_SEATS) ∧
  (∀ st showId seatLabels, shows_ok st →
     ∃ o, bookSeats showId seatLabels st = Ret o ∧ shows_ok (post o)).
Proof.
  split_and!.
  - intros calls.
    destruct (run_shows_ok calls _ shows_ok_empty) as (st & Hrun & _).
    by exists st.
  - intros st showId s Hok%reachable_shows_ok Hs.
    destruct (Hok _ _ Hs). done.
  - intros st m t showId s Hnone [Hs | [_ ->]]%createShow_shows; [congruence|].
    split_and!; [done..|]. by destruct (new_show_ok m t) as [_ <-].
  - intros st showId seatLabels Hok.
    destruct (step_shows_ok (CallBookSeats showId seatLabels) st Hok)
      as (st' & Hstep & Hok').
    simpl in Hstep. destruct (bookSeats _ _ _) as [o| |]; [|done..].
    exists o. split; [done|]. by injection Hstep as ->.
Qed.

Lemma available_count_invariant_witness :
  availableCount (new_show 1 1) = count_free (seats (new_show 1 1)) ∧
  Z.of_nat (length (seats (new_show 1 1))) = TOTAL_SEATS.
Proof.
  apply (proj1 (proj2 available_count_invariant) example_service 1).
  - apply example_reachable.
  - by vm_compute.
Defined.

(** ** The properties of the catalog store *)

Section Names.

Implicit Types (st : BookingService).

Lemma addMovie_present title first st :
  movieNameToId_ st !! toLower title = Some first →
  addMovie title st = mkOut (-1) [MovieExists title first] st.
Proof. unfold addMovie. cbv zeta. by intros ->. Qed.

Lemma addTheater_present name first st :
  theaterNameToId_ st !! toLower name = Some first →
  addTheater name st = mkOut (-1) [TheaterExists name first] st.
Proof. unfold addTheater. cbv zeta. by intros ->. Qed.

(** After [addMovie] the title is filed, under the returned id when it was
    not filed before. *)
Lemma addMovie_files title st :
  ∃ first,
    movieNameToId_ (post (addMovie title st)) !! toLower title = Some first ∧
    (movieNameToId_ st !! toLower title = None →
     first = ret (addMovie title st)).
Proof.
  unfold addMovie. cbv zeta.
  destruct (movieNameToId_ st !! toLower title) as [first|] eqn:Hl.
  - exists first. by split.
  - eexists. cbn [post ret movieNameToId_]. by rewrite lookup_insert_eq.
Qed.

Lemma addTheater_files name st :
  ∃ first,
    theaterNameToId_ (post (addTheater name st)) !! toLower name = Some first ∧
    (theaterNameToId_ st !! toLower name = None →
     first = ret (addTheater name st)).
Proof.
  unfold addTheater. cbv zeta.
  destruct (theaterNameToId_ st !! toLower name) as [first|] eqn:Hl.
  - exists first. by split.
  - eexists. cbn [post ret theaterNameToId_]. by rewrite lookup_insert_eq.
Qed.

End Names.

(** C6, amended: after [addMovie] of a title, [addMovie] of a title that
    differs from it by letter case only returns -1; the id under which the
    title is filed, which the first call returned when the title was new,
    goes to the diagnostic; and the service, with its movies, its indexes
    and its counters, is as the first call left it.  [addTheater] does the
    same on names. *)
Theorem duplicate_name_rejected st name1 name2 :
  toLower name1 = toLower name2 →
  (∃ first,
     movieNameToId_ (post (addMovie name1 st)) !! toLower name1 = Some first ∧
     (movieNameToId_ st !! toLower name1 = None →
      first = ret (addMovie name1 st)) ∧
     addMovie name2 (post (addMovie name1 st)) =
       mkOut (-1) [MovieExists name2 first] (post (addMovie name1 st))) ∧
  (∃ first,
     theaterNameToId_ (post (addTheater name1 st)) !! toLower name1 = Some first ∧
     (theaterNameToId_ st !! toLower name1 = None →
      first = ret (addTheater name1 st)) ∧
     addTheater name2 (post (addTheater name1 st)) =
       mkOut (-1) [TheaterExists name2 first] (post (addTheater name1 st))).
Proof.
  intros Heq. split.
  - destruct (addMovie_files name1 st) as (first & Hfiled & Hnew).
    exists first. split_and!; [done..|].
    apply addMovie_present. by rewrite <-Heq.
  - destruct (addTheater_files name1 st) as (first & Hfiled & Hnew).
    exists first. split_and!; [done..|].
    apply addTheater_present. by rewrite <-Heq.
Qed.

Lemma duplicate_name_rejected_witness :
  toLower "Inception" = toLower "INCEPTION" ∧
  ret (addMovie "INCEPTION" (post (addMovie "Inception" empty_service))) = -1 ∧
  ret (addTheater "INCEPTION" (post (addTheater "Inception" empty_service))) = -1.
Proof.
  assert (toLower "Inception" = toLower "INCEPTION") as H by reflexivity.
  split; [exact H|].
  destruct (duplicate_name_rejected empty_service "Inception" "INCEPTION" H)
    as [(m & _ & _ & Hm) (t & _ & _ & Ht)].
  split; [by rewrite Hm|by rewrite Ht].
Defined.

(** As stated, with the id of the first as the return value, C6 fails: the
    second call returns -1 where the first returned 1. *)
Lemma duplicate_title_returns_sentinel : ¬ duplicate_returns_first_id.
Proof.
  intros H. specialize (H empty_service "Inception" "INCEPTION" eq_refl)%string.
  vm_compute in H. discriminate H.
Qed.

Section Shows.

Implicit Types (st : BookingService) (s : Show).

(** Before the counter wraps, [createShow] on a pair that is not filed
    makes the show under the next id, which no show has. *)
Lemma createShow_makes m t st mv th :
  catalog_ok st → showCounter_ st < LLONG_MAX →
  movies_ st !! m = Some mv → theaters_ st !! t = Some th →
  showLookup_ st !! (m, t) = None →
  shows_ st !! (showCounter_ st + 1) = None ∧
  createShow m t st =
    mkOut (showCounter_ st + 1) [] {|
      movies_ := movies_ st;
      theaters_ := theaters_ st;
      shows_ := <[showCounter_ st + 1 := new_show m t]> (shows_ st);
      movieNameToId_ := movieNameToId_ st;
      theaterNameToId_ := theaterNameToId_ st;
      showLookup_ := <[(m, t) := showCounter_ st + 1]> (showLookup_ st);
      activeMovies_ := {[m]} ∪ activeMovies_ st;
      movieToTheaters_ := add_theater_of m t (movieToTheaters_ st);
      movieCounter_ := movieCounter_ st;
      theaterCounter_ := theaterCounter_ st;
      showCounter_ := showCounter_ st + 1
    |}.
Proof.
  intros (Hc & Hids & _) Hmax Hm Ht Hnew.
  assert (shows_ st !! (showCounter_ st + 1) = None) as Hfresh.
  { destruct (shows_ st !! _) eqn:Hs; [|done].
    assert (1 ≤ showCounter_ st + 1 ≤ showCounter_ st) by (by apply Hids).
    lia. }
  split; [done|].
  rewrite (createShow_fresh_pair _ _ _ _ _ Hm Ht Hnew).
  rewrite incr_llong_small by lia. unfold emplace. by rewrite Hfresh.
Qed.

Lemma no_show_not_filed m t st :
  catalog_ok st →
  (∀ showId s, shows_ st !! showId = Some s → ¬ show_for m t s) →
  showLookup_ st !! (m, t) = None.
Proof.
  intros (_ & _ & Hfiled) Hnone.
  destruct (showLookup_ st !! (m, t)) as [i|] eqn:Hl; [|done].
  destruct (Hfiled _ _ _ Hl) as (s & Hs & Hsf). by destruct (Hnone _ _ Hs).
Qed.

End Shows.

(** C7: on a service that calls have built, [createShow] returns -1 and
    leaves the service as it was when the movie id is unknown, the theater
    id is unknown, or a show of the pair exists.  Otherwise, the calls being
    fewer than [showCounter_] can count, it returns the next value of the
    counter, an id that no show has, files under it a show with TOTAL_SEATS
    free seats and [availableCount] at TOTAL_SEATS, and files the pair in
    [showLookup_], the movie in [activeMovies_] and the theater in
    [movieToTheaters_]; a second call for the pair then returns -1 and
    changes nothing, and the pair has one show. *)
Theorem createShow_contract st m t :
  reachable st →
  (movies_ st !! m = None ∨ theaters_ st !! t = None ∨
   (∃ showId s, shows_ st !! showId = Some s ∧ show_for m t s) →
   ret (createShow m t st) = -1 ∧ post (createShow m t st) = st) ∧
  (∀ calls,
   run calls empty_service = Some st → Z.of_nat (length calls) < LLONG_MAX →
   is_Some (movies_ st !! m) → is_Some (theaters_ st !! t) →
   (∀ showId s, shows_ st !! showId = Some s → ¬ show_for m t s) →
   ∃ id st',
     createShow m t st = mkOut id [] st' ∧
     id = showCounter_ st + 1 ∧ 0 < id ∧ shows_ st !! id = None ∧
     shows_ st' = <[id := new_show m t]> (shows_ st) ∧
     seats (new_show m t) = replicate (Z.to_nat TOTAL_SEATS) false ∧
     availableCount (new_show m t) = TOTAL_SEATS ∧
     showLookup_ st' = <[(m, t) := id]> (showLookup_ st) ∧
     activeMovies_ st' = {[m]} ∪ activeMovies_ st ∧
     movieToTheaters_ st' !! m =
       Some ({[t]} ∪ default ∅ (movieToTheaters_ st !! m)) ∧
     (∀ m', m' ≠ m → movieToTheaters_ st' !! m' = movieToTheaters_ st !! m') ∧
     movies_ st' = movies_ st ∧ theaters_ st' = theaters_ st ∧
     showCounter_ st' = id ∧
     createShow m t st' = mkOut (-1) [DuplicateShow m t] st' ∧
     (∀ showId s, shows_ st' !! showId = Some s → show_for m t s → showId = id)).
Proof.
  intros Hcov%reachable_lookup_covers. split.
  - intros Hfail.
    destruct (createShow_cases m t st) as [(? & ? & _) | (mv & th & Hm & Ht & Hnew)];
      [done|].
    destruct Hfail as [? | [? | (showId & s & Hs & <- & <-)]]; [congruence..|].
    apply Hcov in Hs. congruence.
  - intros calls Hrun Hlen [mv Hm] [th Ht] Hnone.
    destruct (built_catalog_ok _ _ Hrun Hlen) as [Hok Hmax].
    pose proof (no_show_not_filed _ _ _ Hok Hnone) as Hnew.
    destruct (createShow_makes m t st mv th Hok Hmax Hm Ht Hnew) as [Hfresh Hmk].
    destruct Hok as (Hc & _).
    eexists _, _. split; [exact Hmk|].
    cbn [shows_ showLookup_ activeMovies_ movieToTheaters_ movies_ theaters_
         showCounter_].
    split_and!; try done; try lia.
    + unfold add_theater_of. apply lookup_insert_eq.
    + intros m' Hm'. unfold add_theater_of. by apply lookup_insert_ne.
    + unfold createShow. cbn [showLookup_ movies_ theaters_].
      by rewrite Hm, Ht, lookup_insert_eq.
    + intros showId s. rewrite lookup_insert. case_decide; [done|].
      intros Hs Hsf. by destruct (Hnone _ _ Hs).
Qed.

Lemma createShow_contract_witness :
  ∃ st', createShow 1 1 (post (addTheater "Cineplex"
                                (post (addMovie "Inception" empty_service))))
           = mkOut 1 [] st' ∧
         createShow 1 1 st' = mkOut (-1) [DuplicateShow 1 1] st'.
Proof.
  destruct (createShow_contract
              (post (addTheater "Cineplex"
                       (post (addMovie "Inception" empty_service)))) 1 1)
    as [_ H].
  - exists [CallAddMovie "Inception"; CallAddTheater "Cineplex"]. reflexivity.
  - destruct (H [CallAddMovie "Inception"; CallAddTheater "Cineplex"])
      as (id & st' & Hmk & Hid & H').
    + reflexivity.
    + by vm_compute.
    + vm_compute. by eexists.
    + vm_compute. by eexists.
    + intros showId s Hs. vm_compute in Hs. discriminate Hs.
    + exists st'. vm_compute in Hid. subst id. split; [exact Hmk|apply H'].
Defined.

(** C8: on a service that calls have built, [getAvailableSeats] of a show
    returns the labels of the indices in [[0, TOTAL_SEATS)] whose seat is
    free, and of no other, in ascending order of the index and without a
    repeat, as many as [availableCount]; and on the id that a [createShow]
    just returned, the calls being fewer than [showCounter_] can count, it
    returns the TOTAL_SEATS labels of the
    indices 0 to TOTAL_SEATS - 1, each decoding to its position. *)
Theorem getAvailableSeats_lists_free st :
  reachable st →
  (∀ showId s, shows_ st !! showId = Some s →
     ∃ idxs,
       getAvailableSeats showId st = Ret (seatLabelFromIndex <$> idxs) ∧
       StronglySorted Z.lt idxs ∧
       (∀ i, i ∈ idxs ↔
             0 ≤ i < TOTAL_SEATS ∧ seats s !! Z.to_nat i = Some false) ∧
       NoDup (seatLabelFromIndex <$> idxs) ∧
       Z.of_nat (length idxs) = availableCount s) ∧
  (∀ calls m t,
     run calls empty_service = Some st → Z.of_nat (length calls) < LLONG_MAX →
     ret (createShow m t st) ≠ -1 →
     ∃ labels,
       getAvailableSeats (ret (createShow m t st)) (post (createShow m t st)) =
         Ret labels ∧
       labels = seatLabelFromIndex <$> seqZ 0 TOTAL_SEATS ∧
       Z.of_nat (length labels) = TOTAL_SEATS ∧ NoDup labels ∧
       (∀ i, 0 ≤ i < TOTAL_SEATS →
          ∃ l, labels !! Z.to_nat i = Some l ∧ seatIndexFromLabel l = i)).
Proof.
  intros Hshows%reachable_shows_ok. split.
  - intros showId s Hs. pose proof (Hshows _ _ Hs) as Hsok.
    exists (free_indices (seats s)). split_and!.
    + by apply getAvailableSeats_ok.
    + apply free_indices_sorted.
    + apply elem_of_free_indices.
    + apply seatLabelFromIndex_NoDup;
        [apply free_indices_NoDup|apply free_indices_range].
    + destruct Hsok as [Hl ->]. by apply free_indices_length.
  - intros calls m t Hrun Hlen Hret.
    destruct (built_catalog_ok _ _ Hrun Hlen) as [Hok Hmax].
    destruct (createShow_cases m t st) as [(? & _) | (mv & th & Hm & Ht & Hnew)];
      [done|].
    destruct (createShow_makes m t st mv th Hok Hmax Hm Ht Hnew) as [_ ->].
    cbn [ret post]. eexists. split.
    { apply getAvailableSeats_ok; [|apply new_show_ok].
      cbn [shows_]. apply lookup_insert_eq. }
    change (free_indices (seats (new_show m t))) with (seqZ 0 TOTAL_SEATS).
    split_and!; [done|by vm_compute| |].
    + apply seatLabelFromIndex_NoDup; [apply NoDup_seqZ|].
      apply Forall_forall. intros i Hi%elem_of_seqZ. lia.
    + intros i Hi. exists (seatLabelFromIndex i).
      split; [|by apply seatIndexFromLabel_seatLabelFromIndex].
      rewrite list_lookup_fmap.
      replace (seqZ 0 TOTAL_SEATS !! Z.to_nat i) with (Some i); [done|].
      symmetry. apply lookup_seqZ. lia.
Qed.

Lemma getAvailableSeats_lists_free_witness :
  ∃ idxs, getAvailableSeats 1 example_service =
            Ret (seatLabelFromIndex <$> idxs) ∧
          Z.of_nat (length idxs) = TOTAL_SEATS.
Proof.
  destruct (getAvailableSeats_lists_free example_service) as [H _].
  - apply example_reachable.
  - destruct (H 1 (new_show 1 1)) as (idxs & Hget & _ & _ & _ & Hlen).
    + by vm_compute.
    + exists idxs. split; [exact Hget|exact Hlen].
Defined.

(** ** One call, case by case *)

Section Steps.

Implicit Types (st : BookingService) (s : Show) (c : Call).

Lemma step_effect c st st' : step c st = Some st' → Effect st st'.
Proof.
  destruct c as [title|name|m t|showId|showId labels]; simpl.
  - intros [= <-]. unfold addMovie. cbv zeta.
    destruct (movieNameToId_ st !! toLower title) eqn:Hl; [constructor|].
    by apply MovieAdded.
  - intros [= <-]. unfold addTheater. cbv zeta.
    destruct (theaterNameToId_ st !! toLower name) eqn:Hl; [constructor|].
    by apply TheaterAdded.
  - intros [= <-].
    destruct (createShow_cases m t st) as [(_ & -> & _) | (mv & th & Hm & Ht & Hn)].
    + constructor.
    + by eapply ShowCreated.
  - destruct (getAvailableSeats _ _); intros [= <-]; constructor.
  - unfold bookSeats. destruct (shows_ st !! showId) as [s|] eqn:Hs.
    2: { intros [= <-]. constructor. }
    destruct (validate _ _ _ _) as [d|idxs|] eqn:Hv; [| |done].
    + intros [= <-]. constructor.
    + destruct (commit _ _ _) as [seats' count'] eqn:Hc. intros [= <-].
      replace {| movieId := movieId s; theaterId := theaterId s;
                 seats := seats'; availableCount := count' |}
        with (booked s idxs) by (unfold booked; by rewrite Hc).
      by eapply SeatsBooked.
Qed.

Lemma run_app calls1 calls2 st :
  run (calls1 ++ calls2) st =
    match run calls1 st with
    | Some st1 => run calls2 st1
    | None => None
    end.
Proof.
  revert st. induction calls1 as [|c calls1 IH]; intros st; simpl; [done|].
  by destruct (step c st).
Qed.

Lemma reachable_run calls st st' :
  reachable st → run calls st = Some st' → reachable st'.
Proof.
  intros [calls0 Hrun0] Hrun. exists (calls0 ++ calls).
  by rewrite run_app, Hrun0.
Qed.

Lemma incr_int_small n : 0 ≤ n < INT_MAX → incr_int n = n + 1.
Proof.
  unfold incr_int, wrap, INT_MAX. intros Hn.
  rewrite Z.mod_small; lia.
Qed.

End Steps.

(** ** The name registries *)

Section Registry.

Implicit Types (names : gmap Z string) (index : gmap string Z).

Lemma fmap_emplace {A B} (f : A → B) (k : Z) (v : A) (m : gmap Z A) :
  f <$> emplace k v m = emplace k (f v) (f <$> m).
Proof.
  unfold emplace. rewrite lookup_fmap.
  destruct (m !! k); simpl; [done|]. by rewrite fmap_insert.
Qed.

Lemma registry_empty : registry_ok ∅ ∅ 0.
Proof.
  split_and!; [done|..].
  - intros i. rewrite lookup_empty. split; [by intros [? ?]|lia].
  - intros i n. by rewrite lookup_empty.
  - intros k i. by rewrite lookup_empty.
Qed.

(** Filing a name that no entry has, ignoring case, under the next id. *)
Lemma registry_add names index counter n :
  registry_ok names index counter → counter < INT_MAX →
  index !! toLower n = None →
  registry_ok (emplace (incr_int counter) n names)
    (<[toLower n := incr_int counter]> index) (incr_int counter) ∧
  emplace (incr_int counter) n names = <[counter + 1 := n]> names ∧
  names !! (counter + 1) = None.
Proof.
  intros (Hc & Hdom & Hfiled & Hindex) Hmax Hnew.
  rewrite incr_int_small by lia.
  assert (names !! (counter + 1) = None) as Hfresh.
  { destruct (names !! _) eqn:Hn; [|done].
    assert (1 ≤ counter + 1 ≤ counter) by (apply Hdom; eauto). lia. }
  assert (emplace (counter + 1) n names = <[counter + 1 := n]> names) as ->.
  { unfold emplace. by rewrite Hfresh. }
  split_and!; [|done..]. unfold registry_ok. split_and!; [lia|..].
  - intros i. rewrite lookup_insert. case_decide; [subst|].
    + split; [lia|eauto].
    + rewrite Hdom. lia.
  - intros i n'. rewrite lookup_insert. case_decide; [subst|].
    + intros [= <-]. apply lookup_insert_eq.
    + intros Hn'. rewrite lookup_insert_ne; [by apply Hfiled|].
      intros Heq. apply Hfiled in Hn'. congruence.
  - intros k i. rewrite lookup_insert. case_decide; [subst|].
    + intros [= <-]. exists n. by rewrite lookup_insert_eq.
    + intros (n' & Hn' & <-)%Hindex. exists n'. split; [|done].
      rewrite lookup_insert_ne; [done|]. intros <-. congruence.
Qed.

(** In a registry no two entries have the same name, ignoring case. *)
Lemma registry_names_differ names index counter i j n1 n2 :
  registry_ok names index counter →
  names !! i = Some n1 → names !! j = Some n2 →
  toLower n1 = toLower n2 → i = j.
Proof.
  intros (_ & _ & Hfiled & _) H1%Hfiled H2%Hfiled Heq. congruence.
Qed.

End Registry.

(** ** The catalog keeps its invariants *)

Section Service.

Implicit Types (st : BookingService) (s : Show).

Ltac effect_cases H :=
  destruct H as [|ttl Hnew|nm Hnew|m t mv th Hm Ht Hnew|showId s labels idxs Hs Hv];
  [|..|rewrite (createShow_fresh_pair _ _ _ _ _ Hm Ht Hnew); cbn [post]|].

Lemma effect_movies_ok st st' :
  Effect st st' → movies_ok st → movieCounter_ st < INT_MAX →
  movies_ok st' ∧ movieCounter_ st ≤ movieCounter_ st' ≤ movieCounter_ st + 1.
Proof.
  intros Heff [Hreg Hid] Hmax. pose proof Hreg as (Hc & _).
  effect_cases Heff; try (split; [split; assumption|cbn; lia]).
  unfold movies_ok. cbn [movies_ movieNameToId_ movieCounter_].
  rewrite fmap_emplace. cbn [title].
  destruct (registry_add _ _ _ ttl Hreg Hmax Hnew) as (Hreg' & _ & Hfresh).
  rewrite incr_int_small in * by lia. split; [|lia]. split; [done|].
  intros i m. rewrite lookup_emplace.
  destruct (movies_ st !! i) eqn:Hi.
  - intros [= <-]. by eapply Hid.
  - case_decide; [|done]. by intros [= <-].
Qed.

Lemma effect_theaters_ok st st' :
  Effect st st' → theaters_ok st → theaterCounter_ st < INT_MAX →
  theaters_ok st' ∧
  theaterCounter_ st ≤ theaterCounter_ st' ≤ theaterCounter_ st + 1.
Proof.
  intros Heff [Hreg Hid] Hmax. pose proof Hreg as (Hc & _).
  effect_cases Heff; try (split; [split; assumption|cbn; lia]).
  unfold theaters_ok. cbn [theaters_ theaterNameToId_ theaterCounter_].
  rewrite fmap_emplace. cbn [name].
  destruct (registry_add _ _ _ nm Hreg Hmax Hnew) as (Hreg' & _ & Hfresh).
  rewrite incr_int_small in * by lia. split; [|lia]. split; [done|].
  intros i t. rewrite lookup_emplace.
  destruct (theaters_ st !! i) eqn:Hi.
  - intros [= <-]. by eapply Hid.
  - case_decide; [|done]. by intros [= <-].
Qed.

Lemma exists_insert_fresh (shows : gmap Z Show) k v (Q : Show → Prop) :
  shows !! k = None →
  (∃ i s, <[k := v]> shows !! i = Some s ∧ Q s) ↔
  Q v ∨ ∃ i s, shows !! i = Some s ∧ Q s.
Proof.
  intros Hk. split.
  - intros (i & s & Hs & HQ). rewrite lookup_insert in Hs.
    case_decide; [left; by simplify_eq|right; eauto].
  - intros [HQ | (i & s & Hs & HQ)].
    + exists k, v. by rewrite lookup_insert_eq.
    + exists i, s. split; [|done]. rewrite lookup_insert_ne; [done|].
      intros <-. congruence.
Qed.

Lemma exists_insert_booked (shows : gmap Z Show) k s idxs (Q : Z → Z → Prop) :
  shows !! k = Some s →
  (∃ i s', <[k := booked s idxs]> shows !! i = Some s' ∧
           Q (movieId s') (theaterId s')) ↔
  ∃ i s', shows !! i = Some s' ∧ Q (movieId s') (theaterId s').
Proof.
  intros Hk. split; intros (i & s' & Hs' & HQ).
  - rewrite lookup_insert in Hs'. case_decide; [|eauto].
    simplify_eq. by exists i, s.
  - destruct (decide (k = i)) as [<-|Hne].
    + exists k, (booked s idxs). rewrite lookup_insert_eq.
      split; [done|]. by simplify_eq.
    + exists i, s'. by rewrite lookup_insert_ne.
Qed.

Lemma effect_shows_indexed st st' :
  Effect st st' → catalog_ok st → showCounter_ st < LLONG_MAX →
  shows_indexed st → shows_indexed st'.
Proof.
  intros Heff Hok Hmax (Hdom & Href & Hact & Hmt).
  destruct Heff as [|ttl Hnew|nm Hnew|m t mv th Hm Ht Hnew
                   |showId s labels idxs Hs Hv].
  - done.
  - split_and!; cbn [shows_ showCounter_ movies_ theaters_ activeMovies_
                     movieToTheaters_]; [done| |done..].
    intros i s [[mv Hmv] Hth]%Href. split; [|done].
    rewrite lookup_emplace, Hmv. eauto.
  - split_and!; cbn [shows_ showCounter_ movies_ theaters_ activeMovies_
                     movieToTheaters_]; [done| |done..].
    intros i s [Hmv [th Hth]]%Href. split; [done|].
    rewrite lookup_emplace, Hth. eauto.
  - destruct (createShow_makes m t st mv th Hok Hmax Hm Ht Hnew) as [Hfresh ->].
    destruct Hok as (Hc & _).
    split_and!; cbn [post shows_ showCounter_ movies_ theaters_ activeMovies_
                     movieToTheaters_].
    + intros i. rewrite lookup_insert. case_decide; [subst|].
      * split; [lia|eauto].
      * rewrite Hdom. lia.
    + intros i s. rewrite lookup_insert. case_decide; [|apply Href].
      intros [= <-]. simpl. eauto.
    + intros m'. rewrite (exists_insert_fresh _ _ _ (λ s, movieId s = m')) by done.
      rewrite elem_of_union, elem_of_singleton, Hact. simpl. intuition congruence.
    + intros m' t'. rewrite (exists_insert_fresh _ _ _ (show_for m' t')) by done.
      unfold add_theater_of. rewrite lookup_insert. case_decide as Hmm.
      * subst m'. simpl. rewrite elem_of_union, elem_of_singleton, Hmt.
        unfold show_for. simpl. intuition congruence.
      * rewrite Hmt. unfold show_for. simpl. intuition congruence.
  - split_and!; cbn [set_show shows_ showCounter_ movies_ theaters_
                     activeMovies_ movieToTheaters_].
    + intros i. rewrite lookup_insert. case_decide; [subst|apply Hdom].
      rewrite <-Hdom, Hs. split; eauto.
    + intros i s'. rewrite lookup_insert. case_decide; [|apply Href].
      intros [= <-]. by apply (Href _ _ Hs).
    + intros m'.
      by rewrite (exists_insert_booked _ _ _ _ (λ a _, a = m')), Hact.
    + intros m' t'.
      by rewrite (exists_insert_booked _ _ _ _ (λ a b, a = m' ∧ b = t')), Hmt.
Qed.

Lemma service_ok_empty : service_ok empty_service.
Proof.
  split_and!.
  - split; [|intros i m; cbn [empty_service movies_]; by rewrite lookup_empty].
    cbn [empty_service movies_ movieNameToId_ movieCounter_].
    rewrite fmap_empty. apply registry_empty.
  - split; [|intros i m; cbn [empty_service theaters_]; by rewrite lookup_empty].
    cbn [empty_service theaters_ theaterNameToId_ theaterCounter_].
    rewrite fmap_empty. apply registry_empty.
  - apply catalog_ok_empty.
  - split_and!; cbn [empty_service shows_ showCounter_ activeMovies_
                     movieToTheaters_ movies_ theaters_].
    + intros i. rewrite lookup_empty. split; [by intros [? ?]|lia].
    + intros i s. by rewrite lookup_empty.
    + intros m. rewrite elem_of_empty. split; [done|].
      intros (i & s & Hs & _). by rewrite lookup_empty in Hs.
    + intros m t. rewrite lookup_empty. simpl. rewrite elem_of_empty.
      split; [done|]. intros (i & s & Hs & _). by rewrite lookup_empty in Hs.
Qed.

Lemma step_service_ok c st st' n :
  service_ok st → counters_le st n → n < INT_MAX → step c st = Some st' →
  service_ok st' ∧ counters_le st' (n + 1).
Proof.
  intros (Hmv & Hth & Hcat & Hidx) (Hcm & Hct & Hcs) Hn Hstep.
  pose proof (step_effect _ _ _ Hstep) as Heff.
  assert (INT_MAX < LLONG_MAX) as Hlt by done.
  destruct (effect_movies_ok _ _ Heff Hmv ltac:(lia)) as [Hmv' Hcm'].
  destruct (effect_theaters_ok _ _ Heff Hth ltac:(lia)) as [Hth' Hct'].
  destruct (step_catalog_ok _ _ _ Hcat ltac:(lia) Hstep) as [Hcat' Hcs'].
  pose proof (effect_shows_indexed _ _ Heff Hcat ltac:(lia) Hidx) as Hidx'.
  split; [done|]. unfold counters_le. lia.
Qed.

Lemma run_service_ok calls :
  ∀ st st' n,
    service_ok st → counters_le st n →
    n + Z.of_nat (length calls) ≤ INT_MAX →
    run calls st = Some st' →
    service_ok st' ∧ counters_le st' (n + Z.of_nat (length calls)).
Proof.
  induction calls as [|c calls IH]; intros st st' n Hok Hle Hn; simpl.
  { intros [= <-]. split; [done|]. by rewrite Z.add_0_r. }
  destruct (step c st) as [st1|] eqn:Hstep; [|done]. intros Hrun.
  simpl length in Hn.
  destruct (step_service_ok _ _ _ _ Hok Hle ltac:(lia) Hstep) as [Hok1 Hle1].
  destruct (IH st1 st' (n + 1) Hok1 Hle1 ltac:(lia) Hrun) as [Hok' Hle'].
  split; [done|]. replace (n + Z.of_nat (S (length calls)))
    with (n + 1 + Z.of_nat (length calls)) by lia. done.
Qed.

Lemma built_reachable st : built st → reachable st.
Proof. intros (calls & Hrun & _). by exists calls. Qed.

(** A service built by fewer calls than an [int] counts keeps every
    invariant, and no counter of it is at its end. *)
Lemma built_service_ok st :
  built st →
  service_ok st ∧ shows_ok st ∧ lookup_covers st ∧
  movieCounter_ st < INT_MAX ∧ theaterCounter_ st < INT_MAX ∧
  showCounter_ st < INT_MAX.
Proof.
  intros (calls & Hrun & Hlen).
  destruct (run_service_ok calls empty_service st 0 service_ok_empty)
    as [Hok (? & ? & ?)]; [by unfold counters_le|lia|done|].
  split_and!; [done|..|lia|lia|lia].
  - apply reachable_shows_ok. by exists calls.
  - apply reachable_lookup_covers. by exists calls.
Qed.

End Service.

(** ** Listings *)

Section Listings.

Implicit Types (st : BookingService) (s : Show).

Lemma elem_of_getAllMovies st i ttl :
  (i, ttl) ∈ getAllMovies st ↔ ∃ m, movies_ st !! i = Some m ∧ title m = ttl.
Proof.
  unfold getAllMovies. rewrite list_elem_of_fmap. split.
  - intros ([j m] & [= -> ->] & Hm%elem_of_map_to_list). by exists m.
  - intros (m & Hm & <-). exists (i, m). by rewrite elem_of_map_to_list.
Qed.

Lemma elem_of_getAllTheaters st i nm :
  (i, nm) ∈ getAllTheaters st ↔ ∃ t, theaters_ st !! i = Some t ∧ name t = nm.
Proof.
  unfold getAllTheaters. rewrite list_elem_of_fmap. split.
  - intros ([j t] & [= -> ->] & Ht%elem_of_map_to_list). by exists t.
  - intros (t & Ht & <-). exists (i, t). by rewrite elem_of_map_to_list.
Qed.

Lemma elem_of_getAllShows st info :
  info ∈ getAllShows st ↔
  ∃ s, shows_ st !! show_id info = Some s ∧
       movieTitle info = getMovieTitle (movieId s) st ∧
       theaterName info = getTheaterName (theaterId s) st ∧
       availableSeats info = availableCount s.
Proof.
  unfold getAllShows. rewrite list_elem_of_fmap. split.
  - intros ([i s] & -> & Hs%elem_of_map_to_list). by exists s.
  - intros (s & Hs & Hm & Ht & Ha). exists (show_id info, s).
    rewrite elem_of_map_to_list. split; [|done].
    destruct info. simpl in *. by subst.
Qed.

Lemma getAllShows_ids st :
  show_id <$> getAllShows st = (map_to_list (shows_ st)).*1.
Proof. unfold getAllShows. rewrite <-list_fmap_compose. done. Qed.

Lemma getAllMovies_ids st : (getAllMovies st).*1 = (map_to_list (movies_ st)).*1.
Proof. unfold getAllMovies. rewrite <-list_fmap_compose. done. Qed.

Lemma getAllTheaters_ids st :
  (getAllTheaters st).*1 = (map_to_list (theaters_ st)).*1.
Proof. unfold getAllTheaters. rewrite <-list_fmap_compose. done. Qed.

Lemma example_built : built example_service.
Proof. exists example_calls. split; by vm_compute. Qed.

End Listings.

(** ** More on the catalog store *)

Section CatalogFacts.

Implicit Types (st : BookingService) (s : Show).

Lemma movie_title_filed st i m :
  movies_ok st → movies_ st !! i = Some m →
  movieNameToId_ st !! toLower (title m) = Some i.
Proof.
  intros [(_ & _ & Hfiled & _) _] Hm. apply Hfiled.
  by rewrite lookup_fmap, Hm.
Qed.

Lemma movie_index_sound st k i :
  movies_ok st → movieNameToId_ st !! k = Some i →
  ∃ m, movies_ st !! i = Some m ∧ toLower (title m) = k.
Proof.
  intros [(_ & _ & _ & Hindex) _] (n & Hn & Hk)%Hindex.
  rewrite lookup_fmap in Hn. destruct (movies_ st !! i) as [m|]; [|done].
  exists m. split; [done|]. by injection Hn as <-.
Qed.

Lemma theater_name_filed st i t :
  theaters_ok st → theaters_ st !! i = Some t →
  theaterNameToId_ st !! toLower (name t) = Some i.
Proof.
  intros [(_ & _ & Hfiled & _) _] Ht. apply Hfiled.
  by rewrite lookup_fmap, Ht.
Qed.

Lemma theater_index_sound st k i :
  theaters_ok st → theaterNameToId_ st !! k = Some i →
  ∃ t, theaters_ st !! i = Some t ∧ toLower (name t) = k.
Proof.
  intros [(_ & _ & _ & Hindex) _] (n & Hn & Hk)%Hindex.
  rewrite lookup_fmap in Hn. destruct (theaters_ st !! i) as [t|]; [|done].
  exists t. split; [done|]. by injection Hn as <-.
Qed.

Lemma movie_ids st i :
  movies_ok st → is_Some (movies_ st !! i) ↔ 1 ≤ i ≤ movieCounter_ st.
Proof.
  intros [(_ & Hdom & _) _]. by rewrite <-Hdom, lookup_fmap, fmap_is_Some.
Qed.

Lemma theater_ids st i :
  theaters_ok st → is_Some (theaters_ st !! i) ↔ 1 ≤ i ≤ theaterCounter_ st.
Proof.
  intros [(_ & Hdom & _) _]. by rewrite <-Hdom, lookup_fmap, fmap_is_Some.
Qed.

Lemma movie_title_not_filed st ttl :
  movies_ok st →
  (∀ i m, movies_ st !! i = Some m → toLower (title m) ≠ toLower ttl) →
  movieNameToId_ st !! toLower ttl = None.
Proof.
  intros Hok Hnone. destruct (movieNameToId_ st !! _) as [i|] eqn:Hl; [|done].
  destruct (movie_index_sound _ _ _ Hok Hl) as (m & Hm & Heq).
  by destruct (Hnone _ _ Hm).
Qed.

Lemma theater_name_not_filed st nm :
  theaters_ok st →
  (∀ i t, theaters_ st !! i = Some t → toLower (name t) ≠ toLower nm) →
  theaterNameToId_ st !! toLower nm = None.
Proof.
  intros Hok Hnone. destruct (theaterNameToId_ st !! _) as [i|] eqn:Hl; [|done].
  destruct (theater_index_sound _ _ _ Hok Hl) as (t & Ht & Heq).
  by destruct (Hnone _ _ Ht).
Qed.

End CatalogFacts.

(** X1: on a service built by fewer calls than an [int] counts, [addMovie]
    of a title that no movie has, ignoring case, returns the next value of
    the counter, a positive id that no movie had, and writes nothing; the
    movie is filed under it with the title as given, so that
    [getMovieTitle] of the id is the title and [getAllMovies] lists the
    pair; the title of every other id, the theaters and the shows are as
    before. *)
Theorem addMovie_new_title st ttl :
  built st →
  (∀ i m, movies_ st !! i = Some m → toLower (title m) ≠ toLower ttl) →
  ∃ id st',
    addMovie ttl st = mkOut id [] st' ∧
    id = movieCounter_ st + 1 ∧ 0 < id ∧ movies_ st !! id = None ∧
    movies_ st' = <[id := {| movie_id := id; title := ttl |}]> (movies_ st) ∧
    movieCounter_ st' = id ∧
    getMovieTitle id st' = ttl ∧
    (id, ttl) ∈ getAllMovies st' ∧
    (∀ i, i ≠ id → getMovieTitle i st' = getMovieTitle i st) ∧
    theaters_ st' = theaters_ st ∧ shows_ st' = shows_ st.
Proof.
  intros ((Hmv & _) & _ & _ & Hmax & _)%built_service_ok Hnone.
  pose proof (movie_title_not_filed _ _ Hmv Hnone) as Hnew.
  pose proof Hmv as [(Hc & _) _].
  assert (movies_ st !! (movieCounter_ st + 1) = None) as Hfresh.
  { destruct (movies_ st !! _) eqn:Hm; [|done].
    assert (1 ≤ movieCounter_ st + 1 ≤ movieCounter_ st)
      by (apply movie_ids; eauto). lia. }
  eexists _, _. unfold addMovie. cbv zeta. rewrite Hnew.
  rewrite incr_int_small by lia. unfold emplace. rewrite Hfresh.
  split; [reflexivity|]. cbn [movies_ movieCounter_ theaters_ shows_].
  split_and!; try done; try lia.
  - unfold getMovieTitle. cbn [movies_]. by rewrite lookup_insert_eq.
  - apply elem_of_getAllMovies. cbn [movies_]. eexists.
    by rewrite lookup_insert_eq.
  - intros i Hi. unfold getMovieTitle. cbn [movies_].
    by rewrite lookup_insert_ne.
Qed.

Lemma addMovie_new_title_witness :
  ∃ st', addMovie "Tenet" example_service = mkOut 2 [] st' ∧
         getMovieTitle 2 st' = "Tenet"%string.
Proof.
  destruct (addMovie_new_title example_service "Tenet")
    as (id & st' & Hadd & Hid & _ & _ & _ & _ & Hget & _).
  - apply example_built.
  - intros i m Hm. apply elem_of_map_to_list in Hm. vm_compute in Hm.
    apply list_elem_of_In in Hm. destruct Hm as [[= <- <-]|[]]. by vm_compute.
  - vm_compute in Hid. subst id. by exists st'.
Defined.

(** X2: the same for [addTheater]: a name that no theater has, ignoring
    case, is filed as given under the next value of the counter, which is
    returned; [getTheaterName] of it is the name and [getAllTheaters] lists
    the pair; the name of every other id, the movies and the shows are as
    before. *)
Theorem addTheater_new_name st nm :
  built st →
  (∀ i t, theaters_ st !! i = Some t → toLower (name t) ≠ toLower nm) →
  ∃ id st',
    addTheater nm st = mkOut id [] st' ∧
    id = theaterCounter_ st + 1 ∧ 0 < id ∧ theaters_ st !! id = None ∧
    theaters_ st' = <[id := {| theater_id := id; name := nm |}]> (theaters_ st) ∧
    theaterCounter_ st' = id ∧
    getTheaterName id st' = nm ∧
    (id, nm) ∈ getAllTheaters st' ∧
    (∀ i, i ≠ id → getTheaterName i st' = getTheaterName i st) ∧
    movies_ st' = movies_ st ∧ shows_ st' = shows_ st.
Proof.
  intros ((_ & Hth & _) & _ & _ & _ & Hmax & _)%built_service_ok Hnone.
  pose proof (theater_name_not_filed _ _ Hth Hnone) as Hnew.
  pose proof Hth as [(Hc & _) _].
  assert (theaters_ st !! (theaterCounter_ st + 1) = None) as Hfresh.
  { destruct (theaters_ st !! _) eqn:Hm; [|done].
    assert (1 ≤ theaterCounter_ st + 1 ≤ theaterCounter_ st)
      by (apply theater_ids; eauto). lia. }
  eexists _, _. unfold addTheater. cbv zeta. rewrite Hnew.
  rewrite incr_int_small by lia. unfold emplace. rewrite Hfresh.
  split; [reflexivity|]. cbn [theaters_ theaterCounter_ movies_ shows_].
  split_and!; try done; try lia.
  - unfold getTheaterName. cbn [theaters_]. by rewrite lookup_insert_eq.
  - apply elem_of_getAllTheaters. cbn [theaters_]. eexists.
    by rewrite lookup_insert_eq.
  - intros i Hi. unfold getTheaterName. cbn [theaters_].
    by rewrite lookup_insert_ne.
Qed.

Lemma addTheater_new_name_witness :
  ∃ st', addTheater "IMAX" example_service = mkOut 2 [] st' ∧
         getTheaterName 2 st' = "IMAX"%string.
Proof.
  destruct (addTheater_new_name example_service "IMAX")
    as (id & st' & Hadd & Hid & _ & _ & _ & _ & Hget & _).
  - apply example_built.
  - intros i t Ht. apply elem_of_map_to_list in Ht. vm_compute in Ht.
    apply list_elem_of_In in Ht. destruct Ht as [[= <- <-]|[]]. by vm_compute.
  - vm_compute in Hid. subst id. by exists st'.
Defined.



(** X4: on such a service [addMovie] returns -1 exactly when a movie has
    the title, ignoring case, and [addTheater] exactly when a theater has
    the name; any other return value is positive. *)
Theorem duplicate_detection_exact st nm :
  built st →
  (ret (addMovie nm st) = -1 ↔
   ∃ i m, movies_ st !! i = Some m ∧ toLower (title m) = toLower nm) ∧
  (ret (addMovie nm st) = -1 ∨ 0 < ret (addMovie nm st)) ∧
  (ret (addTheater nm st) = -1 ↔
   ∃ i t, theaters_ st !! i = Some t ∧ toLower (name t) = toLower nm) ∧
  (ret (addTheater nm st) = -1 ∨ 0 < ret (addTheater nm st)).
Proof.
  intros ((Hmv & Hth & _) & _ & _ & Hcm & Hct & _)%built_service_ok.
  pose proof Hmv as [(Hc1 & _) _]. pose proof Hth as [(Hc2 & _) _].
  unfold addMovie, addTheater. cbv zeta.
  destruct (movieNameToId_ st !! toLower nm) as [i|] eqn:Hm;
  destruct (theaterNameToId_ st !! toLower nm) as [j|] eqn:Ht;
    cbn [ret]; rewrite ?incr_int_small by lia; split_and!;
    try (left; reflexivity); try (right; lia);
    try (split; [intros _|done]); try (split; [lia|]).
  all: try (destruct (movie_index_sound _ _ _ Hmv Hm) as (m & ? & ?); by eauto).
  all: try (destruct (theater_index_sound _ _ _ Hth Ht) as (t & ? & ?); by eauto).
  all: try (intros (k & m & Hk%(movie_title_filed _ _ _ Hmv) & Heq); congruence).
  all: try (intros (k & t & Hk%(theater_name_filed _ _ _ Hth) & Heq); congruence).
Qed.

Lemma duplicate_detection_exact_witness :
  built example_service ∧ ret (addMovie "INCEPTION" example_service) = -1.
Proof.
  split; [apply example_built|].
  apply (proj1 (duplicate_detection_exact example_service "INCEPTION"
                  example_built)).
  exists 1, {| movie_id := 1; title := "Inception" |}. split; by vm_compute.
Defined.

(** X5: on such a service the ids in use are the values the counters have
    taken, without a gap: the movies are those of the ids 1 to
    [movieCounter_], each holding its own id, and so for the theaters; the
    shows are those of the ids 1 to [showCounter_]; and [getMovieTitle] and
    [getTheaterName] give the "Unknown" text on every other id. *)
Theorem ids_are_one_to_counter st :
  built st →
  (∀ i, is_Some (movies_ st !! i) ↔ 1 ≤ i ≤ movieCounter_ st) ∧
  (∀ i m, movies_ st !! i = Some m → movie_id m = i) ∧
  (∀ i, is_Some (theaters_ st !! i) ↔ 1 ≤ i ≤ theaterCounter_ st) ∧
  (∀ i t, theaters_ st !! i = Some t → theater_id t = i) ∧
  (∀ i, is_Some (shows_ st !! i) ↔ 1 ≤ i ≤ showCounter_ st) ∧
  (∀ i, ¬ 1 ≤ i ≤ movieCounter_ st → getMovieTitle i st = "Unknown Movie"%string) ∧
  (∀ i, ¬ 1 ≤ i ≤ theaterCounter_ st →
        getTheaterName i st = "Unknown Theater"%string).
Proof.
  intros ((Hmv & Hth & _ & Hidx) & _)%built_service_ok.
  split_and!.
  - intros i. by apply movie_ids.
  - apply Hmv.
  - intros i. by apply theater_ids.
  - apply Hth.
  - apply Hidx.
  - intros i Hi. unfold getMovieTitle.
    destruct (movies_ st !! i) eqn:Hm; [|done].
    destruct Hi. apply movie_ids; eauto.
  - intros i Hi. unfold getTheaterName.
    destruct (theaters_ st !! i) eqn:Hm; [|done].
    destruct Hi. apply theater_ids; eauto.
Qed.

Lemma ids_are_one_to_counter_witness :
  built example_service ∧
  (is_Some (shows_ example_service !! 1) ↔
   1 ≤ 1 ≤ showCounter_ example_service).
Proof.
  split; [apply example_built|].
  destruct (ids_are_one_to_counter example_service example_built)
    as (_ & _ & _ & _ & H & _). exact (H 1).
Defined.

(** X6: in every service that calls build, two shows of the same movie in
    the same theater are one show. *)
Theorem one_show_per_pair st i j s1 s2 :
  reachable st →
  shows_ st !! i = Some s1 → shows_ st !! j = Some s2 →
  movieId s1 = movieId s2 → theaterId s1 = theaterId s2 → i = j.
Proof.
  intros Hcov%reachable_lookup_covers H1%Hcov H2%Hcov Hm Ht.
  rewrite Hm, Ht in H1. congruence.
Qed.

Lemma one_show_per_pair_witness :
  reachable example_service ∧
  shows_ example_service !! 1 = Some (new_show 1 1) ∧ (1 : Z) = 1.
Proof.
  split; [apply example_reachable|]. split; [by vm_compute|].
  apply (one_show_per_pair example_service 1 1 (new_show 1 1) (new_show 1 1));
    [apply example_reachable|by vm_compute..].
Defined.

Section ListingFacts.

Implicit Types (st : BookingService) (s : Show).

Lemma count_free_le (seats : list bool) :
  count_free seats ≤ Z.of_nat (length seats).
Proof.
  unfold count_free. pose proof (length_filter (λ b, b = false) seats). lia.
Qed.

Lemma omap_total {A B} (f : A → option B) (g : A → B) (l : list A) :
  (∀ x, x ∈ l → f x = Some (g x)) → omap f l = g <$> l.
Proof.
  induction l as [|x l IH]; intros Hf; csimpl; [done|].
  rewrite (Hf x) by left. rewrite IH; [done|]. intros y Hy. apply Hf. by right.
Qed.

End ListingFacts.

(** X7: in every service that calls build, [getAllShows] has one entry for
    each show and no other, no show id twice; the [availableSeats] of an
    entry is between 0 and TOTAL_SEATS and is the number of labels that
    [getAvailableSeats] returns for the show. *)
Theorem getAllShows_reports st :
  reachable st →
  NoDup (show_id <$> getAllShows st) ∧
  length (getAllShows st) = size (shows_ st) ∧
  (∀ i, is_Some (shows_ st !! i) ↔ i ∈ show_id <$> getAllShows st) ∧
  (∀ info, info ∈ getAllShows st →
     0 ≤ availableSeats info ≤ TOTAL_SEATS ∧
     ∃ labels, getAvailableSeats (show_id info) st = Ret labels ∧
       Z.of_nat (length labels) = availableSeats info).
Proof.
  intros Hok%reachable_shows_ok. split_and!.
  - rewrite getAllShows_ids. apply NoDup_fst_map_to_list.
  - unfold getAllShows. by rewrite length_fmap, length_map_to_list.
  - intros i. rewrite getAllShows_ids, list_elem_of_fmap. split.
    + intros [s Hs]. exists (i, s). by rewrite elem_of_map_to_list.
    + intros ([j s] & -> & Hs%elem_of_map_to_list). by exists s.
  - intros info (s & Hs & _ & _ & ->)%elem_of_getAllShows.
    pose proof (Hok _ _ Hs) as Hsok. pose proof Hsok as [Hlen Hcount].
    pose proof (count_free_nonneg (seats s)).
    pose proof (count_free_le (seats s)).
    split; [lia|]. eexists. split; [by apply getAvailableSeats_ok|].
    by rewrite length_fmap, free_indices_length.
Qed.

Lemma getAllShows_reports_witness :
  reachable example_service ∧
  length (getAllShows example_service) = size (shows_ example_service).
Proof.
  split; [apply example_reachable|].
  apply (getAllShows_reports example_service example_reachable).
Defined.

(** X8: on a service built by fewer calls than an [int] counts, every show
    is of a movie and a theater that exist, so the titles and names in
    [getAllShows] are those of the movie and the theater of the show, as
    [getAllMovies] and [getAllTheaters] list them, never the "Unknown"
    text for a missing id. *)
Theorem getAllShows_names_real st info :
  built st → info ∈ getAllShows st →
  ∃ s mv th,
    shows_ st !! show_id info = Some s ∧
    movies_ st !! movieId s = Some mv ∧ theaters_ st !! theaterId s = Some th ∧
    movieTitle info = title mv ∧ theaterName info = name th ∧
    (movieId s, movieTitle info) ∈ getAllMovies st ∧
    (theaterId s, theaterName info) ∈ getAllTheaters st.
Proof.
  intros ((_ & _ & _ & _ & Href & _) & _)%built_service_ok
    (s & Hs & Hm & Ht & _)%elem_of_getAllShows.
  destruct (Href _ _ Hs) as [[mv Hmv] [th Hth]].
  unfold getMovieTitle in Hm. unfold getTheaterName in Ht.
  rewrite Hmv in Hm. rewrite Hth in Ht.
  exists s, mv, th. split_and!; try done.
  - apply elem_of_getAllMovies. by exists mv.
  - apply elem_of_getAllTheaters. by exists th.
Qed.

Lemma getAllShows_names_real_witness :
  ∃ s mv th,
    shows_ example_service !! 1 = Some s ∧
    movies_ example_service !! movieId s = Some mv ∧
    theaters_ example_service !! theaterId s = Some th ∧
    title mv = "Inception"%string ∧ name th = "Cineplex"%string.
Proof.
  destruct (getAllShows_names_real example_service
              {| show_id := 1; movieTitle := "Inception";
                 theaterName := "Cineplex"; availableSeats := 20 |})
    as (s & mv & th & Hs & Hmv & Hth & Hm & Ht & _).
  - apply example_built.
  - vm_compute. left.
  - exists s, mv, th. simpl in *. by split_and!.
Defined.

(** X9: on such a service [listMovies] returns [true] exactly when a show
    exists; when it returns [false] it writes the one line "No movies
    currently playing", and otherwise a heading and then one line for each
    movie that has a show, with its id and its title, and for no other
    movie. *)
Theorem listMovies_lists_active st :
  built st →
  ((listMovies st).1 = true ↔ ∃ i s, shows_ st !! i = Some s) ∧
  ((listMovies st).1 = false → (listMovies st).2 = [NoMoviesPlaying]) ∧
  ((listMovies st).1 = true →
   ∃ ids, NoDup ids ∧
     (∀ m, m ∈ ids ↔ ∃ i s, shows_ st !! i = Some s ∧ movieId s = m) ∧
     (∀ m, m ∈ ids → is_Some (movies_ st !! m)) ∧
     (listMovies st).2 =
       MoviesPlaying :: ((λ m, MovieLine m (getMovieTitle m st)) <$> ids)).
Proof.
  intros ((_ & _ & _ & _ & Href & Hact & _) & _)%built_service_ok.
  assert (∀ m, m ∈ activeMovies_ st → is_Some (movies_ st !! m)) as Hreal.
  { intros m (i & s & Hs & <-)%Hact. by apply (Href _ _ Hs). }
  unfold listMovies. case_decide as Hempty; cbn [fst snd]; split_and!; try done.
  - split; [done|]. intros (i & s & Hs).
    assert (movieId s ∈ activeMovies_ st) as Hin by (apply Hact; eauto).
    rewrite Hempty in Hin. by apply elem_of_empty in Hin.
  - split; [intros _|done].
    apply set_choose_L in Hempty as [m (i & s & Hs & _)%Hact]. eauto.
  - intros _. exists (elements (activeMovies_ st)). split_and!.
    + apply NoDup_elements.
    + intros m. by rewrite elem_of_elements.
    + intros m Hm%elem_of_elements. by apply Hreal.
    + f_equal. apply omap_total. intros m Hm%elem_of_elements.
      destruct (Hreal _ Hm) as [mv Hmv]. unfold getMovieTitle.
      by rewrite Hmv.
Qed.

Lemma listMovies_lists_active_witness :
  built example_service ∧ (listMovies example_service).1 = true.
Proof.
  split; [apply example_built|].
  apply (proj1 (listMovies_lists_active example_service example_built)).
  exists 1, (new_show 1 1). by vm_compute.
Defined.

(** X10: on such a service [listTheatersForMovie] writes the one line "No
    theaters found for this movie" exactly when the movie has no show;
    otherwise it writes a heading with the title of the movie and then one
    line for each theater that has a show of the movie, with its id and its
    name, and for no other theater. *)
Theorem listTheatersForMovie_lists_shows st m :
  built st →
  (listTheatersForMovie m st = [NoTheatersFound] ↔
   ¬ ∃ i s, shows_ st !! i = Some s ∧ movieId s = m) ∧
  ((∃ i s, shows_ st !! i = Some s ∧ movieId s = m) →
   ∃ ids, NoDup ids ∧
     (∀ t, t ∈ ids ↔ ∃ i s, shows_ st !! i = Some s ∧ show_for m t s) ∧
     (∀ t, t ∈ ids → is_Some (theaters_ st !! t)) ∧
     is_Some (movies_ st !! m) ∧
     listTheatersForMovie m st =
       TheatersShowing (getMovieTitle m st) ::
       ((λ t, TheaterLine t (getTheaterName t st)) <$> ids)).
Proof.
  intros ((_ & _ & _ & _ & Href & _ & Hmt) & _)%built_service_ok.
  assert ((∃ i s, shows_ st !! i = Some s ∧ movieId s = m) ↔
          ∃ t, t ∈ default ∅ (movieToTheaters_ st !! m)) as Hany.
  { split.
    - intros (i & s & Hs & Hm). exists (theaterId s). apply Hmt.
      by exists i, s.
    - intros (t & (i & s & Hs & Hm & _)%Hmt). eauto. }
  unfold listTheatersForMovie.
  destruct (movieToTheaters_ st !! m) as [ts|] eqn:Hts; simpl in Hany.
  2: { split; [|intros Hex%Hany; destruct Hex as [t Ht]; by apply elem_of_empty in Ht].
       split; [intros _|done]. intros [t Ht]%Hany. by apply elem_of_empty in Ht. }
  case_decide as Hempty.
  { subst ts.
    split; [|intros Hex%Hany; destruct Hex as [t Ht]; by apply elem_of_empty in Ht].
    split; [intros _|done]. intros [t Ht]%Hany. by apply elem_of_empty in Ht. }
  split.
  { split; [done|]. intros Hno. apply set_choose_L in Hempty.
    destruct Hno. by apply Hany. }
  intros (i & s & Hs & Hm). exists (elements ts). split_and!.
  - apply NoDup_elements.
  - intros t. rewrite elem_of_elements, <-Hmt, Hts. done.
  - intros t Ht%elem_of_elements.
    assert (t ∈ default ∅ (movieToTheaters_ st !! m)) as Hin by (by rewrite Hts).
    apply Hmt in Hin as (j & s' & Hs' & _ & <-). by apply (Href _ _ Hs').
  - subst m. by apply (Href _ _ Hs).
  - done.
Qed.

Lemma listTheatersForMovie_lists_shows_witness :
  built example_service ∧
  ∃ ids, listTheatersForMovie 1 example_service =
           TheatersShowing (getMovieTitle 1 example_service) ::
           ((λ t, TheaterLine t (getTheaterName t example_service)) <$> ids).
Proof.
  split; [apply example_built|].
  destruct (proj2 (listTheatersForMovie_lists_shows example_service 1
                     example_built)) as (ids & _ & _ & _ & _ & H).
  - exists 1, (new_show 1 1). by vm_compute.
  - by exists ids.
Defined.

(** ** More on the reservation engine *)

Section EngineFacts.

Implicit Types (st : BookingService) (s : Show) (labels : list string).

Lemma show_kept_refl s : show_kept s s.
Proof. unfold show_kept. by split_and!. Qed.

Lemma show_kept_trans s1 s2 s3 :
  show_kept s1 s2 → show_kept s2 s3 → show_kept s1 s3.
Proof.
  intros (? & ? & ? & H12 & ?) (? & ? & ? & H23 & ?).
  unfold show_kept. split_and!; [congruence..| |lia].
  intros i Hi. by apply H23, H12.
Qed.

Lemma booked_kept s idxs : show_kept s (booked s idxs).
Proof.
  unfold show_kept, booked. cbn [movieId theaterId seats availableCount].
  split_and!; [done|done|apply commit_length| |rewrite commit_count; lia].
  intros i Hi. by apply commit_keeps_taken.
Qed.

Lemma effect_show_kept st st' i s :
  Effect st st' → shows_ st !! i = Some s →
  ∃ s', shows_ st' !! i = Some s' ∧ show_kept s s'.
Proof.
  intros Heff Hi.
  destruct Heff as [|ttl Hnew|nm Hnew|m t mv th Hm Ht Hnew
                   |showId s0 labels idxs Hs Hv];
    try (exists s; split; [done|apply show_kept_refl]).
  - rewrite (createShow_fresh_pair _ _ _ _ _ Hm Ht Hnew). cbn [post shows_].
    exists s. split; [|apply show_kept_refl]. by rewrite lookup_emplace, Hi.
  - cbn [set_show shows_]. destruct (decide (showId = i)) as [->|Hne].
    + exists (booked s0 idxs). rewrite lookup_insert_eq.
      split; [done|]. replace s with s0 by congruence. apply booked_kept.
    + exists s. rewrite lookup_insert_ne by done.
      split; [done|apply show_kept_refl].
Qed.

Lemma run_show_kept calls :
  ∀ st st' i s,
    run calls st = Some st' → shows_ st !! i = Some s →
    ∃ s', shows_ st' !! i = Some s' ∧ show_kept s s'.
Proof.
  induction calls as [|c calls IH]; intros st st' i s; simpl.
  { intros [= <-] Hi. exists s. split; [done|apply show_kept_refl]. }
  destruct (step c st) as [st1|] eqn:Hstep; [|done]. intros Hrun Hi.
  destruct (effect_show_kept _ _ _ _ (step_effect _ _ _ Hstep) Hi)
    as (s1 & Hs1 & Hk1).
  destruct (IH _ _ _ _ Hrun Hs1) as (s' & Hs' & Hk').
  exists s'. split; [done|]. by eapply show_kept_trans.
Qed.

(** Movies and theaters, once filed, stay as they are. *)
Lemma effect_entities_kept st st' :
  Effect st st' →
  (∀ i m, movies_ st !! i = Some m → movies_ st' !! i = Some m) ∧
  (∀ i t, theaters_ st !! i = Some t → theaters_ st' !! i = Some t).
Proof.
  intros Heff.
  destruct Heff as [|ttl Hnew|nm Hnew|m t mv th Hm Ht Hnew
                   |showId s0 labels idxs Hs Hv]; try done.
  - split; [|done]. intros i m Hi. cbn [movies_].
    by rewrite lookup_emplace, Hi.
  - split; [done|]. intros i t Hi. cbn [theaters_].
    by rewrite lookup_emplace, Hi.
  - by rewrite (createShow_fresh_pair _ _ _ _ _ Hm Ht Hnew).
Qed.

Lemma run_entities_kept calls :
  ∀ st st',
    run calls st = Some st' →
    (∀ i m, movies_ st !! i = Some m → movies_ st' !! i = Some m) ∧
    (∀ i t, theaters_ st !! i = Some t → theaters_ st' !! i = Some t).
Proof.
  induction calls as [|c calls IH]; intros st st'; simpl.
  { by intros [= <-]. }
  destruct (step c st) as [st1|] eqn:Hstep; [|done]. intros Hrun.
  destruct (effect_entities_kept _ _ (step_effect _ _ _ Hstep)) as [Hm1 Ht1].
  destruct (IH _ _ Hrun) as [Hm' Ht']. split.
  - intros i m Hi. by apply Hm', Hm1.
  - intros i t Hi. by apply Ht', Ht1.
Qed.

(** A booking that returns [true] was accepted on the decoded labels. *)
Lemma bookSeats_true st showId labels o :
  bookSeats showId labels st = Ret o → ret o = true →
  ∃ s, shows_ st !! showId = Some s ∧
    validate (seats s) 0 [] labels = Accepted (seatIndexFromLabel <$> labels) ∧
    o = mkOut true [] (set_show showId (booked s (seatIndexFromLabel <$> labels)) st).
Proof.
  unfold bookSeats. destruct (shows_ st !! showId) as [s|] eqn:Hs.
  2: { by intros [= <-]. }
  destruct (validate _ _ _ _) as [d|idxs|] eqn:Hv; [| |done].
  { by intros [= <-]. }
  pose proof Hv as (-> & _)%validate_accepted; [|apply seen_agrees_empty].
  rewrite app_nil_l in *.
  destruct (commit _ _ _) as [seats' count'] eqn:Hc. intros [= <-] _.
  exists s. split_and!; [done..|]. unfold booked. by rewrite Hc.
Qed.

Lemma bookable_iff_accepted s labels :
  Z.of_nat (length (seats s)) = TOTAL_SEATS →
  Forall (free_seat s) labels ∧ NoDup (seatIndexFromLabel <$> labels) ↔
  validate (seats s) 0 [] labels = Accepted (seatIndexFromLabel <$> labels).
Proof.
  intros Hlen. split.
  - intros [Hfree Hnd]. by apply validate_request.
  - intros (_ & Hfree & Hnd)%validate_accepted; [|apply seen_agrees_empty].
    split; [done|]. apply Hnd. constructor.
Qed.

End EngineFacts.

(** X11: whatever calls follow, a show stays in the service under its id,
    with the same movie and theater and the same number of seats; a seat
    that is taken stays taken, and [availableCount] never grows.  Nothing
    frees a seat or removes a show. *)
Theorem seats_never_freed calls st st' i s :
  run calls st = Some st' → shows_ st !! i = Some s →
  ∃ s', shows_ st' !! i = Some s' ∧
    movieId s' = movieId s ∧ theaterId s' = theaterId s ∧
    length (seats s') = length (seats s) ∧
    (∀ k, seats s !! k = Some true → seats s' !! k = Some true) ∧
    availableCount s' ≤ availableCount s.
Proof. apply run_show_kept. Qed.

Lemma seats_never_freed_witness :
  ∃ s', shows_ (post (addMovie "Tenet" example_service)) !! 1 = Some s' ∧
        availableCount s' ≤ availableCount (new_show 1 1).
Proof.
  destruct (seats_never_freed [CallAddMovie "Tenet"] example_service
              (post (addMovie "Tenet" example_service)) 1 (new_show 1 1))
    as (s' & Hs' & _ & _ & _ & _ & Hc).
  - reflexivity.
  - by vm_compute.
  - by exists s'.
Defined.

(** X12: whatever calls follow, a movie and a theater stay in the service
    under their id with their id and title or name unchanged. *)
Theorem entities_never_change calls st st' :
  run calls st = Some st' →
  (∀ i m, movies_ st !! i = Some m →
     movies_ st' !! i = Some m ∧ getMovieTitle i st' = title m) ∧
  (∀ i t, theaters_ st !! i = Some t →
     theaters_ st' !! i = Some t ∧ getTheaterName i st' = name t).
Proof.
  intros [Hm Ht]%run_entities_kept. split.
  - intros i m Hi%Hm. split; [done|]. unfold getMovieTitle. by rewrite Hi.
  - intros i t Hi%Ht. split; [done|]. unfold getTheaterName. by rewrite Hi.
Qed.

Lemma entities_never_change_witness :
  getMovieTitle 1 (post (createShow 1 1 example_service)) = "Inception"%string.
Proof.
  destruct (entities_never_change [CallCreateShow 1 1] example_service
              (post (createShow 1 1 example_service))) as [H _].
  - reflexivity.
  - apply (H 1 {| movie_id := 1; title := "Inception" |}). by vm_compute.
Defined.

Section RequestAlgebra.

Implicit Types (st : BookingService) (s : Show) (labels : list string)
  (seats : list bool) (tmp : list Z).

Lemma commit_app tmp1 tmp2 :
  ∀ seats c,
    commit (tmp1 ++ tmp2) seats c =
    commit tmp2 (commit tmp1 seats c).1 (commit tmp1 seats c).2.
Proof.
  induction tmp1 as [|i tmp1 IH]; intros seats c; simpl; [done|]. apply IH.
Qed.

Lemma commit_perm tmp1 tmp2 :
  tmp1 ≡ₚ tmp2 → ∀ seats c, commit tmp1 seats c = commit tmp2 seats c.
Proof.
  induction 1 as [|i tmp1 tmp2 _ IH|i j tmp|tmp1 tmp2 tmp3 _ IH1 _ IH2];
    intros seats c; simpl.
  - done.
  - apply IH.
  - destruct (decide (Z.to_nat i = Z.to_nat j)) as [->|Hne]; [done|].
    by rewrite list_insert_insert_ne.
  - by rewrite IH1.
Qed.

(** A seat that is free after the second loop was free before it and is
    not one of the loop's. *)
Lemma commit_free_after tmp :
  ∀ seats c i,
    (commit tmp seats c).1 !! i = Some false →
    seats !! i = Some false ∧ ∀ idx, idx ∈ tmp → Z.to_nat idx ≠ i.
Proof.
  induction tmp as [|idx tmp IH]; intros seats c i; simpl.
  { intros Hi. split; [done|]. intros idx Hin. by apply elem_of_nil in Hin. }
  intros [Hi Hnot]%IH. rewrite list_lookup_insert in Hi.
  case_decide as Hd; [done|]. split; [done|].
  intros idx' [->|Hin]%elem_of_cons; [|by apply Hnot].
  intros <-. apply Hd. split; [done|]. by eapply lookup_lt_Some.
Qed.

Lemma booked_nil s : booked s [] = s.
Proof. by destruct s. Qed.

Lemma set_show_same st showId s :
  shows_ st !! showId = Some s → set_show showId s st = st.
Proof.
  intros Hs. unfold set_show. rewrite insert_id by done. by destruct st.
Qed.

Lemma set_show_twice st showId s1 s2 :
  set_show showId s2 (set_show showId s1 st) = set_show showId s2 st.
Proof. unfold set_show. cbn [shows_]. by rewrite insert_insert_eq. Qed.

Lemma booked_app s idxs1 idxs2 :
  booked (booked s idxs1) idxs2 = booked s (idxs1 ++ idxs2).
Proof.
  unfold booked. cbn [movieId theaterId seats availableCount].
  by rewrite commit_app.
Qed.

Lemma booked_perm s idxs1 idxs2 :
  idxs1 ≡ₚ idxs2 → booked s idxs1 = booked s idxs2.
Proof. intros Hp. unfold booked. by rewrite (commit_perm _ _ Hp). Qed.

Lemma free_in_booked s idxs l :
  Forall (λ idx, 0 ≤ idx) idxs →
  free_seat (booked s idxs) l ↔
  free_seat s l ∧ seatIndexFromLabel l ∉ idxs.
Proof.
  intros Hnn. unfold free_seat, booked. cbn [seats]. split.
  - intros [Hl [Hfree Hnot]%commit_free_after]. split_and!; [done..|].
    intros Hin. by apply (Hnot _ Hin).
  - intros [[Hl Hfree] Hnot]. split; [done|]. rewrite commit_other; [done|].
    intros idx Hin Heq. rewrite Forall_forall in Hnn.
    apply Z2Nat.inj in Heq; [|by apply Hnn|done]. by subst.
Qed.

(** The bookable requests of a show, split in two. *)
Lemma bookable_app s l1 l2 :
  Forall (free_seat s) (l1 ++ l2) ∧
  NoDup (seatIndexFromLabel <$> l1 ++ l2) ↔
  (Forall (free_seat s) l1 ∧ NoDup (seatIndexFromLabel <$> l1)) ∧
  (Forall (free_seat (booked s (seatIndexFromLabel <$> l1))) l2 ∧
   NoDup (seatIndexFromLabel <$> l2)).
Proof.
  rewrite fmap_app, Forall_app, NoDup_app. split.
  - intros [[Hf1 Hf2] (Hn1 & Hdis & Hn2)]. split_and!; try done.
    rewrite Forall_forall in Hf1, Hf2 |- *. intros l Hl.
    apply free_in_booked.
    + apply Forall_fmap, Forall_forall. intros l' Hl'. by apply Hf1.
    + split; [by apply Hf2|]. intros Hin. apply (Hdis _ Hin).
      by apply list_elem_of_fmap_2.
  - intros [[Hf1 Hn1] [Hf2 Hn2]].
    assert (Forall (λ idx, 0 ≤ idx) (seatIndexFromLabel <$> l1)) as Hnn.
    { rewrite Forall_forall in Hf1. apply Forall_fmap, Forall_forall.
      intros l' Hl'. by apply Hf1. }
    rewrite Forall_forall in Hf2. split_and!; try done.
    + apply Forall_forall. intros l Hl.
      by apply (free_in_booked _ _ _ Hnn), Hf2.
    + intros idx Hin (l & -> & Hl)%list_elem_of_fmap.
      apply Hf2, (free_in_booked _ _ _ Hnn) in Hl as [_ Hnot]. done.
Qed.

Lemma bookable_perm s labels labels' :
  labels ≡ₚ labels' →
  Forall (free_seat s) labels ∧ NoDup (seatIndexFromLabel <$> labels) →
  Forall (free_seat s) labels' ∧ NoDup (seatIndexFromLabel <$> labels').
Proof. intros Hp. by rewrite Hp. Qed.

End RequestAlgebra.

(** X13: no seat is sold twice.  After a booking that returned [true] on a
    service that calls have built, and whatever calls follow it, every
    request for the same show with a label that decodes to the index of
    one of the booked labels is refused, and leaves the service as it
    is. *)
Theorem booked_seat_stays_refused st showId labels o calls st2 l labels2 l2 :
  reachable st →
  bookSeats showId labels st = Ret o → ret o = true →
  run calls (post o) = Some st2 →
  l ∈ labels → l2 ∈ labels2 → seatIndexFromLabel l2 = seatIndexFromLabel l →
  ∃ d, bookSeats showId labels2 st2 = Ret (mkOut false [d] st2).
Proof.
  intros Hreach Hbook Hret Hrun Hl Hl2 Heq.
  destruct (bookSeats_true _ _ _ _ Hbook Hret) as (s & Hs & Hv & ->).
  cbn [post] in Hrun.
  assert (reachable st2) as Hreach2.
  { eapply (reachable_run (CallBookSeats showId labels :: calls)); [done|].
    simpl. by rewrite Hbook. }
  apply validate_accepted in Hv as (_ & Hfree & _); [|apply seen_agrees_empty].
  rewrite Forall_forall in Hfree. destruct (Hfree _ Hl) as [Hidx Hseat].
  destruct (run_show_kept calls _ _ showId
              (booked s (seatIndexFromLabel <$> labels)) Hrun)
    as (s2 & Hs2 & _ & _ & _ & Hkeep & _).
  { cbn [set_show shows_]. apply lookup_insert_eq. }
  assert (seats s2 !! Z.to_nat (seatIndexFromLabel l) = Some true) as Htaken.
  { apply Hkeep. cbn [booked seats]. apply commit_takes.
    - by apply list_elem_of_fmap_2.
    - by eapply lookup_lt_Some. }
  destruct (reachable_shows_ok _ Hreach2 _ _ Hs2) as [Hlen _].
  destruct (validate_request_bad (seats s2) labels2 Hlen) as [d Hd].
  { apply bad_request_not_bookable. right; right. exists l2.
    split; [done|]. unfold occupied. by rewrite Heq. }
  exists d. by eapply bookSeats_refused.
Qed.

Lemma booked_seat_stays_refused_witness :
  ∃ d, bookSeats 1 ["A2"; "A01"]%string
         (set_show 1 (booked (new_show 1 1) [0]) example_service) =
       Ret (mkOut false [d]
              (set_show 1 (booked (new_show 1 1) [0]) example_service)).
Proof.
  apply (booked_seat_stays_refused example_service 1 ["A1"]%string
           (mkOut true [] (set_show 1 (booked (new_show 1 1) [0]) example_service))
           [] _ "A1" ["A2"; "A01"]%string "A01").
  - apply example_reachable.
  - by vm_compute.
  - reflexivity.
  - reflexivity.
  - left.
  - right; left.
  - reflexivity.
Defined.

(** X14: an empty request on a show that exists returns [true], writes
    nothing and leaves the service as it is. *)
Theorem empty_request_books_nothing st showId :
  is_Some (shows_ st !! showId) →
  bookSeats showId [] st = Ret (mkOut true [] st).
Proof.
  intros [s Hs]. rewrite (bookSeats_accepted st showId s [] []) by done.
  by rewrite booked_nil, set_show_same.
Qed.

Lemma empty_request_books_nothing_witness :
  bookSeats 1 [] example_service = Ret (mkOut true [] example_service).
Proof.
  apply empty_request_books_nothing. vm_compute. by eexists.
Defined.

(** X15: on a show of a service that calls have built, a request of more
    labels than the show has seats is refused and leaves the service as it
    is: the array [tmpIndices] is never written beyond its end. *)
Theorem long_request_refused st showId s seatLabels :
  reachable st → shows_ st !! showId = Some s →
  TOTAL_SEATS < Z.of_nat (length seatLabels) →
  ∃ d, bookSeats showId seatLabels st = Ret (mkOut false [d] st).
Proof.
  intros Hok%reachable_shows_ok Hs Hlong.
  destruct (Hok _ _ Hs) as [Hlen _].
  destruct (validate_request_bad (seats s) seatLabels Hlen) as [d Hd].
  { intros [Hfree Hnd].
    pose proof (distinct_indices_fit _ Hnd) as Hfit.
    rewrite length_fmap in Hfit. enough (Z.of_nat (length seatLabels) ≤ TOTAL_SEATS) by lia.
    apply Hfit, Forall_fmap, Forall_forall. intros l Hl.
    rewrite Forall_forall in Hfree. destruct (Hfree _ Hl) as [? _].
    pose proof (seatIndexFromLabel_range l). simpl. lia. }
  exists d. by eapply bookSeats_refused.
Qed.

Lemma long_request_refused_witness :
  ∃ d, bookSeats 1 (replicate 21 "A1"%string) example_service =
       Ret (mkOut false [d] example_service).
Proof.
  apply (long_request_refused example_service 1 (new_show 1 1)).
  - apply example_reachable.
  - by vm_compute.
  - by vm_compute.
Defined.

(** X16: the order of the labels of a request does not matter: on a
    service that calls have built, a request and a permutation of it both
    return, with the same value and the same service afterwards. *)
Theorem request_order_irrelevant st showId labels labels' :
  reachable st → labels ≡ₚ labels' →
  ∃ o o',
    bookSeats showId labels st = Ret o ∧ bookSeats showId labels' st = Ret o' ∧
    ret o = ret o' ∧ post o = post o'.
Proof.
  intros Hok%reachable_shows_ok Hp.
  destruct (shows_ st !! showId) as [s|] eqn:Hs.
  2: { rewrite !bookSeats_unknown by done. by eexists _, _. }
  destruct (Hok _ _ Hs) as [Hlen _].
  destruct (validate (seats s) 0 [] labels) as [d|idxs|] eqn:Hv.
  - destruct (validate_request_bad (seats s) labels' Hlen) as [d' Hd'].
    { intros Hb. symmetry in Hp. apply (bookable_perm _ _ _ Hp) in Hb as [Hf Hn].
      by rewrite (validate_request _ _ Hlen Hf Hn) in Hv. }
    rewrite (bookSeats_refused _ _ _ _ _ Hs Hv).
    rewrite (bookSeats_refused _ _ _ _ _ Hs Hd'). by eexists _, _.
  - pose proof Hv as (-> & Hf & Hn)%validate_accepted; [|apply seen_agrees_empty].
    rewrite app_nil_l in *. specialize (Hn (NoDup_nil_2 (A:=Z))).
    destruct (bookable_perm s _ _ Hp (conj Hf Hn)) as [Hf' Hn'].
    rewrite (bookSeats_accepted _ _ _ _ _ Hs Hv).
    rewrite (bookSeats_accepted _ _ _ _ _ Hs (validate_request _ _ Hlen Hf' Hn')).
    eexists _, _. split_and!; [done..|]. cbn [post].
    by rewrite (booked_perm s _ _ (fmap_Permutation _ _ _ Hp)).
  - by apply validate_request_in_bounds in Hv.
Qed.

Lemma request_order_irrelevant_witness :
  ∃ o o',
    bookSeats 1 ["A1"; "A2"]%string example_service = Ret o ∧
    bookSeats 1 ["A2"; "A1"]%string example_service = Ret o' ∧
    ret o = ret o' ∧ post o = post o'.
Proof.
  apply request_order_irrelevant; [apply example_reachable|].
  apply Permutation_swap.
Defined.

(** X17: booking in one request or in two is the same: on a service that
    calls have built, the request of the labels of two requests, one after
    the other, returns [true] exactly when the first request returns
    [true] and then the second does, and the service afterwards is the
    same. *)
Theorem booking_in_two_steps st showId labels1 labels2 st' :
  reachable st →
  bookSeats showId (labels1 ++ labels2) st = Ret (mkOut true [] st') ↔
  ∃ st1, bookSeats showId labels1 st = Ret (mkOut true [] st1) ∧
         bookSeats showId labels2 st1 = Ret (mkOut true [] st').
Proof.
  intros Hok%reachable_shows_ok.
  destruct (shows_ st !! showId) as [s|] eqn:Hs.
  2: { rewrite !bookSeats_unknown by done. split; [done|].
       by intros (st1 & [=] & _). }
  pose proof (Hok _ _ Hs) as Hsok. pose proof Hsok as [Hlen _].
  assert (∀ Hb1 : Forall (free_seat s) labels1 ∧ NoDup (seatIndexFromLabel <$> labels1),
            show_ok (booked s (seatIndexFromLabel <$> labels1))) as Hok1.
  { intros [Hf Hn]. eapply booked_ok; [done|]. by apply validate_request. }
  assert (shows_ (set_show showId (booked s (seatIndexFromLabel <$> labels1)) st) !! showId =
          Some (booked s (seatIndexFromLabel <$> labels1))) as Hs1.
  { cbn [set_show shows_]. apply lookup_insert_eq. }
  split.
  - intros Hbook.
    destruct (bookSeats_true _ _ _ _ Hbook eq_refl) as (s0 & Hs0 & Hv & [= ->]).
    replace s0 with s in * by congruence.
    apply (bookable_iff_accepted _ _ Hlen), bookable_app in Hv
      as [[Hf1 Hn1] [Hf2 Hn2]].
    exists (set_show showId (booked s (seatIndexFromLabel <$> labels1)) st). split.
    + apply bookSeats_accepted; [done|]. by apply validate_request.
    + destruct (Hok1 (conj Hf1 Hn1)) as [Hlen1 _].
      rewrite (bookSeats_accepted _ _ _ _ _ Hs1
                 (validate_request _ _ Hlen1 Hf2 Hn2)).
      by rewrite set_show_twice, booked_app, fmap_app.
  - intros (st1 & Hb1 & Hb2).
    destruct (bookSeats_true _ _ _ _ Hb1 eq_refl) as (s0 & Hs0 & Hv1 & [= ->]).
    replace s0 with s in * by congruence.
    apply (bookable_iff_accepted _ _ Hlen) in Hv1 as Hbk1.
    destruct (Hok1 Hbk1) as [Hlen1 _].
    destruct (bookSeats_true _ _ _ _ Hb2 eq_refl) as (s1 & Hs1' & Hv2 & [= ->]).
    replace s1 with (booked s (seatIndexFromLabel <$> labels1)) in * by congruence.
    apply (bookable_iff_accepted _ _ Hlen1) in Hv2 as Hbk2.
    destruct (proj2 (bookable_app s labels1 labels2) (conj Hbk1 Hbk2)) as [Hf Hn].
    rewrite (bookSeats_accepted _ _ _ _ _ Hs (validate_request _ _ Hlen Hf Hn)).
    by rewrite set_show_twice, booked_app, fmap_app.
Qed.

Lemma booking_in_two_steps_witness :
  ∃ st1, bookSeats 1 ["A1"]%string example_service = Ret (mkOut true [] st1) ∧
         bookSeats 1 ["A2"]%string st1 =
           Ret (mkOut true []
                  (set_show 1 (booked (new_show 1 1) [0; 1]) example_service)).
Proof.
  apply (proj1 (booking_in_two_steps example_service 1 ["A1"]%string
                  ["A2"]%string _ example_reachable)).
  by vm_compute.
Defined.

(** X18: a booking is about one show: whatever [bookSeats] returns, the
    movies, the theaters, the indexes and the counters are as before,
    the shows under every other id are as before, and so is what
    [getAvailableSeats] gives for them. *)
Theorem bookSeats_touches_one_show st showId seatLabels o :
  bookSeats showId seatLabels st = Ret o →
  movies_ (post o) = movies_ st ∧ theaters_ (post o) = theaters_ st ∧
  movieNameToId_ (post o) = movieNameToId_ st ∧
  theaterNameToId_ (post o) = theaterNameToId_ st ∧
  showLookup_ (post o) = showLookup_ st ∧
  activeMovies_ (post o) = activeMovies_ st ∧
  movieToTheaters_ (post o) = movieToTheaters_ st ∧
  movieCounter_ (post o) = movieCounter_ st ∧
  theaterCounter_ (post o) = theaterCounter_ st ∧
  showCounter_ (post o) = showCounter_ st ∧
  (∀ j, j ≠ showId →
     shows_ (post o) !! j = shows_ st !! j ∧
     getAvailableSeats j (post o) = getAvailableSeats j st).
Proof.
  intros [-> | (s & idxs & Hs & _ & ->)]%bookSeats_post; [done|].
  split_and!; try done. intros j Hj.
  unfold getAvailableSeats. cbn [set_show shows_].
  by rewrite lookup_insert_ne.
Qed.

Lemma bookSeats_touches_one_show_witness :
  getAvailableSeats 2
    (set_show 1 (booked (new_show 1 1) [0]) example_service) =
  getAvailableSeats 2 example_service.
Proof.
  apply (bookSeats_touches_one_show example_service 1 ["A1"]%string
           (mkOut true [] (set_show 1 (booked (new_show 1 1) [0]) example_service))).
  - by vm_compute.
  - done.
Defined.

(** ** More on the seat codec *)

Section Printer.

Lemma digit_char_digit d :
  0 ≤ d ≤ 9 →
  is_digit (digit_char d) = true ∧ code (digit_char d) - code "0" = d.
Proof.
  intros Hd.
  assert (d = 0 ∨ d = 1 ∨ d = 2 ∨ d = 3 ∨ d = 4 ∨ d = 5 ∨ d = 6 ∨ d = 7 ∨
          d = 8 ∨ d = 9) as Hcases by lia.
  repeat destruct Hcases as [->|Hcases]; try subst d; by vm_compute.
Qed.

(** [decimal] puts before [acc] the digits of [n], most significant
    first. *)
Lemma decimal_spec fuel :
  ∀ n acc,
    (0 < fuel)%nat → 0 ≤ n < 10 ^ Z.of_nat fuel →
    all_digits (decimal fuel n acc) = all_digits acc ∧
    ∃ k, 0 ≤ k ∧
      ∀ a, number_from a (decimal fuel n acc) = number_from (a * 10 ^ k + n) acc.
Proof.
  induction fuel as [|fuel IH]; intros n acc Hfuel Hn; [lia|].
  cbn [decimal].
  assert (0 ≤ n mod 10 ≤ 9) as Hd by (pose proof (Z.mod_pos_bound n 10); lia).
  destruct (digit_char_digit _ Hd) as [Hdig Hval].
  pose proof (Z.div_mod n 10 ltac:(lia)) as Hdm.
  destruct (Z.eqb_spec (n / 10) 0) as [Hz|Hnz].
  - split; [cbn [all_digits]; by rewrite Hdig|].
    exists 1. split; [lia|]. intros a. cbn [number_from]. rewrite Hval.
    f_equal. lia.
  - assert (0 < n / 10) as Hpos.
    { pose proof (Z.div_pos n 10). lia. }
    rewrite Nat2Z.inj_succ, Z.pow_succ_r in Hn by lia.
    assert (n / 10 < 10 ^ Z.of_nat fuel) as Hlt.
    { apply Z.div_lt_upper_bound; lia. }
    assert (0 < fuel)%nat as Hfuel'.
    { destruct fuel; [|lia]. simpl in Hlt. lia. }
    destruct (IH (n / 10) (String (digit_char (n mod 10)) acc) Hfuel'
                ltac:(lia)) as [Hall (k & Hk & Hnum)].
    split; [rewrite Hall; cbn [all_digits]; by rewrite Hdig|].
    exists (k + 1). split; [lia|]. intros a. rewrite Hnum.
    cbn [number_from]. rewrite Hval. f_equal.
    rewrite Z.pow_add_r, Z.pow_1_r by lia. lia.
Qed.

(** What [os << n] writes for an [int] that is not negative is a string of
    digits that encodes [n]. *)
Lemma print_int_digits n :
  0 ≤ n ≤ INT_MAX →
  all_digits (print_int n) = true ∧ number_of (print_int n) = n.
Proof.
  intros Hn. unfold print_int. replace (n <? 0) with false by lia.
  destruct (decimal_spec 10 n EmptyString ltac:(lia)) as [Hall (k & Hk & Hnum)].
  { unfold INT_MAX in Hn. simpl. lia. }
  split; [done|]. unfold number_of. rewrite Hnum. simpl. lia.
Qed.

Lemma in_or_outside_grammar label : in_grammar label ∨ outside_grammar label.
Proof.
  destruct label as [|c rest].
  { right; left. by intros rest. }
  destruct (Ascii.eqb_spec c SEAT_ROW) as [->|Hc].
  2: { right; left. intros r [= ? ?]. done. }
  destruct rest as [|c' r]; [right; right; by left|].
  destruct (all_digits (String c' r)) eqn:Hd.
  2: { right; right; right; left. by eexists. }
  destruct (decide (1 ≤ number_of (String c' r) ≤ TOTAL_SEATS)) as [[? ?]|Hout].
  - left. exists (String c' r). by split_and!.
  - right; right; right; right. by eexists.
Qed.

End Printer.

(** X19: [seatIndexFromLabel] decodes the grammar and nothing else: on the
    row letter followed by one or more digits that encode a number from 1
    to TOTAL_SEATS it returns the number less one; it returns an index,
    never below -1 and always below TOTAL_SEATS, and one that is not -1
    exactly on the strings of the grammar. *)
Theorem seatIndexFromLabel_decodes label :
  -1 ≤ seatIndexFromLabel label < TOTAL_SEATS ∧
  (in_grammar label ↔ 0 ≤ seatIndexFromLabel label) ∧
  (∀ digits, label = String SEAT_ROW digits → digits ≠ EmptyString →
     all_digits digits = true → 1 ≤ number_of digits ≤ TOTAL_SEATS →
     seatIndexFromLabel label = number_of digits - 1).
Proof.
  split; [|split].
  - apply seatIndexFromLabel_range.
  - split.
    + intros (digits & -> & Hne & Hd & Hin).
      rewrite seatIndexFromLabel_inside by done. lia.
    + intros Hidx. destruct (in_or_outside_grammar label) as [|Hout]; [done|].
      apply seatIndexFromLabel_outside in Hout. lia.
  - intros digits -> Hne Hd Hin. by apply seatIndexFromLabel_inside.
Qed.

Lemma seatIndexFromLabel_decodes_witness :
  seatIndexFromLabel "A017" = number_of "017" - 1.
Proof.
  apply (seatIndexFromLabel_decodes "A017"); [done..|by vm_compute].
Defined.

(** X20: zeros before the number do not count: a zero put between the row
    letter and one or more further characters does not change what
    [seatIndexFromLabel] returns, so every seat has labels without end. *)
Theorem leading_zero_ignored rest :
  rest ≠ EmptyString →
  seatIndexFromLabel (String SEAT_ROW (String "0" rest)) =
  seatIndexFromLabel (String SEAT_ROW rest).
Proof. by destruct rest. Qed.

Lemma leading_zero_ignored_witness :
  seatIndexFromLabel (String SEAT_ROW (String "0" "7")) =
  seatIndexFromLabel (String SEAT_ROW "7").
Proof. by apply leading_zero_ignored. Defined.

(** X21: the label made for an index outside [[0, TOTAL_SEATS)] never
    decodes to a seat: for every [int] index, short of the last one, whose
    successor would overflow, decoding the label made for it gives the
    index when it is a seat index and -1 when it is not. *)
Theorem label_of_any_index i :
  INT_MIN ≤ i < INT_MAX →
  seatIndexFromLabel (seatLabelFromIndex i) =
    if decide (0 ≤ i < TOTAL_SEATS) then i else -1.
Proof.
  intros Hi. case_decide as Hin.
  { by apply seatIndexFromLabel_seatLabelFromIndex. }
  apply seatIndexFromLabel_outside. unfold seatLabelFromIndex.
  destruct (decide (i + 1 < 0)) as [Hneg|Hpos].
  - right; right; left. eexists. split; [done|].
    unfold print_int. by replace (i + 1 <? 0) with true by lia.
  - right; right; right. eexists. split; [done|].
    destruct (print_int_digits (i + 1)) as [Hall Hnum]; [lia|].
    split; [done|]. rewrite Hnum. lia.
Qed.

Lemma label_of_any_index_witness :
  INT_MIN ≤ 20 < INT_MAX ∧ seatIndexFromLabel (seatLabelFromIndex 20) = -1.
Proof.
  assert (INT_MIN ≤ 20 < INT_MAX) as H by (by vm_compute).
  split; [exact H|]. exact (label_of_any_index 20 H).
Defined.

(** ** Lower-cased names *)

Section LowerCase.

Lemma tolower_not_upper c : is_upper (tolower c) = false.
Proof. destruct c as [[] [] [] [] [] [] [] []]; reflexivity. Qed.

Lemma tolower_fixed c : is_upper c = false → tolower c = c.
Proof. unfold tolower, is_upper. by intros ->. Qed.

Lemma toLower_no_upper s : no_upper (toLower s) = true.
Proof.
  induction s as [|c s IH]; [done|]. cbn [toLower no_upper].
  by rewrite tolower_not_upper, IH.
Qed.

Lemma toLower_fixed s : no_upper s = true → toLower s = s.
Proof.
  induction s as [|c s IH]; [done|]. cbn [toLower no_upper].
  intros [Hc Hs]%andb_true_iff. apply negb_true_iff in Hc.
  by rewrite tolower_fixed, IH.
Qed.

Lemma toLower_length s : String.length (toLower s) = String.length s.
Proof. induction s as [|c s IH]; [done|]. simpl. by rewrite IH. Qed.

End LowerCase.

(** X22: [toLower] keeps the length, leaves no upper-case letter, changes
    nothing in a string without one, and so gives the same when applied
    again; on a service built by fewer calls than an [int] counts the keys
    of both name indexes are such strings, without an upper-case
    letter. *)
Theorem toLower_normalises s :
  String.length (toLower s) = String.length s ∧
  no_upper (toLower s) = true ∧
  (no_upper s = true → toLower s = s) ∧
  toLower (toLower s) = toLower s ∧
  (∀ st i, built st →
     movieNameToId_ st !! s = Some i ∨ theaterNameToId_ st !! s = Some i →
     no_upper s = true).
Proof.
  split_and!.
  - apply toLower_length.
  - apply toLower_no_upper.
  - apply toLower_fixed.
  - apply toLower_fixed, toLower_no_upper.
  - intros st i ((Hmv & Hth & _) & _)%built_service_ok [Hm | Ht].
    + destruct (movie_index_sound _ _ _ Hmv Hm) as (m & _ & <-).
      apply toLower_no_upper.
    + destruct (theater_index_sound _ _ _ Hth Ht) as (t & _ & <-).
      apply toLower_no_upper.
Qed.

Lemma toLower_normalises_witness :
  built example_service ∧ no_upper "inception" = true.
Proof.
  split; [apply example_built|].
  destruct (toLower_normalises "inception") as (_ & _ & _ & _ & H).
  apply (H example_service 1 example_built). left. by vm_compute.
Defined.

(** ** The command line: [trim] *)

Section Trim.

Implicit Types (s : list ascii) (c : ascii).

Lemma find_first_not_of_spec s :
  ∀ pos, 0 ≤ pos → pos + Z.of_nat (length s) < npos →
    (Forall (λ c, is_blank c = true) s ∧ find_first_not_of s pos = npos) ∨
    (∃ k c, find_first_not_of s pos = pos + Z.of_nat k ∧
       s !! k = Some c ∧ is_blank c = false ∧
       Forall (λ c, is_blank c = true) (take k s)).
Proof.
  induction s as [|c s IH]; intros pos Hpos Hlen; simpl.
  { left. by split. }
  simpl in Hlen. destruct (is_blank c) eqn:Hc.
  - destruct (IH (pos + 1)) as [[Hall Hr] | (k & c' & Hr & Hk & Hc' & Hpre)];
      [lia..| |].
    + left. split; [by constructor|done].
    + right. exists (S k), c'. split_and!; [lia|done..|].
      simpl. by constructor.
  - right. exists 0%nat, c. split_and!; [lia|done..|]. simpl. constructor.
Qed.

Lemma find_last_not_of_spec s :
  ∀ pos last, 0 ≤ pos →
    (Forall (λ c, is_blank c = true) s ∧ find_last_not_of s pos last = last) ∨
    (∃ k c, find_last_not_of s pos last = pos + Z.of_nat k ∧
       s !! k = Some c ∧ is_blank c = false ∧
       Forall (λ c, is_blank c = true) (drop (S k) s)).
Proof.
  induction s as [|c s IH]; intros pos last Hpos; simpl.
  { left. by split. }
  destruct (IH (pos + 1) (if is_blank c then last else pos))
    as [[Hall Hr] | (k & c' & Hr & Hk & Hc' & Hpost)]; [lia| |].
  - destruct (is_blank c) eqn:Hc.
    + left. split; [by constructor|done].
    + right. exists 0%nat, c. split_and!; [lia|done..].
  - right. exists (S k), c'. split_and!; [lia|done..].
Qed.

(** The shape of [trim]: nothing when every character is blank, else the
    characters from the first to the last one that is not. *)
Lemma trim_cases s :
  Z.of_nat (length s) < npos →
  (Forall (λ c, is_blank c = true) s ∧ trim s = []) ∨
  (∃ k1 k2 c1 c2, (k1 ≤ k2)%nat ∧
     s !! k1 = Some c1 ∧ is_blank c1 = false ∧
     s !! k2 = Some c2 ∧ is_blank c2 = false ∧
     Forall (λ c, is_blank c = true) (take k1 s) ∧
     Forall (λ c, is_blank c = true) (drop (S k2) s) ∧
     trim s = take (S k2 - k1) (drop k1 s)).
Proof.
  intros Hlen. unfold trim. cbv zeta.
  destruct (find_first_not_of_spec s 0) as
    [[Hall ->] | (k1 & c1 & -> & Hk1 & Hc1 & Hpre)]; [lia..|by left|].
  destruct (find_last_not_of_spec s 0 npos) as
    [[Hall ->] | (k2 & c2 & -> & Hk2 & Hc2 & Hpost)]; [lia| |].
  { rewrite Forall_forall in Hall. apply list_elem_of_lookup_2, Hall in Hk1.
    congruence. }
  pose proof (lookup_lt_Some _ _ _ Hk1). pose proof (lookup_lt_Some _ _ _ Hk2).
  assert (k1 ≤ k2)%nat as Hle.
  { destruct (decide (k1 ≤ k2)%nat) as [|Hgt]; [done|].
    rewrite Forall_forall in Hpost.
    assert (c1 ∈ drop (S k2) s) as Hin.
    { apply list_elem_of_lookup. exists (k1 - S k2)%nat.
      rewrite lookup_drop. by replace (S k2 + (k1 - S k2))%nat with k1 by lia. }
    apply Hpost in Hin. congruence. }
  right. exists k1, k2, c1, c2. split_and!; try done.
  replace (0 + Z.of_nat k1 =? npos) with false by (unfold npos in *; lia).
  unfold substr, wrap_size. rewrite Z.mod_small by (unfold npos in *; lia).
  replace (Z.to_nat (0 + Z.of_nat k1)) with k1 by lia.
  by replace (Z.to_nat (0 + Z.of_nat k2 - (0 + Z.of_nat k1) + 1))
    with (S k2 - k1)%nat by lia.
Qed.

Lemma trim_inside s k1 k2 c1 c2 :
  (k1 ≤ k2)%nat → s !! k1 = Some c1 → s !! k2 = Some c2 →
  s = take k1 s ++ take (S k2 - k1) (drop k1 s) ++ drop (S k2) s ∧
  head (take (S k2 - k1) (drop k1 s)) = Some c1 ∧
  last (take (S k2 - k1) (drop k1 s)) = Some c2.
Proof.
  intros Hle Hk1 Hk2.
  pose proof (lookup_lt_Some _ _ _ Hk1). pose proof (lookup_lt_Some _ _ _ Hk2).
  split_and!.
  - rewrite <-(take_drop k1 s) at 1. f_equal.
    rewrite <-(take_drop (S k2 - k1) (drop k1 s)) at 1. f_equal.
    rewrite drop_drop. f_equal. lia.
  - rewrite head_lookup, lookup_take_lt, lookup_drop by lia.
    by rewrite Nat.add_0_r.
  - rewrite last_lookup, length_take, length_drop.
    rewrite lookup_take_lt, lookup_drop by lia.
    rewrite <-Hk2. f_equal. lia.
Qed.

(** A string with no blank at either end is its own [trim]. *)
Lemma trim_fixed s c1 c2 :
  Z.of_nat (length s) < npos →
  head s = Some c1 → is_blank c1 = false →
  last s = Some c2 → is_blank c2 = false → trim s = s.
Proof.
  intros Hlen Hh Hc1 Hl Hc2.
  destruct (trim_cases s Hlen) as
    [[Hall _] | (k1 & k2 & d1 & d2 & Hle & Hk1 & Hd1 & Hk2 & Hd2 & Hpre & Hpost & ->)].
  { rewrite Forall_forall in Hall. destruct s as [|c s]; [done|].
    injection Hh as ->. assert (is_blank c1 = true) by (apply Hall; left).
    congruence. }
  pose proof (lookup_lt_Some _ _ _ Hk2) as Hlt2.
  assert (k1 = 0)%nat as ->.
  { destruct k1 as [|k1]; [done|]. rewrite Forall_forall in Hpre.
    assert (is_blank c1 = true); [|congruence].
    apply Hpre. rewrite head_lookup in Hh.
    apply list_elem_of_lookup. exists 0%nat.
    rewrite lookup_take_lt by lia. done. }
  assert (S k2 = length s) as Hk.
  { destruct (decide (S k2 = length s)) as [|Hne]; [done|].
    rewrite Forall_forall in Hpost.
    assert (is_blank c2 = true); [|congruence].
    apply Hpost. rewrite last_lookup in Hl.
    apply list_elem_of_lookup. exists (Nat.pred (length s) - S k2)%nat.
    rewrite lookup_drop, <-Hl. f_equal. lia. }
  rewrite drop_0, Nat.sub_0_r, Hk. by rewrite take_ge.
Qed.

End Trim.

(** X23: on a string shorter than [npos], [trim] takes blanks (space, tab,
    carriage return, line feed) off both ends and nothing else: the string
    is blanks, then its [trim], then blanks; the [trim] is empty exactly
    when every character is blank, and otherwise neither starts nor ends
    with a blank; and [trim] of it again changes nothing. *)
Theorem trim_strips_blanks s :
  Z.of_nat (length s) < npos →
  (∃ pre post, s = pre ++ trim s ++ post ∧
     Forall (λ c, is_blank c = true) pre ∧
     Forall (λ c, is_blank c = true) post) ∧
  (trim s = [] ↔ Forall (λ c, is_blank c = true) s) ∧
  (∀ c, head (trim s) = Some c ∨ last (trim s) = Some c → is_blank c = false) ∧
  trim (trim s) = trim s.
Proof.
  intros Hlen.
  destruct (trim_cases s Hlen) as
    [[Hall Ht] | (k1 & k2 & c1 & c2 & Hle & Hk1 & Hc1 & Hk2 & Hc2 & Hpre & Hpost & Ht)].
  - rewrite Ht. split_and!.
    + exists s, []. by rewrite app_nil_r.
    + done.
    + by intros c [|].
    + done.
  - destruct (trim_inside s k1 k2 c1 c2 Hle Hk1 Hk2) as (Hs & Hh & Hl).
    rewrite <-Ht in Hs, Hh, Hl. split_and!.
    + by eexists _, _.
    + split.
      * intros Hnil. by rewrite Hnil in Hh.
      * intros Hall. rewrite Forall_forall in Hall.
        apply list_elem_of_lookup_2, Hall in Hk1. congruence.
    + intros c [Hc | Hc]; congruence.
    + apply (trim_fixed _ c1 c2); try done.
      rewrite Ht, length_take, length_drop. lia.
Qed.

Lemma trim_strips_blanks_witness :
  trim (list_ascii_of_string "  The Matrix ") =
  list_ascii_of_string "The Matrix" ∧
  trim (trim (list_ascii_of_string "  The Matrix ")) =
  trim (list_ascii_of_string "  The Matrix ").
Proof.
  split; [by vm_compute|].
  apply (trim_strips_blanks (list_ascii_of_string "  The Matrix ")).
  by vm_compute.
Defined.

(** ** The command line: the seat request *)

Section SeatRequest.

Implicit Types (t w input : list ascii) (ts : list (list ascii)).

Lemma space_not_comma c : isspace c = true → c ≠ ","%char.
Proof. by intros Hc ->. Qed.

Lemma getline_tokens_no_comma input :
  ∀ t, ","%char ∉ t → Forall (λ t', ","%char ∉ t') (getline_tokens input t).
Proof.
  induction input as [|c input IH]; intros t Ht; simpl.
  { case_decide; by repeat constructor. }
  destruct (Ascii.eqb_spec c ",") as [->|Hc].
  - constructor; [done|]. apply IH. by apply not_elem_of_nil.
  - apply IH. rewrite elem_of_app, list_elem_of_singleton. intuition congruence.
Qed.

Lemma push_tokens_clean ts :
  Forall (λ t, ","%char ∉ t) ts → Forall clean_token (push_tokens ts).
Proof.
  induction 1 as [|t ts Ht _ IH]; simpl; [constructor|].
  destruct (strip_spaces t) as [|c t'] eqn:Hstrip; [done|].
  constructor; [|done]. split; [done|]. rewrite <-Hstrip.
  apply Forall_forall. intros c' [Hsp Hin]%list_elem_of_filter.
  split; [done|]. by intros ->.
Qed.

(** Reading characters that are not a comma only grows the token. *)
Lemma getline_tokens_read t :
  ∀ input w, ","%char ∉ t →
    getline_tokens (t ++ input) w = getline_tokens input (w ++ t).
Proof.
  induction t as [|c t IH]; intros input w Ht; simpl.
  { by rewrite app_nil_r. }
  apply not_elem_of_cons in Ht as [Hc Ht].
  destruct (Ascii.eqb_spec c ",") as [->|_]; [done|].
  rewrite IH by done. by rewrite <-app_assoc.
Qed.

Lemma strip_spaces_blank w :
  Forall (λ c, isspace c = true) w → strip_spaces w = [].
Proof.
  induction 1 as [|c w Hc _ IH]; [done|]. unfold strip_spaces in *.
  rewrite filter_cons. case_decide; [congruence|done].
Qed.

Lemma strip_spaces_clean t :
  Forall (λ c, isspace c = false ∧ c ≠ ","%char) t → strip_spaces t = t.
Proof.
  induction 1 as [|c t [Hc _] _ IH]; [done|]. unfold strip_spaces in *.
  rewrite filter_cons. case_decide; [by rewrite IH|done].
Qed.

Lemma blank_no_comma w :
  Forall (λ c, isspace c = true) w → ","%char ∉ w.
Proof.
  intros Hw Hin. rewrite Forall_forall in Hw. by apply Hw in Hin.
Qed.

Lemma clean_no_comma t : clean_token t → ","%char ∉ t.
Proof.
  intros [_ Ht] Hin. rewrite Forall_forall in Ht.
  by destruct (Ht _ Hin) as [_ ?].
Qed.

(** What a user types is what is booked: the clean tokens, joined by
    separators, after any blanks [w] already read. *)
Lemma push_tokens_join ws1 ws2 ts :
  Forall (λ c, isspace c = true) ws1 → Forall (λ c, isspace c = true) ws2 →
  Forall clean_token ts →
  ∀ w, Forall (λ c, isspace c = true) w →
    push_tokens (getline_tokens (join (ws1 ++ ","%char :: ws2) ts) w) = ts.
Proof.
  intros Hws1 Hws2. induction 1 as [|t ts Ht Hts IH]; intros w Hw.
  { simpl. case_decide; [done|]. simpl. by rewrite strip_spaces_blank. }
  pose proof Ht as [Hne Hclean].
  assert (strip_spaces (w ++ t) = t) as Hwt.
  { unfold strip_spaces. rewrite filter_app.
    fold (strip_spaces w). fold (strip_spaces t).
    by rewrite strip_spaces_blank, strip_spaces_clean. }
  destruct ts as [|t' ts].
  - cbn [join].
    rewrite <-(app_nil_r t), getline_tokens_read by (by apply clean_no_comma).
    rewrite app_nil_r. cbn [getline_tokens]. case_decide as Hemp.
    { by apply app_eq_nil in Hemp as [_ ->]. }
    cbn [push_tokens]. rewrite Hwt. by destruct t.
  - change (join ?sep (t :: t' :: ts)) with (t ++ sep ++ join sep (t' :: ts)).
    rewrite getline_tokens_read by (by apply clean_no_comma).
    rewrite <-app_assoc, getline_tokens_read by (by apply blank_no_comma).
    cbn [app getline_tokens]. rewrite Ascii.eqb_refl.
    rewrite getline_tokens_read by (by apply blank_no_comma).
    cbn [push_tokens app]. rewrite <-app_assoc.
    assert (strip_spaces (w ++ t ++ ws1) = t) as ->.
    { rewrite app_assoc. unfold strip_spaces. rewrite filter_app.
      fold (strip_spaces (w ++ t)). fold (strip_spaces ws1).
      by rewrite Hwt, strip_spaces_blank, app_nil_r. }
    destruct t as [|c t]; [done|]. f_equal. by apply IH.
Qed.

Lemma canonical_labels_clean :
  forallb (λ i, bool_decide
            (Forall (λ c, isspace c = false ∧ c ≠ ","%char)
               (list_ascii_of_string (seatLabelFromIndex i))))
    (seqZ 0 TOTAL_SEATS) = true.
Proof. by vm_compute. Qed.

End SeatRequest.

Section SeatRequestFacts.

Lemma getline_tokens_blank input :
  ∀ w, Forall (λ c, isspace c = true ∨ c = ","%char) input →
    Forall (λ c, isspace c = true) w →
    Forall (Forall (λ c, isspace c = true)) (getline_tokens input w).
Proof.
  induction input as [|c input IH]; intros w Hin Hw; simpl.
  { case_decide; by repeat constructor. }
  apply Forall_cons in Hin as [Hc Hin].
  destruct (Ascii.eqb_spec c ",") as [->|Hne].
  - constructor; [done|]. by apply IH.
  - apply IH; [done|]. apply Forall_app. split; [done|].
    constructor; [|constructor]. by destruct Hc.
Qed.

Lemma push_tokens_blank (ts : list (list ascii)) :
  Forall (Forall (λ c, isspace c = true)) ts → push_tokens ts = [].
Proof.
  induction 1 as [|t ts Ht _ IH]; simpl; [done|].
  by rewrite strip_spaces_blank.
Qed.

Lemma filter_fmap {A B} (f : A → B) (P : B → Prop) `{∀ y, Decision (P y)}
    (l : list A) :
  filter P (f <$> l) = f <$> filter (λ x, P (f x)) l.
Proof.
  induction l as [|x l IH]; [done|]. csimpl.
  rewrite !filter_cons. case_decide; csimpl; by rewrite IH.
Qed.

Lemma filter_ext_in {A} (P Q : A → Prop) `{∀ x, Decision (P x)}
    `{∀ x, Decision (Q x)} (l : list A) :
  (∀ x, x ∈ l → P x ↔ Q x) → filter P l = filter Q l.
Proof.
  induction l as [|x l IH]; intros Hext; [done|].
  rewrite !filter_cons.
  assert (P x ↔ Q x) as Hx by (apply Hext; left).
  rewrite IH by (intros y Hy; apply Hext; by right).
  repeat case_decide; tauto.
Qed.

Lemma string_of_chars_fmap (labels : list string) :
  string_of_list_ascii <$> (list_ascii_of_string <$> labels) = labels.
Proof.
  induction labels as [|l labels IH]; [done|]. csimpl.
  by rewrite string_of_list_ascii_of_string, IH.
Qed.

Lemma canonical_label_clean i :
  0 ≤ i < TOTAL_SEATS →
  clean_token (list_ascii_of_string (seatLabelFromIndex i)).
Proof.
  intros Hi. split; [done|].
  pose proof canonical_labels_clean as H. rewrite forallb_forall in H.
  eapply bool_decide_eq_true_1, H, list_elem_of_In, elem_of_seqZ. lia.
Qed.

End SeatRequestFacts.

(** X24: whatever is typed, the labels that go to [bookSeats] are not
    empty and hold no space and no comma; a line of nothing but spaces and
    commas gives no label at all. *)
Theorem seatsToBook_tokens_clean input :
  Forall (λ l, clean_token (list_ascii_of_string l)) (seatsToBook input) ∧
  (Forall (λ c, isspace c = true ∨ c = ","%char) input → seatsToBook input = []).
Proof.
  unfold seatsToBook. split.
  - apply Forall_fmap.
    eapply Forall_impl; [apply push_tokens_clean, getline_tokens_no_comma,
                           not_elem_of_nil|].
    intros t Ht. simpl. by rewrite list_ascii_of_string_of_list_ascii.
  - intros Hin. rewrite push_tokens_blank; [done|].
    by apply getline_tokens_blank.
Qed.

Lemma seatsToBook_tokens_clean_witness :
  seatsToBook (list_ascii_of_string " , ,, ") = [].
Proof.
  apply (proj2 (seatsToBook_tokens_clean (list_ascii_of_string " , ,, "))).
  apply Forall_forall. intros c Hc%list_elem_of_In. simpl in Hc.
  intuition (subst; auto).
Defined.

(** X25: what a user types is what is asked for: tokens without an empty
    one, a space or a comma, typed with a comma between them and spaces
    around it or none, come out of the line as typed, in order; so do the
    labels that [seatLabelFromIndex] makes for seat indices. *)
Theorem seatsToBook_round_trip sep (labels : list string) :
  separator sep →
  (Forall (λ l, clean_token (list_ascii_of_string l)) labels →
   seatsToBook (join sep (list_ascii_of_string <$> labels)) = labels) ∧
  (∀ idxs, Forall (λ i, 0 ≤ i < TOTAL_SEATS) idxs →
     seatsToBook (join sep (list_ascii_of_string <$>
                              (seatLabelFromIndex <$> idxs))) =
     seatLabelFromIndex <$> idxs).
Proof.
  intros (ws1 & ws2 & -> & Hws1 & Hws2).
  assert (∀ ls : list string,
            Forall (λ l, clean_token (list_ascii_of_string l)) ls →
            seatsToBook (join (ws1 ++ ","%char :: ws2)
                           (list_ascii_of_string <$> ls)) = ls) as Hmain.
  { intros ls Hls. unfold seatsToBook.
    rewrite (push_tokens_join ws1 ws2); [apply string_of_chars_fmap|done..| |done].
    by apply Forall_fmap. }
  split; [apply Hmain|].
  intros idxs Hidxs. apply Hmain, Forall_fmap.
  eapply Forall_impl; [exact Hidxs|]. apply canonical_label_clean.
Qed.

Lemma seatsToBook_round_trip_witness :
  seatsToBook (list_ascii_of_string "A1, A20") = ["A1"; "A20"]%string.
Proof.
  apply (proj1 (seatsToBook_round_trip (list_ascii_of_string ", ")
                  ["A1"; "A20"]%string
                  ltac:(exists [], [" "%char]; by repeat constructor))).
  repeat constructor; try done; by vm_compute.
Defined.

(** X26: on a show of a service that calls have built, the labels that the
    command line writes after "Already Booked seats" for what
    [getAvailableSeats] returned are the labels of the taken seats, in
    ascending order of the index; the line is written exactly when a seat
    is taken.  Every seat index has its label in one of the two lists and
    not in the other. *)
Theorem already_booked_lists_taken st showId s available :
  reachable st → shows_ st !! showId = Some s →
  getAvailableSeats showId st = Ret available →
  already_booked available =
    (if availableCount s <? TOTAL_SEATS
     then Some (seatLabelFromIndex <$> taken_indices (seats s)) else None) ∧
  (∀ i, 0 ≤ i < TOTAL_SEATS →
     (seatLabelFromIndex i ∈ available ↔ seats s !! Z.to_nat i = Some false) ∧
     (seatLabelFromIndex i ∈ seatLabelFromIndex <$> taken_indices (seats s) ↔
      seats s !! Z.to_nat i = Some true) ∧
     (seats s !! Z.to_nat i = Some false ∨ seats s !! Z.to_nat i = Some true)).
Proof.
  intros Hok%reachable_shows_ok Hs Hget.
  pose proof (Hok _ _ Hs) as Hsok. pose proof Hsok as [Hlen Hcount].
  rewrite (getAvailableSeats_ok _ _ _ Hs Hsok) in Hget. injection Hget as <-.
  assert (∀ i, 0 ≤ i < TOTAL_SEATS →
            seats s !! Z.to_nat i = Some false ∨
            seats s !! Z.to_nat i = Some true) as Hbool.
  { intros i Hi. destruct (lookup_lt_is_Some_2 (seats s) (Z.to_nat i))
      as [[] Hb]; [lia|by right|by left]. }
  assert (∀ i, 0 ≤ i < TOTAL_SEATS →
            seatLabelFromIndex i ∈ seatLabelFromIndex <$> free_indices (seats s) ↔
            seats s !! Z.to_nat i = Some false) as Hfree.
  { intros i Hi. rewrite list_elem_of_fmap. split.
    - intros (j & Heq & [Hj Hseat]%elem_of_free_indices).
      by rewrite (seatLabelFromIndex_inj i j Hi Hj Heq).
    - intros Hseat. exists i. split; [done|]. by apply elem_of_free_indices. }
  split.
  - unfold already_booked.
    rewrite length_fmap, free_indices_length, <-Hcount by done.
    destruct (_ <? _); [|done]. f_equal.
    change ((λ i, seatLabelFromIndex (i - 1)) <$> seqZ 1 TOTAL_SEATS)
      with (seatLabelFromIndex <$> seqZ 0 TOTAL_SEATS).
    rewrite filter_fmap. f_equal. unfold taken_indices.
    apply filter_ext_in. intros i Hi%elem_of_seqZ.
    rewrite Hfree by lia. destruct (Hbool i ltac:(lia)) as [Hb|Hb];
      rewrite Hb; split; congruence.
  - intros i Hi. split_and!; [by apply Hfree| |by apply Hbool].
    rewrite list_elem_of_fmap. unfold taken_indices. split.
    + intros (j & Heq & [Hseat Hj%elem_of_seqZ]%list_elem_of_filter).
      rewrite (seatLabelFromIndex_inj i j Hi) by (done || lia). done.
    + intros Hseat. exists i. split; [done|].
      apply list_elem_of_filter. split; [done|]. apply elem_of_seqZ. lia.
Qed.

Lemma already_booked_lists_taken_witness :
  already_booked (seatLabelFromIndex <$> seqZ 0 TOTAL_SEATS) = None.
Proof.
  apply (already_booked_lists_taken example_service 1 (new_show 1 1)).
  - apply example_reachable.
  - by vm_compute.
  - by vm_compute.
Defined.

(** ** The command line: reading a number *)

Section ReadNumber.

Implicit Types (s : string) (ds : list ascii).

Lemma digit_is_plain c :
  is_digit c = true →
  is_blank c = false ∧ isspace c = false ∧
  Ascii.eqb c "-" = false ∧ Ascii.eqb c "+" = false.
Proof. destruct c as [[] [] [] [] [] [] [] []]; by vm_compute. Qed.

Lemma chars_length s : length (list_ascii_of_string s) = String.length s.
Proof. induction s as [|c s IH]; [done|]. simpl. by rewrite IH. Qed.

Lemma chars_all_digits s :
  all_digits s = true → Forall (λ c, is_digit c = true) (list_ascii_of_string s).
Proof.
  induction s as [|c s IH]; simpl; [constructor|].
  intros [Hc Hs]%andb_true_iff. constructor; [done|by apply IH].
Qed.

Lemma chars_value s :
  ∀ acc, digits_value acc (list_ascii_of_string s) = number_from acc s.
Proof. induction s as [|c s IH]; intros acc; simpl; [done|]. apply IH. Qed.

Lemma leading_digits_all ds :
  Forall (λ c, is_digit c = true) ds → leading_digits ds = ds.
Proof. induction 1 as [|c ds Hc _ IH]; simpl; [done|]. by rewrite Hc, IH. Qed.


Lemma decimal_length fuel :
  ∀ n acc,
    (String.length acc + (if fuel is O then 0 else 1) ≤
       String.length (decimal fuel n acc) ≤ String.length acc + fuel)%nat.
Proof.
  induction fuel as [|fuel IH]; intros n acc; cbn [decimal]; [lia|].
  destruct (n / 10 =? 0); [simpl; lia|].
  specialize (IH (n / 10) (String (digit_char (n mod 10)) acc)). simpl in IH.
  destruct fuel; lia.
Qed.

(** The digits that [os << n] writes for [n] from 0 to 2^31. *)
Lemma decimal_chars n :
  0 ≤ n ≤ 2 ^ 31 →
  ∃ ds, list_ascii_of_string (decimal 10 n EmptyString) = ds ∧
    ds ≠ [] ∧ (length ds ≤ 10)%nat ∧
    Forall (λ c, is_digit c = true) ds ∧ digits_value 0 ds = n.
Proof.
  intros Hn. eexists. split; [done|].
  destruct (decimal_spec 10 n EmptyString ltac:(lia)) as [Hall (k & Hk & Hnum)].
  { simpl. lia. }
  pose proof (decimal_length 10 n EmptyString) as Hlen. cbn -[decimal] in Hlen.
  split_and!.
  - intros Hnil. apply (f_equal length) in Hnil.
    rewrite chars_length in Hnil. cbn [length] in Hnil. lia.
  - rewrite chars_length. lia.
  - by apply chars_all_digits.
  - rewrite chars_value, Hnum. simpl. lia.
Qed.

Lemma last_digit ds :
  ds ≠ [] → Forall (λ c, is_digit c = true) ds →
  ∃ c, last ds = Some c ∧ is_digit c = true.
Proof.
  intros Hne Hds. destruct (last ds) as [c|] eqn:Hl.
  - exists c. split; [done|]. rewrite Forall_forall in Hds.
    apply Hds. rewrite last_lookup in Hl. by eapply list_elem_of_lookup_2.
  - by apply last_None in Hl.
Qed.

(** [stoi] on digits, and on digits after a minus sign. *)
Lemma stoi_in_digits lo hi ds :
  ds ≠ [] → Forall (λ c, is_digit c = true) ds →
  stoi_in lo hi ds =
    (if (lo <=? digits_value 0 ds) && (digits_value 0 ds <=? hi)
     then StoiValue (digits_value 0 ds) else StoiOutOfRange) ∧
  stoi_in lo hi ("-"%char :: ds) =
    (if (lo <=? - digits_value 0 ds) && (- digits_value 0 ds <=? hi)
     then StoiValue (- digits_value 0 ds) else StoiOutOfRange).
Proof.
  intros Hne Hds. destruct ds as [|c ds]; [done|].
  pose proof Hds as [Hc _]%Forall_cons.
  destruct (digit_is_plain c Hc) as (_ & Hsp & Hm & Hp).
  pose proof (leading_digits_all _ Hds) as Hld.
  unfold stoi_in. cbn [skip_spaces]. rewrite Hsp.
  change (isspace "-") with false. cbv iota. rewrite Hm, Hp.
  change (Ascii.eqb "-" "-") with true. cbv iota. by rewrite Hld.
Qed.

End ReadNumber.

Section ReadNumberFacts.


Lemma safeRead_printed lo hi ds :
  ds ≠ [] → (length ds ≤ 10)%nat → Forall (λ c, is_digit c = true) ds →
  (lo ≤ digits_value 0 ds ≤ hi →
   safeRead lo hi (Some ds) = (true, Some (digits_value 0 ds), [])) ∧
  (lo ≤ - digits_value 0 ds ≤ hi →
   safeRead lo hi (Some ("-"%char :: ds)) =
     (true, Some (- digits_value 0 ds), [])).
Proof.
  intros Hne Hlen Hds.
  destruct (last_digit ds Hne Hds) as (cl & Hl & Hcl).
  destruct (stoi_in_digits lo hi ds Hne Hds) as [Hpos Hneg].
  assert (Z.of_nat (length ds) + 1 < npos) as Hnpos by (unfold npos; lia).
  split; intros Hr; unfold safeRead.
  - destruct ds as [|c1 ds']; [done|].
    pose proof Hds as [Hc1 _]%Forall_cons.
    rewrite (trim_fixed (c1 :: ds') c1 cl); try done;
      try (by apply digit_is_plain); [|lia].
    rewrite Hpos. by replace (_ && _) with true by lia.
  - rewrite (trim_fixed ("-"%char :: ds) "-"%char cl); try done.
    + rewrite Hneg. by replace (_ && _) with true by lia.
    + simpl length. lia.
    + destruct ds; [done|]. by rewrite last_cons, Hl.
    + by apply digit_is_plain.
Qed.

End ReadNumberFacts.



(** X28: a number that the program writes can be typed back: for every
    [int], [safeReadInt] and [safeReadLong] on the digits that [os << n]
    writes return [true] with that [int]. *)
Theorem safeReadInt_reads_printed n :
  INT_MIN ≤ n ≤ INT_MAX →
  safeReadInt (Some (list_ascii_of_string (print_int n))) = (true, Some n, []) ∧
  safeReadLong (Some (list_ascii_of_string (print_int n))) = (true, Some n, []).
Proof.
  unfold INT_MIN, INT_MAX. intros Hn. unfold print_int.
  destruct (Z.ltb_spec n 0) as [Hneg|Hpos].
  - destruct (decimal_chars (- n) ltac:(lia)) as (ds & Hds & Hne & Hlen & Hall & Hv).
    change (list_ascii_of_string (String "-" ?s))
      with ("-"%char :: list_ascii_of_string s).
    rewrite Hds. split.
    + destruct (safeRead_printed INT_MIN INT_MAX ds Hne Hlen Hall)
        as [_ H]. unfold safeReadInt. rewrite H; rewrite Hv.
      * do 2 f_equal. f_equal. lia.
      * unfold INT_MIN, INT_MAX. lia.
    + destruct (safeRead_printed LLONG_MIN LLONG_MAX ds Hne Hlen Hall)
        as [_ H]. unfold safeReadLong. rewrite H; rewrite Hv.
      * do 2 f_equal. f_equal. lia.
      * unfold LLONG_MIN, LLONG_MAX. lia.
  - destruct (decimal_chars n ltac:(lia)) as (ds & Hds & Hne & Hlen & Hall & Hv).
    rewrite Hds. split.
    + destruct (safeRead_printed INT_MIN INT_MAX ds Hne Hlen Hall)
        as [H _]. unfold safeReadInt. rewrite H; rewrite Hv; [done|].
      unfold INT_MIN, INT_MAX. lia.
    + destruct (safeRead_printed LLONG_MIN LLONG_MAX ds Hne Hlen Hall)
        as [H _]. unfold safeReadLong. rewrite H; rewrite Hv; [done|].
      unfold LLONG_MIN, LLONG_MAX. lia.
Qed.

Lemma safeReadInt_reads_printed_witness :
  INT_MIN ≤ -42 ≤ INT_MAX ∧
  safeReadInt (Some (list_ascii_of_string (print_int (-42)))) =
    (true, Some (-42), []).
Proof.
  assert (INT_MIN ≤ -42 ≤ INT_MAX) as H by (by vm_compute).
  split; [exact H|]. exact (proj1 (safeReadInt_reads_printed (-42) H)).
Defined.

(** ** Selling out *)

(** X29: what [getAvailableSeats] returns can be booked: on a show of a
    service that calls have built, a request of labels that it returned,
    none twice, returns [true]; and after the request of all of them
    [getAvailableSeats] returns no label. *)
Theorem available_seats_can_be_booked st showId s available :
  reachable st → shows_ st !! showId = Some s →
  getAvailableSeats showId st = Ret available →
  (∀ seatLabels, NoDup seatLabels → seatLabels ⊆ available →
     ∃ st', bookSeats showId seatLabels st = Ret (mkOut true [] st')) ∧
  (∃ st', bookSeats showId available st = Ret (mkOut true [] st') ∧
          getAvailableSeats showId st' = Ret []).
Proof.
  intros Hok%reachable_shows_ok Hs Hget.
  pose proof (Hok _ _ Hs) as Hsok. pose proof Hsok as [Hlen Hcount].
  rewrite (getAvailableSeats_ok _ _ _ Hs Hsok) in Hget. injection Hget as <-.
  assert (∀ l, l ∈ seatLabelFromIndex <$> free_indices (seats s) →
            free_seat s l ∧ l = seatLabelFromIndex (seatIndexFromLabel l)) as Hav.
  { intros l (i & -> & Hi)%list_elem_of_fmap.
    pose proof Hi as [Hr Hseat]%elem_of_free_indices. unfold free_seat.
    rewrite seatIndexFromLabel_seatLabelFromIndex by done.
    split; [|done]. split; [lia|done]. }
  assert (∀ labels, NoDup labels →
            labels ⊆ seatLabelFromIndex <$> free_indices (seats s) →
            validate (seats s) 0 [] labels =
              Accepted (seatIndexFromLabel <$> labels)) as Hvalid.
  { intros labels Hnd Hsub. apply validate_request; [done| |].
    - apply Forall_forall. intros l Hl%Hsub. by apply Hav.
    - apply NoDup_fmap_2_strong; [|done].
      intros l1 l2 Hl1%Hsub Hl2%Hsub Heq.
      destruct (Hav _ Hl1) as (_ & ->). destruct (Hav _ Hl2) as (_ & ->).
      by rewrite Heq. }
  split.
  - intros labels Hnd Hsub. eexists.
    apply (bookSeats_accepted _ _ _ _ _ Hs (Hvalid labels Hnd Hsub)).
  - assert (NoDup (seatLabelFromIndex <$> free_indices (seats s))) as Hnd.
    { apply seatLabelFromIndex_NoDup;
        [apply free_indices_NoDup|apply free_indices_range]. }
    pose proof (Hvalid _ Hnd ltac:(done)) as Hv.
    eexists. split; [apply (bookSeats_accepted _ _ _ _ _ Hs Hv)|].
    erewrite getAvailableSeats_ok;
      [|cbn [set_show shows_]; apply lookup_insert_eq|by eapply booked_ok].
    f_equal.
    destruct (free_indices (seats (booked s _))) as [|i rest] eqn:Hfree; [done|].
    assert (i ∈ free_indices (seats (booked s
              (seatIndexFromLabel <$>
                 (seatLabelFromIndex <$> free_indices (seats s))))))
      as [Hi Hseat]%elem_of_free_indices by (rewrite Hfree; left).
    cbn [booked seats] in Hseat.
    apply commit_free_after in Hseat as [Hold Hnot].
    destruct (Hnot i); [|done].
    apply list_elem_of_fmap. exists (seatLabelFromIndex i).
    split; [by rewrite seatIndexFromLabel_seatLabelFromIndex|].
    apply list_elem_of_fmap_2. by apply elem_of_free_indices.
Qed.

Lemma available_seats_can_be_booked_witness :
  ∃ st', bookSeats 1 (seatLabelFromIndex <$> seqZ 0 TOTAL_SEATS)
           example_service = Ret (mkOut true [] st') ∧
         getAvailableSeats 1 st' = Ret [].
Proof.
  apply (available_seats_can_be_booked example_service 1 (new_show 1 1)).
  - apply example_reachable.
  - by vm_compute.
  - by vm_compute.
Defined.

(** X30: only a booking changes a show: a call of [addMovie],
    [addTheater], [createShow] or [getAvailableSeats] leaves every show of
    the service under its id as it was, seat vector and count included. *)
Theorem only_bookings_change_shows c st st' i s :
  step c st = Some st' →
  (∀ showId seatLabels, c ≠ CallBookSeats showId seatLabels) →
  shows_ st !! i = Some s → shows_ st' !! i = Some s.
Proof.
  intros Hstep Hc Hi.
  destruct c as [title|name|m t|showId|showId labels]; simpl in Hstep.
  - injection Hstep as <-. by rewrite addMovie_shows.
  - injection Hstep as <-. by rewrite addTheater_shows.
  - injection Hstep as <-.
    destruct (createShow_cases m t st) as [(_ & -> & _) | (mv & th & Hm & Ht & Hn)];
      [done|].
    rewrite (createShow_fresh_pair _ _ _ _ _ Hm Ht Hn). cbn [post shows_].
    by rewrite lookup_emplace, Hi.
  - destruct (getAvailableSeats _ _); by simplify_eq.
  - by destruct (Hc showId labels).
Qed.

Lemma only_bookings_change_shows_witness :
  shows_ (post (createShow 1 1 example_service)) !! 1 = Some (new_show 1 1).
Proof.
  apply (only_bookings_change_shows (CallCreateShow 1 1) example_service).
  - reflexivity.
  - discriminate.
  - by vm_compute.
Defined.
